(** * shadowsocks-ws: the per-connection AEAD framer and relay of [server.mjs]

    A shallow embedding of the [wss.on('connection', ...)] closure of
    [src/server.mjs].  The closure variables become the fields of [Conn],
    grouped as the source groups them (decryption context, encryption
    context, server context); every event handler becomes a function
    [Conn -> Conn].  An [async] handler runs up to its next [await]; the
    part after the [await] is the function run by the event that settles
    the awaited promise ([ConnectResolved], [ConnectRejected], [RemoteDrain]).

    What [server.mjs] imports and this repository does not show is taken as
    a parameter: the [AEAD] class and the sizes of [aead.mjs], [hkdfSync]
    (class [Crypto]) and [inet_ntoa], [inet_ntop] of [util.mjs] (class
    [Util]).  The [ws] WebSocket and the [net] socket are records that log
    the calls the handlers make on them; what the environment decides (the
    outcome of [connect], the bytes of [randomBytes], the result of each
    [remote.write]) comes with the events.  An exception no handler
    catches is recorded in [faults], the state staying as the handler left
    it.  [debuglog] calls are left out; [warnlog] and [errorlog] are kept
    with their level and message. *)

From Stdlib Require Import String List Arith NArith Bool Lia.
From Stdlib.Strings Require Import Byte.
Import ListNotations.

Set Implicit Arguments.

(** ** Buffers *)

Definition bytes := list byte.

(** [buf.subarray(s, e)]: indices are clamped to the buffer. *)
Definition subarray (b : bytes) (s e : nat) : bytes := firstn (e - s) (skipn s b).

(** [buf.readUInt16BE(off)]: throws (here [None]) unless both bytes exist. *)
Definition readUInt16BE (b : bytes) (off : nat) : option nat :=
  match nth_error b off, nth_error b (S off) with
  | Some hi, Some lo => Some (Byte.to_nat hi * 256 + Byte.to_nat lo)
  | _, _ => None
  end.

(** [Buffer.alloc(2)] followed by [writeUInt16BE(v)]: throws (here [None])
    when [v] does not fit 16 bits. *)
Definition writeUInt16BE (v : nat) : option bytes :=
  match Byte.of_nat (v / 256), Byte.of_nat (v mod 256) with
  | Some hi, Some lo => Some [hi; lo]
  | _, _ => None
  end.

(** The chunk bound [0x3fff] of the [remote.on('data')] loop. *)
Definition MAX_PAYLOAD : nat := N.to_nat 0x3fff.

(** ** What the source imports *)

(** [aead.mjs] and [node:crypto].  An [AEAD] value is the state of one
    [new AEAD(METHOD, dk)] object (its key and nonce); [decrypt] and
    [encrypt] return the object's next state with their result, [decrypt]
    returning [None] for JavaScript's [null].  [hkdfSync key salt] stands for
    [hkdfSync('sha1', key, salt, 'ss-subkey', KEY_SIZE)], and [KEY] for the
    key [EVP_BytesToKey(PASS, KEY_SIZE)] gives.  Where a property needs
    more of the AEAD than its signature (a positive tag size, plaintexts as
    long as their ciphertexts, [decrypt] opening what [encrypt] sealed), it
    says so in a hypothesis. *)
Class Crypto := {
  SALT_SIZE : nat;
  TAG_SIZE : nat;
  KEY : bytes;
  hkdfSync : bytes -> bytes -> bytes;
  AEAD : Type;
  AEAD_new : bytes -> AEAD;
  AEAD_decrypt : AEAD -> bytes -> bytes -> option bytes * AEAD;
  AEAD_encrypt : AEAD -> bytes -> bytes * AEAD
}.

(** [util.mjs]: the textual forms of IPv4 and IPv6 addresses. *)
Class Util := {
  inet_ntoa : bytes -> string;
  inet_ntop : bytes -> string
}.

(** ** The connection state *)

Inductive Stage := CLOSED | OPENING | OPEN | WRITING.

(** Exceptions that leave a handler uncaught, and a loop that never ends. *)
Inductive Fault := TypeError | RangeError | Hang.

Inductive Level := Warn | Error.

(** How a block of a handler ends: it falls through to the next block, it
    executes [return], it meets a [null] plaintext (and terminates the
    WebSocket), or it faults. *)
Inductive Exit := Proceed | Returned | AuthFailure | Faulted (f : Fault).

(** The target socket: the chunks passed to [remote.write] in order, each
    with the result the call returned ([false] is "wait for drain"); the
    results the coming [write] calls will give (a socket with no entry left
    accepts); and the flags set by [destroy()], [pause()]/[resume()] and
    [end()]. *)
Record Socket := mkSocket {
  writes : list (bytes * bool);
  accepts : list bool;
  destroyed : bool;
  sock_paused : bool;
  ended : bool
}.

Inductive ReadyState := WS_OPEN | WS_CLOSING | WS_CLOSED.

(** The client WebSocket: its [readyState], whether ingress is paused, the
    messages passed to [ws.send] in order, whether [terminate()] was called. *)
Record WebSocket := mkWebSocket {
  readyState : ReadyState;
  ws_paused : bool;
  sent : list bytes;
  terminated : bool
}.

(** The [await] a suspended run of the message handler is parked on.  The
    stage lets one run at most get that far ([stage_inv] below): a run that
    finds the stage OPENING or WRITING returns before any [await]. *)
Inductive Await := AwaitConnect (port : nat) (addr : string) | AwaitDrain.

Section Connection.
Context {crypto : Crypto} {util : Util}.

(** [// decryption context] *)
Record DecCtx := mkDec {
  rx : option (list bytes);
  decipher : option AEAD;
  cipherTextSize : nat;
  chunkIndex : nat;
  payloads : list bytes
}.

(** [// encryption context] *)
Record EncCtx := mkEnc {
  tx : option (list bytes);
  cipher : option AEAD
}.

(** The closure of one connection: the two contexts, the [// server context]
    ([stage], [to], [remote]), whether the [remote.on] handlers are
    registered, and the environment the handlers act on. *)
Record Conn := mkConn {
  dec : DecCtx;
  enc : EncCtx;
  stage : Stage;
  to : option (string * nat);
  remote : option Socket;
  handlers : bool;
  ws : WebSocket;
  awaiting : option Await;
  faults : list Fault;
  logs : list (Level * string)
}.

Definition init_dec : DecCtx := mkDec (Some []) None 2 0 [].
Definition init_enc : EncCtx := mkEnc (Some []) None.
Definition init_ws : WebSocket := mkWebSocket WS_OPEN false [] false.
Definition init_conn : Conn :=
  mkConn init_dec init_enc CLOSED None None false init_ws None [] [].

(** Field updates. *)
Definition with_rx (r : option (list bytes)) (d : DecCtx) : DecCtx :=
  mkDec r (decipher d) (cipherTextSize d) (chunkIndex d) (payloads d).
Definition with_decipher (a : option AEAD) (d : DecCtx) : DecCtx :=
  mkDec (rx d) a (cipherTextSize d) (chunkIndex d) (payloads d).
Definition with_cipherTextSize (n : nat) (d : DecCtx) : DecCtx :=
  mkDec (rx d) (decipher d) n (chunkIndex d) (payloads d).
Definition incr_chunkIndex (d : DecCtx) : DecCtx :=
  mkDec (rx d) (decipher d) (cipherTextSize d) (S (chunkIndex d)) (payloads d).
Definition with_payloads (p : list bytes) (d : DecCtx) : DecCtx :=
  mkDec (rx d) (decipher d) (cipherTextSize d) (chunkIndex d) p.

Definition with_dec (d : DecCtx) (c : Conn) : Conn :=
  mkConn d (enc c) (stage c) (to c) (remote c) (handlers c) (ws c)
         (awaiting c) (faults c) (logs c).
Definition with_enc (e : EncCtx) (c : Conn) : Conn :=
  mkConn (dec c) e (stage c) (to c) (remote c) (handlers c) (ws c)
         (awaiting c) (faults c) (logs c).
Definition with_stage (s : Stage) (c : Conn) : Conn :=
  mkConn (dec c) (enc c) s (to c) (remote c) (handlers c) (ws c)
         (awaiting c) (faults c) (logs c).
Definition with_to (t : option (string * nat)) (c : Conn) : Conn :=
  mkConn (dec c) (enc c) (stage c) t (remote c) (handlers c) (ws c)
         (awaiting c) (faults c) (logs c).
Definition with_remote (r : option Socket) (c : Conn) : Conn :=
  mkConn (dec c) (enc c) (stage c) (to c) r (handlers c) (ws c)
         (awaiting c) (faults c) (logs c).
Definition with_handlers (h : bool) (c : Conn) : Conn :=
  mkConn (dec c) (enc c) (stage c) (to c) (remote c) h (ws c)
         (awaiting c) (faults c) (logs c).
Definition with_ws (w : WebSocket) (c : Conn) : Conn :=
  mkConn (dec c) (enc c) (stage c) (to c) (remote c) (handlers c) w
         (awaiting c) (faults c) (logs c).
Definition with_awaiting (a : option Await) (c : Conn) : Conn :=
  mkConn (dec c) (enc c) (stage c) (to c) (remote c) (handlers c) (ws c)
         a (faults c) (logs c).

(** An exception nobody catches: the handler stops where it is. *)
Definition throw (f : Fault) (c : Conn) : Conn :=
  mkConn (dec c) (enc c) (stage c) (to c) (remote c) (handlers c) (ws c)
         (awaiting c) (faults c ++ [f]) (logs c).

(** [warnlog(msg, ...)] and [errorlog(msg, ...)]. *)
Definition log (l : Level) (msg : string) (c : Conn) : Conn :=
  mkConn (dec c) (enc c) (stage c) (to c) (remote c) (handlers c) (ws c)
         (awaiting c) (faults c) (logs c ++ [(l, msg)]).

(** ** The WebSocket and the target socket as the handlers use them *)

(** [ws.terminate()]: a closed socket stays closed, any other is closing. *)
Definition ws_terminate (c : Conn) : Conn :=
  let w := ws c in
  with_ws (mkWebSocket
             (match readyState w with WS_CLOSED => WS_CLOSED | _ => WS_CLOSING end)
             (ws_paused w) (sent w) true) c.

Definition ws_pause (c : Conn) : Conn :=
  let w := ws c in
  with_ws (mkWebSocket (readyState w) true (sent w) (terminated w)) c.

Definition ws_resume (c : Conn) : Conn :=
  let w := ws c in
  with_ws (mkWebSocket (readyState w) false (sent w) (terminated w)) c.

(** [ws.send(msg, cb)]; [cb] runs at the event [WsSendDone]. *)
Definition ws_send (msg : bytes) (c : Conn) : Conn :=
  let w := ws c in
  with_ws (mkWebSocket (readyState w) (ws_paused w) (sent w ++ [msg])
                       (terminated w)) c.

(** [remote.write(p)]: logs the chunk and gives the socket's next answer. *)
Definition sock_write (s : Socket) (p : bytes) : bool * Socket :=
  let ok := hd true (accepts s) in
  (ok, mkSocket (writes s ++ [(p, ok)]) (tl (accepts s)) (destroyed s)
                (sock_paused s) (ended s)).

(** The socket [connect] resolves to: nothing written yet. *)
Definition new_socket (answers : list bool) : Socket :=
  mkSocket [] answers false false false.

Definition sock_destroy (s : Socket) : Socket :=
  mkSocket (writes s) (accepts s) true (sock_paused s) (ended s).
Definition sock_set_paused (b : bool) (s : Socket) : Socket :=
  mkSocket (writes s) (accepts s) (destroyed s) b (ended s).
Definition sock_end (s : Socket) : Socket :=
  mkSocket (writes s) (accepts s) (destroyed s) (sock_paused s) true.

(** A method call on [remote], which throws a [TypeError] on [null]. *)
Definition on_remote (f : Socket -> Socket) (c : Conn) : Conn :=
  match remote c with
  | Some s => with_remote (Some (f s)) c
  | None => throw TypeError c
  end.

(** ** Inbound framer: [ws.on('message')], lines 78-133 *)

(** The [while (data.length > 0)] loop of lines 103-132 on the variables it
    touches.  [fuel] bounds the iterations; running out of it is [Hang]. *)
Fixpoint decrypt_chunks (fuel : nat) (d : DecCtx) (data : bytes) : Exit * DecCtx :=
  match data with
  | [] => (Proceed, d)
  | _ :: _ =>
    match fuel with
    | O => (Faulted Hang, d)
    | S fuel' =>
      let chunkSize := cipherTextSize d + TAG_SIZE in
      if length data <? chunkSize then
        match rx d with
        | Some r => (Proceed, with_rx (Some (r ++ [data])) d)
        | None => (Faulted TypeError, d)
        end
      else
        let chunk := subarray data 0 chunkSize in
        let data' := skipn chunkSize data in
        let cipherText := subarray chunk 0 (cipherTextSize d) in
        let authTag := skipn (cipherTextSize d) chunk in
        match decipher d with
        | None => (Faulted TypeError, d)
        | Some a =>
          match AEAD_decrypt a cipherText authTag with
          | (None, a') => (AuthFailure, with_decipher (Some a') d)
          | (Some plainText, a') =>
            let d1 := with_decipher (Some a') d in
            if Nat.even (chunkIndex d1) then
              match readUInt16BE plainText 0 with
              | Some n =>
                decrypt_chunks fuel' (incr_chunkIndex (with_cipherTextSize n d1)) data'
              | None => (Faulted RangeError, d1)
              end
            else
              decrypt_chunks fuel'
                (incr_chunkIndex
                   (with_payloads (payloads d1 ++ [plainText])
                      (with_cipherTextSize 2 d1)))
                data'
          end
        end
    end
  end.

(** Lines 85-132: initialise [decipher] from the salt, then decrypt the
    chunks.  Every iteration of the loop removes [cipherTextSize + TAG_SIZE]
    bytes, so [length data] iterations are enough when [TAG_SIZE] is
    positive. *)
Definition init_and_decrypt (d : DecCtx) (data : bytes) : Exit * DecCtx :=
  match decipher d with
  | None =>
    if length data <? SALT_SIZE then
      match rx d with
      | Some r => (Returned, with_rx (Some (r ++ [data])) d)
      | None => (Faulted TypeError, d)
      end
    else
      let salt := subarray data 0 SALT_SIZE in
      let data' := skipn SALT_SIZE data in
      let dk := hkdfSync KEY salt in
      decrypt_chunks (length data') (with_decipher (Some (AEAD_new dk)) d) data'
  | Some _ => decrypt_chunks (length data) d data
  end.

(** Lines 78-133: retrieve the bytes kept in [rx] (lines 79-83), then the
    above. *)
Definition feed (d : DecCtx) (data : bytes) : Exit * DecCtx :=
  match rx d with
  | None => (Faulted TypeError, d)
  | Some r =>
    if 0 <? length r then init_and_decrypt (with_rx (Some []) d) (concat (r ++ [data]))
    else init_and_decrypt d data
  end.

(** ** Relay state machine: [ws.on('message')], lines 135-231 *)

Inductive Parsed :=
| Address (addr : string) (port : nat) (rest : bytes)
| InvalidAtyp
| ParseThrew (f : Fault).

(** The [switch (address[0])] of lines 147-167; [rest] is the value
    [address] is left with. *)
Definition parse_address (address : bytes) : Parsed :=
  match nth_error address 0 with
  | Some x03 =>
    match nth_error address 1 with
    | Some n =>
      let len := Byte.to_nat n in
      let addr := string_of_list_byte (subarray address 2 (2 + len)) in
      match readUInt16BE address (2 + len) with
      | Some port => Address addr port (skipn (4 + len) address)
      | None => ParseThrew RangeError
      end
    | None => ParseThrew RangeError
    end
  | Some x01 =>
    let addr := inet_ntoa (subarray address 1 5) in
    match readUInt16BE address 5 with
    | Some port => Address addr port (skipn 7 address)
    | None => ParseThrew RangeError
    end
  | Some x04 =>
    let addr := inet_ntop (subarray address 1 17) in
    match readUInt16BE address 17 with
    | Some port => Address addr port (skipn 19 address)
    | None => ParseThrew RangeError
    end
  | _ => InvalidAtyp
  end.

(** The loop of lines 223-230 up to its first [await], then line 231.
    [ps] is the content of [payloads] when the loop is entered. *)
Fixpoint drain_from (ps : list bytes) (c : Conn) : Conn :=
  match ps with
  | [] => with_stage OPEN c
  | p :: ps' =>
    match remote c with
    | None => throw TypeError c
    | Some s =>
      let (ok, s') := sock_write s p in
      let c1 := with_remote (Some s') (with_dec (with_payloads ps' (dec c)) c) in
      if ok then drain_from ps' c1
      else with_awaiting (Some AwaitDrain) (ws_pause c1)
    end
  end.

Definition drain (c : Conn) : Conn := drain_from (payloads (dec c)) c.

(** Lines 135-231 up to the first [await]. *)
Definition consume (c : Conn) : Conn :=
  match payloads (dec c) with
  | [] => c
  | address :: queued =>
    match stage c with
    | OPENING | WRITING => c
    | CLOSED =>
      let c1 := with_dec (with_payloads queued (dec c)) (with_stage OPENING c) in
      match parse_address address with
      | InvalidAtyp => ws_terminate (log Warn "invalid atyp" c1)
      | ParseThrew f => throw f c1
      | Address addr port rest =>
        let c2 :=
          match rest with
          | [] => c1
          | _ :: _ => with_dec (with_payloads (queued ++ [rest]) (dec c1)) c1
          end in
        let c3 := with_to (Some (addr, port)) c2 in
        with_awaiting (Some (AwaitConnect port addr)) (ws_pause c3)
      end
    | OPEN => drain (with_stage WRITING c)
    end
  end.

(** [ws.on('message', async (data) => ...)] up to its first [await]. *)
Definition on_message (c : Conn) (data : bytes) : Conn :=
  match feed (dec c) data with
  | (Proceed, d) => consume (with_dec d c)
  | (Returned, d) => with_dec d c
  | (AuthFailure, d) =>
    ws_terminate (log Warn "invalid password or cipher" (with_dec d c))
  | (Faulted f, d) => throw f (with_dec d c)
  end.

(** ** Outbound framer: [remote.on('data')], lines 196-211 *)

(** The [while (data.length > 0)] loop of lines 198-205. *)
Fixpoint encrypt_chunks (fuel : nat) (e : EncCtx) (data : bytes) : Exit * EncCtx :=
  match data with
  | [] => (Proceed, e)
  | _ :: _ =>
    match fuel with
    | O => (Faulted Hang, e)
    | S fuel' =>
      let payload := subarray data 0 MAX_PAYLOAD in
      match writeUInt16BE (length payload) with
      | None => (Faulted RangeError, e)
      | Some len =>
        match tx e, cipher e with
        | Some t, Some a =>
          let (frame1, a1) := AEAD_encrypt a len in
          let (frame2, a2) := AEAD_encrypt a1 payload in
          encrypt_chunks fuel' (mkEnc (Some ((t ++ [frame1]) ++ [frame2])) (Some a2))
                         (skipn MAX_PAYLOAD data)
        | _, _ => (Faulted TypeError, e)
        end
      end
    end
  end.

(** The handler of lines 196-211.  The loop removes [0x3fff] bytes, or all
    that is left, in every iteration, so [length data] iterations are
    enough; it has no [return], so its other exits do not arise. *)
Definition on_remote_data (c : Conn) (data : bytes) : Conn :=
  match encrypt_chunks (length data) (enc c) data with
  | (Proceed, e) =>
    let c1 := with_enc e c in
    match remote c1 with
    | None => throw TypeError c1
    | Some s =>
      let c2 := with_remote (Some (sock_set_paused true s)) c1 in
      match tx e with
      | None => throw TypeError c2
      | Some t => with_enc (mkEnc (Some []) (cipher e)) (ws_send (concat t) c2)
      end
    end
  | (Faulted f, e) => throw f (with_enc e c)
  | (_, e) => with_enc e c
  end.

(** ** The continuations of the two [await]s and the other handlers *)

(** Lines 176-231 once [connect] has resolved to a socket that will answer
    its [write] calls with [answers]; [salt] is what [randomBytes(SALT_SIZE)]
    returns. *)
Definition connect_resolved (answers : list bool) (salt : bytes) (c : Conn) : Conn :=
  let s := new_socket answers in
  let c1 := ws_resume (with_remote (Some s) (with_awaiting None c)) in
  match readyState (ws c1) with
  | WS_OPEN =>
    match tx (enc c1) with
    | None => throw TypeError c1
    | Some t =>
      let dk := hkdfSync KEY salt in
      let c2 := with_enc (mkEnc (Some (t ++ [salt])) (Some (AEAD_new dk))) c1 in
      drain (with_stage WRITING (with_handlers true c2))
    end
  | _ => with_remote (Some (sock_destroy s)) c1
  end.

(** The [catch] of lines 178-182; [msg] is [err.message]. *)
Definition connect_rejected (msg : string) (c : Conn) : Conn :=
  ws_terminate (log Error msg (with_awaiting None c)).

(** Lines 227-231 once ['drain'] has fired. *)
Definition drain_resumed (c : Conn) : Conn :=
  drain (ws_resume (with_awaiting None c)).

(** [ws.on('close')], lines 234-238. *)
Definition on_ws_close (c : Conn) : Conn :=
  let c1 :=
    match remote c with
    | Some s => if destroyed s then c else with_remote (Some (sock_destroy s)) c
    | None => c
    end in
  with_enc (mkEnc None None)
    (with_dec (with_decipher None (with_rx None (dec c1))) c1).

(** [remote.on('close')], lines 216-219. *)
Definition on_remote_close (c : Conn) : Conn :=
  match readyState (ws c) with
  | WS_OPEN => ws_terminate c
  | _ => c
  end.

(** ** Events *)

Inductive Event :=
| WsMessage (data : bytes)
| WsClose
| WsSendDone
| ConnectResolved (answers : list bool) (salt : bytes)
| ConnectRejected (msg : string)
| RemoteData (data : bytes)
| RemoteDrain
| RemoteError (msg : string)
| RemoteEnd
| RemoteClose.

(** One event: the handler registered for it runs to its end or to its next
    [await].  A settled promise nobody awaits and a socket event without a
    registered handler change nothing.  [WsClose] is the ['close'] event of
    [ws], which has reached [readyState] CLOSED when its handler runs. *)
Definition step (c : Conn) (e : Event) : Conn :=
  match e with
  | WsMessage data => on_message c data
  | WsClose =>
    let w := ws c in
    on_ws_close (with_ws (mkWebSocket WS_CLOSED (ws_paused w) (sent w) (terminated w)) c)
  | WsSendDone => if handlers c then on_remote (sock_set_paused false) c else c
  | ConnectResolved answers salt =>
    match awaiting c with
    | Some (AwaitConnect _ _) => connect_resolved answers salt c
    | _ => c
    end
  | ConnectRejected msg =>
    match awaiting c with
    | Some (AwaitConnect _ _) => connect_rejected msg c
    | _ => c
    end
  | RemoteData data => if handlers c then on_remote_data c data else c
  | RemoteDrain =>
    match awaiting c with
    | Some AwaitDrain => drain_resumed c
    | _ => c
    end
  | RemoteError msg => if handlers c then log Error msg c else c
  | RemoteEnd => if handlers c then on_remote sock_end c else c
  | RemoteClose => if handlers c then on_remote_close c else c
  end.

Definition run (c : Conn) (es : list Event) : Conn := fold_left step es c.

(** ** The framers seen from outside *)

(** The inbound framer alone, fed the messages of a stream one after the
    other: what lines 78-133 do to the decryption context, run after run,
    the payloads staying in [payloads].  A run that ends early (a null
    plaintext, an exception) leaves the context as it is at that point, and
    the next message is handled from there: in the handler nothing but the
    ['close'] event, which sets [rx] and [decipher] to null, stops lines
    78-133 from running on the next message. *)
Fixpoint feed_all (d : DecCtx) (chunks : list bytes) : DecCtx :=
  match chunks with
  | [] => d
  | data :: rest => feed_all (snd (feed d data)) rest
  end.

(** The chunking rule and the frames of the outbound framer in the words of
    the specification (section 4.3): the input is split so that each payload
    frame carries at most [0x3FFF] bytes; for each chunk [c] the framer
    emits [encrypt(uint16be(|c|))] and then [encrypt(c)]. *)
Fixpoint split_every (fuel : nat) (data : bytes) : list bytes :=
  match fuel, data with
  | S fuel', _ :: _ => firstn MAX_PAYLOAD data :: split_every fuel' (skipn MAX_PAYLOAD data)
  | _, _ => []
  end.

Definition spec_chunks (data : bytes) : list bytes := split_every (length data) data.

(** [uint16be(n)]: the two bytes of [n], high byte first. *)
Definition uint16be (n : nat) : bytes :=
  match Byte.of_nat (n / 256), Byte.of_nat (n mod 256) with
  | Some hi, Some lo => [hi; lo]
  | _, _ => []
  end.

Fixpoint spec_frames (a : AEAD) (chunks : list bytes) : list bytes * AEAD :=
  match chunks with
  | [] => ([], a)
  | c :: rest =>
    let (len_frame, a1) := AEAD_encrypt a (uint16be (length c)) in
    let (payload_frame, a2) := AEAD_encrypt a1 c in
    let (frames, a') := spec_frames a2 rest in
    (len_frame :: payload_frame :: frames, a')
  end.

(** The WebSocket messages the specification asks of the outbound framer for
    the inputs [inputs]: one message per input, the salt in front of the
    first. *)
Fixpoint spec_messages (prefix : bytes) (a : AEAD) (inputs : list bytes) : list bytes :=
  match inputs with
  | [] => []
  | data :: rest =>
    let (frames, a') := spec_frames a (spec_chunks data) in
    (prefix ++ concat frames) :: spec_messages [] a' rest
  end.

(** The inputs the remote socket delivers among the events [es], in order. *)
Fixpoint remote_inputs (es : list Event) : list bytes :=
  match es with
  | [] => []
  | RemoteData data :: es' => data :: remote_inputs es'
  | _ :: es' => remote_inputs es'
  end.

(** A first payload with a known ATYP that is shorter than its layout: 7
    bytes for IPv4, 19 for IPv6, 4 + N for a domain of N bytes. *)
Definition short_header (address : bytes) : Prop :=
  match address with
  | x01 :: _ => length address < 7
  | x04 :: _ => length address < 19
  | x03 :: [] => True
  | x03 :: n :: _ => length address < 4 + Byte.to_nat n
  | _ => False
  end.

(** The bytes of [rx], in order. *)
Definition pending (d : DecCtx) : bytes :=
  match rx d with
  | Some r => concat r
  | None => []
  end.

(** The chunks handed to [remote.write] so far, with the results. *)
Definition write_log (c : Conn) : list (bytes * bool) :=
  match remote c with
  | Some s => writes s
  | None => []
  end.

(** What holds of [stage], [remote], the parked [await] and the outbound
    side between two handler runs. *)
Definition stage_inv (c : Conn) : Prop :=
  match stage c with
  | CLOSED => awaiting c = None /\ remote c = None /\ handlers c = false
  | OPENING =>
    handlers c = false /\
    match awaiting c with
    | Some (AwaitConnect _ _) => remote c = None
    | Some AwaitDrain => False
    | None =>
      forall s, remote c = Some s ->
                destroyed s = true /\ readyState (ws c) <> WS_OPEN
    end
  | WRITING =>
    awaiting c = Some AwaitDrain /\ ws_paused (ws c) = true /\
    remote c <> None /\ handlers c = true
  | OPEN => awaiting c = None /\ remote c <> None /\ handlers c = true
  end.

Definition outbound_inv (c : Conn) : Prop :=
  handlers c = false ->
  sent (ws c) = [] /\ (readyState (ws c) = WS_OPEN -> tx (enc c) = Some []).

Definition conn_inv (c : Conn) : Prop := stage_inv c /\ outbound_inv c.

(** What a handler run adds to the log of [remote.write] calls: a refused
    write is the last one of the run and leaves ingress paused, the handler
    parked on ['drain']. *)
Definition refusal_pauses (new : list (bytes * bool)) (c' : Conn) : Prop :=
  forall p, In (p, false) new ->
            (exists accepted, new = accepted ++ [(p, false)])
            /\ ws_paused (ws c') = true
            /\ awaiting c' = Some AwaitDrain.

(** A handler run that writes nothing, parks or wakes nothing and leaves
    ingress as it is. *)
Definition quiet (c c' : Conn) : Prop :=
  write_log c' = write_log c /\ awaiting c' = awaiting c
  /\ ws_paused (ws c') = ws_paused (ws c).

(** The decryption context between two messages: [rx] is an array, and at a
    length chunk the next ciphertext has two bytes. *)
Definition framer_wf (d : DecCtx) : Prop :=
  rx d <> None /\ (Nat.even (chunkIndex d) = true -> cipherTextSize d = 2).

(** The laws of the AEAD of [aead.mjs] the round trip rests on: a sealed
    frame is the ciphertext, as long as the plaintext, followed by a tag of
    [TAG_SIZE] bytes; an object in the state the sealing object was in opens
    it and moves to the state the sealing object moved to. *)
Definition aead_opens_sealed : Prop :=
  forall (a : AEAD) (pt : bytes),
    length (fst (AEAD_encrypt a pt)) = length pt + TAG_SIZE
    /\ AEAD_decrypt a (firstn (length pt) (fst (AEAD_encrypt a pt)))
                    (skipn (length pt) (fst (AEAD_encrypt a pt)))
       = (Some pt, snd (AEAD_encrypt a pt)).

(** A plaintext is as long as its ciphertext. *)
Definition aead_keeps_length : Prop :=
  forall (a a' : AEAD) (ct tag pt : bytes),
    AEAD_decrypt a ct tag = (Some pt, a') -> length pt = length ct.

End Connection.

(** ** A small instance to run the handlers on

    The sizes are those of both methods of the server (salt 32, tag 16).
    The toy cipher leaves the plaintext as it is and seals it with sixteen
    copies of a checksum of key, nonce and plaintext. *)

Record ToyAEAD := mkToy { toy_key : bytes; toy_nonce : nat }.

Definition toy_sum (b : bytes) : nat :=
  fold_right (fun x n => Byte.to_nat x + n) 0 b.

Definition toy_byte (n : nat) : byte :=
  match Byte.of_nat (n mod 256) with
  | Some b => b
  | None => x00
  end.

Definition toy_tag (a : ToyAEAD) (pt : bytes) : bytes :=
  repeat (toy_byte (toy_sum (toy_key a) + toy_nonce a + toy_sum pt)) 16.

Fixpoint bytes_eqb (x y : bytes) : bool :=
  match x, y with
  | [], [] => true
  | a :: x', b :: y' => Byte.eqb a b && bytes_eqb x' y'
  | _, _ => false
  end.

Definition toy_next (a : ToyAEAD) : ToyAEAD := mkToy (toy_key a) (S (toy_nonce a)).

Definition toy_encrypt (a : ToyAEAD) (pt : bytes) : bytes * ToyAEAD :=
  (pt ++ toy_tag a pt, toy_next a).

Definition toy_decrypt (a : ToyAEAD) (ct tag : bytes) : option bytes * ToyAEAD :=
  if bytes_eqb tag (toy_tag a ct) then (Some ct, toy_next a) else (None, a).

Definition toy_crypto : Crypto :=
  {| SALT_SIZE := 32;
     TAG_SIZE := 16;
     KEY := [];
     hkdfSync := fun key salt => key ++ salt;
     AEAD := ToyAEAD;
     AEAD_new := fun dk => mkToy dk 0;
     AEAD_decrypt := toy_decrypt;
     AEAD_encrypt := toy_encrypt |}.

Definition toy_util : Util :=
  {| inet_ntoa := string_of_list_byte;
     inet_ntop := string_of_list_byte |}.

(** The client side of the toy instance: salt thirty-two zero bytes, and
    the frame that seals [pt] under that salt with nonce [n]. *)
Definition toy_salt : bytes := repeat x00 32.

Definition toy_seal (n : nat) (pt : bytes) : bytes :=
  fst (toy_encrypt (mkToy toy_salt n) pt).

(** The address header of 127.0.0.1:80 (ATYP 1). *)
Definition header_ipv4 : bytes := [x01; x7f; x00; x00; x01; x00; x50].

(** One message: the salt and one chunk, the address header. *)
Definition stream_hello : bytes :=
  toy_salt ++ toy_seal 0 [x00; x07] ++ toy_seal 1 header_ipv4.

(** One message: the salt, a chunk with the address header followed by the
    byte "A", and a chunk with the byte "B". *)
Definition stream_header_A_then_B : bytes :=
  toy_salt ++ toy_seal 0 [x00; x08] ++ toy_seal 1 (header_ipv4 ++ ["A"%byte])
           ++ toy_seal 2 [x00; x01] ++ toy_seal 3 ["B"%byte].

(** One message: the salt and one chunk of four bytes, an IPv4 header cut
    short. *)
Definition stream_short_header : bytes :=
  toy_salt ++ toy_seal 0 [x00; x04] ++ toy_seal 1 [x01; x7f; x00; x00].

(** One message: the salt and one chunk of seven bytes whose ATYP is 5. *)
Definition stream_bad_atyp : bytes :=
  toy_salt ++ toy_seal 0 [x00; x07]
           ++ toy_seal 1 [x05; x7f; x00; x00; x01; x00; x50].

(** One message: the salt and a length frame holding [0xFFFF], resp. 0. *)
Definition stream_length_ffff : bytes := toy_salt ++ toy_seal 0 [xff; xff].
Definition stream_length_zero : bytes := toy_salt ++ toy_seal 0 [x00; x00].

(** The chunk "A" sealed and verified, then the length frame of a second
    chunk with its tag zeroed, then more bytes. *)
Definition stream_good : bytes :=
  toy_salt ++ toy_seal 0 [x00; x01] ++ toy_seal 1 ["A"%byte].
Definition frame_tampered : bytes := [x00; x01] ++ repeat x00 16.



(** ** What is observed of a connection beyond the framers *)

Section Observations.
Context {crypto : Crypto} {util : Util}.

(** The moves of [stage] the handlers can make in one run. *)
Definition stage_next (s s' : Stage) : Prop :=
  match s, s' with
  | CLOSED, (CLOSED | OPENING) => True
  | OPENING, (OPENING | WRITING | OPEN) => True
  | WRITING, (WRITING | OPEN) => True
  | OPEN, (OPEN | WRITING) => True
  | _, _ => False
  end.

(** The payloads on their way to the remote: those already passed to
    [remote.write], then those still queued. *)
Definition relayed (c : Conn) : list bytes :=
  map fst (write_log c) ++ payloads (dec c).

(** What the ['close'] handler of the WebSocket leaves behind. *)
Definition released (c : Conn) : Prop :=
  readyState (ws c) = WS_CLOSED
  /\ rx (dec c) = None /\ decipher (dec c) = None
  /\ tx (enc c) = None /\ cipher (enc c) = None
  /\ forall s, remote c = Some s -> destroyed s = true.

(** A connection that gave up before relaying: out of CLOSED, no connect in
    flight, no remote handlers. *)
Definition abandoned (c : Conn) : Prop :=
  stage c = OPENING /\ awaiting c = None.

(** The number of chunks of at most [0x3fff] bytes in [n] bytes. *)
Definition chunk_count (n : nat) : nat := (n + MAX_PAYLOAD - 1) / MAX_PAYLOAD.

(** A sealed frame is [TAG_SIZE] bytes longer than its plaintext. *)
Definition aead_adds_tag : Prop :=
  forall (a : AEAD) (pt : bytes),
    length (fst (AEAD_encrypt a pt)) = length pt + TAG_SIZE.

(** While the connect is in flight ingress is paused and [to] names the
    target of the connect. *)
Definition connecting_inv (c : Conn) : Prop :=
  forall port addr,
    awaiting c = Some (AwaitConnect port addr) ->
    ws_paused (ws c) = true /\ to c = Some (addr, port).

(** The encryption context between two handler runs, the WebSocket not
    closed: before the handlers are registered [tx] is empty and there is
    no cipher; afterwards there is a cipher, and [tx] is empty or, nothing
    having been sent yet, holds the salt the cipher was made from. *)
Definition enc_inv (c : Conn) : Prop :=
  if handlers c then
    exists a, cipher (enc c) = Some a
      /\ (tx (enc c) = Some []
          \/ (sent (ws c) = []
              /\ exists salt, tx (enc c) = Some [salt]
                              /\ a = AEAD_new (hkdfSync KEY salt)))
  else enc c = mkEnc (Some []) None /\ sent (ws c) = [].

(** The bytes the client has sent: the data of the messages among [es]. *)
Fixpoint ingress (es : list Event) : bytes :=
  match es with
  | [] => []
  | WsMessage data :: es' => data ++ ingress es'
  | _ :: es' => ingress es'
  end.

(** The states of the decipher made from [salt] (lines 97-98): the new
    object, and the state any [decrypt] call leaves it in. *)
Inductive keyed_by (salt : bytes) : AEAD -> Prop :=
| keyed_new : keyed_by salt (AEAD_new (hkdfSync KEY salt))
| keyed_next (a : AEAD) (ct tag : bytes) :
    keyed_by salt a -> keyed_by salt (snd (AEAD_decrypt a ct tag)).

(** [p] is what [decrypt] returned, in a state [K] holds of, for a
    ciphertext and a tag of [TAG_SIZE] bytes that lie side by side in
    [body]. *)
Definition framed (K : AEAD -> Prop) (body p : bytes) : Prop :=
  exists (a a' : AEAD) (ct tag pre post : bytes),
    body = pre ++ ct ++ tag ++ post
    /\ length tag = TAG_SIZE
    /\ K a
    /\ AEAD_decrypt a ct tag = (Some p, a').

(** [stream] starts with a salt of [SALT_SIZE] bytes, and [p] is the
    plaintext of a frame behind it, opened by the decipher made from that
    salt. *)
Definition verified_in (stream p : bytes) : Prop :=
  exists salt body : bytes,
    stream = salt ++ body /\ length salt = SALT_SIZE
    /\ framed (keyed_by salt) body p.

(** [p] is what the [switch] of lines 147-167 leaves of a verified
    plaintext of [stream] that starts with an address header. *)
Definition header_rest (stream p : bytes) : Prop :=
  exists (q : bytes) (addr : string) (port : nat),
    verified_in stream q /\ parse_address q = Address addr port p.

(** The chunks of [l] are verified plaintexts of [stream], each one whole,
    but for one chunk at most, which is what is left of a verified
    plaintext past its address header. *)
Definition authentic (stream : bytes) (l : list bytes) : Prop :=
  Forall (verified_in stream) l
  \/ exists (l1 : list bytes) (r : bytes) (l2 : list bytes),
       l = l1 ++ r :: l2
       /\ Forall (verified_in stream) l1
       /\ header_rest stream r
       /\ Forall (verified_in stream) l2.

(** What lines 146-170 make of the queue [q] they find: the first payload
    is taken off as the address header, and what follows the header in it,
    if anything, is pushed behind the payloads already queued. *)
Definition after_header (q : list bytes) : list bytes :=
  match q with
  | [] => []
  | address :: queued =>
    match parse_address address with
    | Address _ _ ((_ :: _) as rest) => queued ++ [rest]
    | _ => queued
    end
  end.

(** The part of the decryption context the framer alone writes. *)
Definition framer_state (d : DecCtx) :=
  (rx d, decipher d, cipherTextSize d, chunkIndex d).

(** How the decryption context follows the bytes received: without a
    decipher [rx] holds all of them; with one, it was made from their first
    [SALT_SIZE] bytes and [rx] holds their end. *)
Definition framer_tracks (stream : bytes) (d : DecCtx) : Prop :=
  (decipher d = None -> rx d <> None -> pending d = stream)
  /\ (forall a, decipher d = Some a ->
        exists salt pre : bytes,
          stream = salt ++ pre ++ pending d /\ length salt = SALT_SIZE
          /\ keyed_by salt a).

(** [rx] holds less than what the framer waits for: the salt while there is
    no decipher, the next chunk with its tag afterwards. *)
Definition rx_short (d : DecCtx) : Prop :=
  cipherTextSize d < N.to_nat 65536
  /\ (pending d = []
      \/ length (pending d) < match decipher d with
                              | Some _ => cipherTextSize d + TAG_SIZE
                              | None => SALT_SIZE
                              end).

(** What the handler run of the event [e] adds to the log, and when it
    terminates the WebSocket. *)
Inductive Logged (c c' : Conn) (e : Event) : Prop :=
| logged_nothing :
    logs c' = logs c -> terminated (ws c') = terminated (ws c) -> Logged c c' e
| logged_warning (data : bytes) (m : string) :
    e = WsMessage data ->
    m = "invalid password or cipher"%string \/ m = "invalid atyp"%string ->
    logs c' = logs c ++ [(Warn, m)] -> terminated (ws c') = true ->
    Logged c c' e
| logged_rejection (m : string) :
    e = ConnectRejected m ->
    logs c' = logs c ++ [(Error, m)] -> terminated (ws c') = true ->
    Logged c c' e
| logged_remote_error (m : string) :
    e = RemoteError m ->
    logs c' = logs c ++ [(Error, m)] -> terminated (ws c') = terminated (ws c) ->
    Logged c c' e
| logged_remote_close :
    e = RemoteClose ->
    logs c' = logs c -> terminated (ws c') = true -> Logged c c' e.

End Observations.

(** * Properties *)

Unset Implicit Arguments.

(** ** Buffers and sizes *)

Lemma MAX_PAYLOAD_pos : 0 < MAX_PAYLOAD.
Proof. unfold MAX_PAYLOAD. lia. Qed.

Lemma byte_of_nat_some (n : nat) : n < 256 -> exists b, Byte.of_nat n = Some b.
Proof.
  intros Hn. destruct (Byte.of_nat n) as [b|] eqn:E.
  - now exists b.
  - apply Byte.of_nat_None_iff in E. lia.
Qed.

Lemma writeUInt16BE_uint16be (n : nat) :
  n < N.to_nat 65536 -> writeUInt16BE n = Some (uint16be n).
Proof.
  intros Hn. unfold writeUInt16BE, uint16be.
  destruct (byte_of_nat_some (n / 256)) as [hi Hhi].
  { apply Nat.Div0.div_lt_upper_bound. lia. }
  destruct (byte_of_nat_some (n mod 256)) as [lo Hlo].
  { apply Nat.mod_upper_bound. lia. }
  now rewrite Hhi, Hlo.
Qed.

Lemma readUInt16BE_uint16be (n : nat) :
  n < N.to_nat 65536 -> readUInt16BE (uint16be n) 0 = Some n.
Proof.
  intros Hn. unfold uint16be.
  destruct (byte_of_nat_some (n / 256)) as [hi Hhi].
  { apply Nat.Div0.div_lt_upper_bound. lia. }
  destruct (byte_of_nat_some (n mod 256)) as [lo Hlo].
  { apply Nat.mod_upper_bound. lia. }
  rewrite Hhi, Hlo. unfold readUInt16BE. cbn [nth_error].
  rewrite (Byte.to_of_nat _ Hhi), (Byte.to_of_nat _ Hlo).
  f_equal. rewrite (Nat.div_mod_eq n 256) at 3. lia.
Qed.

Lemma uint16be_length (n : nat) : n < N.to_nat 65536 -> length (uint16be n) = 2.
Proof.
  intros Hn. unfold uint16be.
  destruct (byte_of_nat_some (n / 256)) as [hi Hhi].
  { apply Nat.Div0.div_lt_upper_bound. lia. }
  destruct (byte_of_nat_some (n mod 256)) as [lo Hlo].
  { apply Nat.mod_upper_bound. lia. }
  now rewrite Hhi, Hlo.
Qed.

Lemma subarray_0 (b : bytes) (n : nat) : subarray b 0 n = firstn n b.
Proof. unfold subarray. now rewrite Nat.sub_0_r. Qed.

Lemma firstn_MAX_length (data : bytes) : length (firstn MAX_PAYLOAD data) <= MAX_PAYLOAD.
Proof. rewrite length_firstn. lia. Qed.

(** ** The outbound framer *)

Section Outbound.
Context {crypto : Crypto}.

Lemma split_every_concat (fuel : nat) (data : bytes) :
  length data <= fuel -> concat (split_every fuel data) = data.
Proof.
  revert data. induction fuel as [|fuel IH]; intros data Hlen.
  - destruct data; [reflexivity | cbn in Hlen; lia].
  - destruct data as [|b data]; [reflexivity|].
    cbn [split_every concat].
    rewrite IH.
    + apply firstn_skipn.
    + rewrite length_skipn. pose proof MAX_PAYLOAD_pos. cbn [length] in *. lia.
Qed.

Lemma split_every_bounds (fuel : nat) (data : bytes) :
  Forall (fun c => 1 <= length c <= MAX_PAYLOAD) (split_every fuel data).
Proof.
  revert data. induction fuel as [|fuel IH]; intros data.
  - destruct data; constructor.
  - destruct data as [|b data]; [constructor|].
    cbn [split_every]. constructor; [|apply IH].
    rewrite length_firstn. pose proof MAX_PAYLOAD_pos. cbn [length]. lia.
Qed.

(** The loop of lines 198-205 pushes the frames of the specification. *)
Lemma encrypt_chunks_frames (fuel : nat) (data : bytes) (t : list bytes) (a : AEAD) :
  length data <= fuel ->
  encrypt_chunks fuel (mkEnc (Some t) (Some a)) data =
  (Proceed,
   mkEnc (Some (t ++ fst (spec_frames a (split_every fuel data))))
         (Some (snd (spec_frames a (split_every fuel data))))).
Proof.
  revert data t a. induction fuel as [|fuel IH]; intros data t a Hlen.
  - destruct data; [|cbn in Hlen; lia]. cbn. now rewrite app_nil_r.
  - destruct data as [|b data]; [cbn; now rewrite app_nil_r|].
    cbn [encrypt_chunks split_every spec_frames tx cipher].
    rewrite subarray_0.
    set (payload := firstn MAX_PAYLOAD (b :: data)).
    rewrite writeUInt16BE_uint16be.
    2:{ pose proof (firstn_MAX_length (b :: data)). fold payload in H.
        unfold MAX_PAYLOAD in H. lia. }
    destruct (AEAD_encrypt a (uint16be (length payload))) as [frame1 a1].
    destruct (AEAD_encrypt a1 payload) as [frame2 a2].
    rewrite IH.
    2:{ rewrite length_skipn. pose proof MAX_PAYLOAD_pos. cbn [length] in *. lia. }
    destruct (spec_frames a2 (split_every fuel (skipn MAX_PAYLOAD (b :: data))))
      as [frames a'].
    cbn [fst snd]. now rewrite <- !app_assoc.
Qed.

(** C10.  For every buffer [data] the [remote.on('data')] loop is given,
    with [tx] and [cipher] set: the loop ends normally, having pushed onto
    [tx] exactly the frames [encrypt(uint16be(|c|)), encrypt(c)] of the
    chunks [c] of [spec_chunks data]; the chunks concatenate to [data] (no
    byte dropped or duplicated); every chunk has between 1 and [0x3FFF]
    bytes, and its length is written as a 16-bit big-endian value that
    reads back as that length. *)
Theorem C10_chunks_nonempty_and_exact (t : list bytes) (a : AEAD) (data : bytes) :
  encrypt_chunks (length data) (mkEnc (Some t) (Some a)) data =
  (Proceed,
   mkEnc (Some (t ++ fst (spec_frames a (spec_chunks data))))
         (Some (snd (spec_frames a (spec_chunks data)))))
  /\ concat (spec_chunks data) = data
  /\ Forall (fun c =>
               1 <= length c <= MAX_PAYLOAD
               /\ writeUInt16BE (length c) = Some (uint16be (length c))
               /\ readUInt16BE (uint16be (length c)) 0 = Some (length c))
            (spec_chunks data).
Proof.
  unfold spec_chunks. split; [|split].
  - now apply encrypt_chunks_frames.
  - now apply split_every_concat.
  - eapply Forall_impl; [|apply split_every_bounds].
    intros c Hc. cbn beta in Hc. split; [exact Hc|].
    assert (length c < N.to_nat 65536) by (unfold MAX_PAYLOAD in Hc; lia).
    split; [now apply writeUInt16BE_uint16be | now apply readUInt16BE_uint16be].
Qed.

End Outbound.

(** ** The relay state machine *)

Section Relay.
Context {crypto : Crypto} {util : Util}.

(** What a run of the drain loop does, up to its end or its first [await]:
    it writes the queued payloads in order; it either empties the queue with
    every write accepted and reaches OPEN, or stops right after the first
    refused write with ingress paused, parked on ['drain']. *)
Lemma drain_from_facts (ps : list bytes) (c : Conn) (s : Socket) :
  remote c = Some s ->
  payloads (dec c) = ps ->
  enc (drain_from ps c) = enc c
  /\ handlers (drain_from ps c) = handlers c
  /\ readyState (ws (drain_from ps c)) = readyState (ws c)
  /\ sent (ws (drain_from ps c)) = sent (ws c)
  /\ terminated (ws (drain_from ps c)) = terminated (ws c)
  /\ exists s',
      remote (drain_from ps c) = Some s'
      /\ destroyed s' = destroyed s
      /\ ((stage (drain_from ps c) = OPEN
           /\ awaiting (drain_from ps c) = awaiting c
           /\ ws_paused (ws (drain_from ps c)) = ws_paused (ws c)
           /\ payloads (dec (drain_from ps c)) = []
           /\ writes s' = writes s ++ map (fun p => (p, true)) ps)
          \/ (stage (drain_from ps c) = stage c
              /\ awaiting (drain_from ps c) = Some AwaitDrain
              /\ ws_paused (ws (drain_from ps c)) = true
              /\ exists ps1 p ps2,
                  ps = ps1 ++ p :: ps2
                  /\ payloads (dec (drain_from ps c)) = ps2
                  /\ writes s' = writes s ++ map (fun p => (p, true)) ps1 ++ [(p, false)])).
Proof.
  revert c s. induction ps as [|p ps IH]; intros c s Hr Hp.
  - cbn. repeat split. exists s. split; [exact Hr|]. split; [reflexivity|].
    left. rewrite app_nil_r. auto.
  - cbn [drain_from]. rewrite Hr. unfold sock_write.
    destruct (hd true (accepts s)) eqn:Hok.
    + match goal with |- context [drain_from ps ?c1] => set (c1' := c1) end.
      specialize (IH c1' _ eq_refl eq_refl).
      destruct IH as (He & Hh & Hrs & Hs & Ht & s' & Hr' & Hd & Hcase).
      repeat split; try assumption.
      exists s'. split; [exact Hr'|]. split; [exact Hd|].
      destruct Hcase as [(H1 & H2 & H3 & H4 & H5) | (H1 & H2 & H3 & ps1 & q & ps2 & H4 & H5 & H6)].
      * left. repeat split; try assumption.
        rewrite H5. cbn. now rewrite <- app_assoc.
      * right. repeat split; try assumption.
        exists (p :: ps1), q, ps2. split; [now rewrite H4|]. split; [exact H5|].
        rewrite H6. cbn. now rewrite <- app_assoc.
    + cbn. repeat split. eexists. split; [reflexivity|]. split; [reflexivity|].
      right. repeat split. exists [], p, ps. cbn. auto.
Qed.

Lemma with_dec_inv (d : DecCtx) (c : Conn) : conn_inv c -> conn_inv (with_dec d c).
Proof. intros H. exact H. Qed.

Lemma drain_inv (c : Conn) :
  remote c <> None -> handlers c = true -> awaiting c = None -> stage c = WRITING ->
  conn_inv (drain c).
Proof.
  intros Hr Hh Ha Hs. destruct (remote c) as [s|] eqn:Er; [|congruence].
  destruct (drain_from_facts (payloads (dec c)) c s Er eq_refl)
    as (_ & Hh' & _ & _ & _ & s' & Hr' & _ & Hcase).
  unfold drain. split.
  - unfold stage_inv.
    destruct Hcase as [(H1 & H2 & _) | (H1 & H2 & H3 & _)].
    + rewrite H1, H2, Hr', Hh'. repeat split; congruence.
    + rewrite H1, Hs, H2, H3, Hr', Hh'. repeat split; congruence.
  - unfold outbound_inv. rewrite Hh'. congruence.
Qed.

Lemma consume_inv (c : Conn) : conn_inv c -> conn_inv (consume c).
Proof.
  intros Hinv. unfold consume.
  destruct (payloads (dec c)) as [|address queued] eqn:Ep; [exact Hinv|].
  destruct (stage c) eqn:Es; try exact Hinv.
  - (* CLOSED *)
    destruct Hinv as [Hst Hout]. unfold stage_inv in Hst. rewrite Es in Hst.
    destruct Hst as (Ha & Hr & Hh). specialize (Hout Hh). destruct Hout as [Hsent Htx].
    destruct (parse_address address) as [addr port rest| |f].
    + destruct rest; (split; [unfold stage_inv; cbn; auto
                             | unfold outbound_inv; cbn; auto]).
    + split; [unfold stage_inv; cbn; rewrite Ha, Hr; split; [auto|congruence]
             | unfold outbound_inv; cbn; intros _; split; [auto|]].
      destruct (readyState (ws c)); congruence.
    + split; [unfold stage_inv; cbn; rewrite Ha, Hr; split; [auto|congruence]
             | unfold outbound_inv; cbn; auto].
  - (* OPEN *)
    destruct Hinv as [Hst _]. unfold stage_inv in Hst. rewrite Es in Hst.
    destruct Hst as (Ha & Hr & Hh).
    apply drain_inv; cbn; auto.
Qed.

Lemma on_message_inv (c : Conn) (data : bytes) : conn_inv c -> conn_inv (on_message c data).
Proof.
  intros Hinv. unfold on_message.
  destruct (feed (dec c) data) as [[| | |f] d].
  - apply consume_inv. exact Hinv.
  - exact Hinv.
  - destruct Hinv as [Hst Hout]. split.
    + unfold stage_inv in *. cbn.
      destruct (stage c); auto.
      destruct Hst as [Hh Hst]. split; [exact Hh|].
      destruct (awaiting c) as [[|]|]; auto.
      intros s Hs. destruct (Hst s Hs) as [Hd Hrs]. split; [exact Hd|].
      destruct (readyState (ws c)); congruence.
    + unfold outbound_inv in *. cbn. intros Hh. destruct (Hout Hh) as [H1 H2].
      split; [exact H1|]. destruct (readyState (ws c)); congruence.
  - exact Hinv.
Qed.

Lemma ws_terminate_inv (c : Conn) : conn_inv c -> conn_inv (ws_terminate c).
Proof.
  intros [Hst Hout]. split.
  - unfold stage_inv in *. cbn.
    destruct (stage c); auto.
    destruct Hst as [Hh Hst]. split; [exact Hh|].
    destruct (awaiting c) as [[|]|]; auto.
    intros s Hs. destruct (Hst s Hs) as [Hd Hrs]. split; [exact Hd|].
    destruct (readyState (ws c)); congruence.
  - unfold outbound_inv in *. cbn. intros Hh. destruct (Hout Hh) as [H1 H2].
    split; [exact H1|]. destruct (readyState (ws c)); congruence.
Qed.

Lemma on_remote_inv (f : Socket -> Socket) (c : Conn) :
  (forall s, destroyed (f s) = destroyed s) ->
  conn_inv c -> conn_inv (on_remote f c).
Proof.
  intros Hf Hinv. unfold on_remote.
  destruct (remote c) as [s|] eqn:Er; [|exact Hinv].
  destruct Hinv as [Hst Hout]. split; [|exact Hout].
  unfold stage_inv in *. cbn.
  destruct (stage c).
  - destruct Hst as (_ & Hr & _). congruence.
  - destruct Hst as [Hh Hst]. split; [exact Hh|].
    destruct (awaiting c) as [[|]|]; [congruence|auto|].
    intros s0 Hs0. injection Hs0 as <-. rewrite Hf. now apply Hst.
  - destruct Hst as (Ha & _ & Hh). repeat split; congruence.
  - destruct Hst as (Ha & Hp & _ & Hh). repeat split; congruence.
Qed.

Lemma on_remote_data_inv (c : Conn) (data : bytes) :
  handlers c = true -> conn_inv c -> conn_inv (on_remote_data c data).
Proof.
  intros Hh Hinv.
  assert (Hgen : forall e, conn_inv (with_enc e c)).
  { intros e. destruct Hinv as [Hst Hout]. split; [exact Hst|].
    unfold outbound_inv. cbn. congruence. }
  unfold on_remote_data.
  destruct (encrypt_chunks (length data) (enc c) data) as [[| | |f] e];
    try apply Hgen.
  cbn [remote with_enc].
  destruct (remote c) as [s|] eqn:Er; [|apply Hgen].
  assert (Hp : conn_inv (with_remote (Some (sock_set_paused true s)) (with_enc e c))).
  { specialize (Hgen e).
    apply (on_remote_inv (sock_set_paused true)) in Hgen; [|reflexivity].
    unfold on_remote in Hgen. cbn [remote with_enc] in Hgen. now rewrite Er in Hgen. }
  destruct (tx e); [|exact Hp].
  destruct Hp as [Hst Hout]. split; [exact Hst|].
  unfold outbound_inv. cbn. congruence.
Qed.

Lemma on_ws_close_inv (c : Conn) :
  readyState (ws c) = WS_CLOSED -> conn_inv c -> conn_inv (on_ws_close c).
Proof.
  intros Hrs [Hst Hout]. unfold on_ws_close. split.
  - unfold stage_inv in *.
    destruct (remote c) as [s|] eqn:Er; [destruct (destroyed s) eqn:Ed|];
      cbn; rewrite ?Er; destruct (stage c); intuition (try congruence);
      destruct (awaiting c) as [[|]|]; intuition (try congruence).
    injection H1 as <-. reflexivity.
  - unfold outbound_inv in *.
    destruct (remote c) as [s|]; [destruct (destroyed s)|]; cbn;
      intros Hh; destruct (Hout Hh) as [H1 _]; (split; [exact H1|congruence]).
Qed.

Lemma connect_resolved_open (answers : list bool) (salt : bytes) (c : Conn) (t : list bytes) :
  readyState (ws c) = WS_OPEN -> tx (enc c) = Some t ->
  connect_resolved answers salt c =
  drain (with_stage WRITING (with_handlers true
    (with_enc (mkEnc (Some (t ++ [salt])) (Some (AEAD_new (hkdfSync KEY salt))))
       (ws_resume (with_remote (Some (new_socket answers)) (with_awaiting None c)))))).
Proof.
  intros Hrs Htx. unfold connect_resolved.
  change (readyState (ws (ws_resume (with_remote (Some (new_socket answers))
            (with_awaiting None c))))) with (readyState (ws c)).
  rewrite Hrs.
  change (tx (enc (ws_resume (with_remote (Some (new_socket answers))
            (with_awaiting None c))))) with (tx (enc c)).
  now rewrite Htx.
Qed.

Lemma connect_resolved_not_open (answers : list bool) (salt : bytes) (c : Conn) :
  readyState (ws c) <> WS_OPEN ->
  connect_resolved answers salt c =
  with_remote (Some (sock_destroy (new_socket answers)))
    (ws_resume (with_remote (Some (new_socket answers)) (with_awaiting None c))).
Proof.
  intros Hrs. unfold connect_resolved.
  change (readyState (ws (ws_resume (with_remote (Some (new_socket answers))
            (with_awaiting None c))))) with (readyState (ws c)).
  destruct (readyState (ws c)); [congruence| |]; reflexivity.
Qed.

Lemma connect_resolved_inv (answers : list bool) (salt : bytes) (c : Conn) port addr :
  awaiting c = Some (AwaitConnect port addr) ->
  conn_inv c -> conn_inv (connect_resolved answers salt c).
Proof.
  intros Ha [Hst Hout]. unfold stage_inv in Hst. rewrite Ha in Hst.
  destruct (stage c) eqn:Es; try (destruct Hst as [Hst _]; congruence).
  destruct Hst as [Hh Hr]. specialize (Hout Hh). destruct Hout as [Hsent Htx].
  destruct (readyState (ws c)) eqn:Ers.
  - rewrite (connect_resolved_open _ _ _ [] Ers (Htx eq_refl)).
    apply drain_inv; cbn; congruence.
  - rewrite connect_resolved_not_open by congruence.
    split; [unfold stage_inv; cbn; rewrite Es; cbn | unfold outbound_inv; cbn].
    + split; [exact Hh|]. intros s Hs. injection Hs as <-. cbn. split; congruence.
    + intros _. split; [exact Hsent|congruence].
  - rewrite connect_resolved_not_open by congruence.
    split; [unfold stage_inv; cbn; rewrite Es; cbn | unfold outbound_inv; cbn].
    + split; [exact Hh|]. intros s Hs. injection Hs as <-. cbn. split; congruence.
    + intros _. split; [exact Hsent|congruence].
Qed.

Lemma connect_rejected_inv (msg : string) (c : Conn) port addr :
  awaiting c = Some (AwaitConnect port addr) ->
  conn_inv c -> conn_inv (connect_rejected msg c).
Proof.
  intros Ha [Hst Hout]. unfold stage_inv in Hst. rewrite Ha in Hst.
  destruct (stage c) eqn:Es; try (destruct Hst as [Hst _]; congruence).
  destruct Hst as [Hh Hr]. unfold connect_rejected.
  apply ws_terminate_inv. split.
  - unfold stage_inv. cbn. rewrite Es. split; [exact Hh|]. congruence.
  - exact Hout.
Qed.

Lemma drain_resumed_inv (c : Conn) :
  awaiting c = Some AwaitDrain -> conn_inv c -> conn_inv (drain_resumed c).
Proof.
  intros Ha [Hst Hout]. unfold stage_inv in Hst. rewrite Ha in Hst.
  destruct (stage c) eqn:Es; try (destruct Hst as [Hst ?]; try congruence; tauto).
  destruct Hst as (_ & _ & Hr & Hh).
  unfold drain_resumed. apply drain_inv; cbn; auto.
Qed.

(** Every handler run keeps the invariant. *)
Lemma step_inv (c : Conn) (e : Event) : conn_inv c -> conn_inv (step c e).
Proof.
  intros Hinv. destruct e; cbn [step].
  - now apply on_message_inv.
  - apply on_ws_close_inv; [reflexivity|].
    destruct Hinv as [Hst Hout]. split.
    + unfold stage_inv in *. cbn. destruct (stage c); auto.
      destruct Hst as [Hh Hst]. split; [exact Hh|].
      destruct (awaiting c) as [[|]|]; auto.
      intros s Hs. destruct (Hst s Hs). split; congruence.
    + unfold outbound_inv in *. cbn. intros Hh. destruct (Hout Hh). split; congruence.
  - destruct (handlers c); [|exact Hinv]. now apply on_remote_inv.
  - destruct (awaiting c) as [[port addr|]|] eqn:Ea; try exact Hinv.
    now apply (connect_resolved_inv _ _ _ port addr).
  - destruct (awaiting c) as [[port addr|]|] eqn:Ea; try exact Hinv.
    now apply (connect_rejected_inv _ _ port addr).
  - destruct (handlers c) eqn:Hh; [|exact Hinv]. now apply on_remote_data_inv.
  - destruct (awaiting c) as [[port addr|]|] eqn:Ea; try exact Hinv.
    now apply drain_resumed_inv.
  - destruct (handlers c); exact Hinv.
  - destruct (handlers c); [|exact Hinv]. now apply on_remote_inv.
  - destruct (handlers c); [|exact Hinv]. unfold on_remote_close.
    destruct (readyState (ws c)); try exact Hinv. now apply ws_terminate_inv.
Qed.

Lemma init_conn_inv : conn_inv init_conn.
Proof. split; [cbn; auto | unfold outbound_inv; cbn; auto]. Qed.

Lemma run_app (c : Conn) (es1 es2 : list Event) :
  run c (es1 ++ es2) = run (run c es1) es2.
Proof. unfold run. apply fold_left_app. Qed.

Lemma run_inv (c : Conn) (es : list Event) : conn_inv c -> conn_inv (run c es).
Proof.
  revert c. induction es as [|e es IH]; intros c Hinv; [exact Hinv|].
  cbn. apply IH. now apply step_inv.
Qed.

(** C9 (as amended).  In every state a connection reaches between two
    handler runs: when the stage is OPEN or WRITING the remote socket
    reference is non-null; and when the reference is non-null, either the
    stage is OPEN or WRITING, or the WebSocket closed while the connect was
    in flight, the stage is still OPENING and the reference is the socket
    the handler has destroyed. *)
Theorem C9_remote_and_stage (es : list Event) :
  let c := run init_conn es in
  ((stage c = OPEN \/ stage c = WRITING) -> remote c <> None)
  /\ (forall s, remote c = Some s ->
                 stage c = OPEN \/ stage c = WRITING
                 \/ (stage c = OPENING /\ destroyed s = true
                     /\ readyState (ws c) <> WS_OPEN)).
Proof.
  intros c. destruct (run_inv init_conn es init_conn_inv) as [Hst _].
  fold c in Hst. unfold stage_inv in Hst. split.
  - intros [Hs|Hs]; rewrite Hs in Hst; tauto.
  - intros s Hs. destruct (stage c) eqn:Es; auto.
    + destruct Hst as (_ & Hr & _). congruence.
    + right. right. destruct Hst as [_ Hst].
      destruct (awaiting c) as [[|]|]; [congruence|tauto|].
      destruct (Hst s Hs). auto.
Qed.

(** *** Backpressure towards the client *)

Lemma refusal_pauses_nil (c' : Conn) : refusal_pauses [] c'.
Proof. intros p []. Qed.

Lemma drain_writes (c : Conn) (s : Socket) :
  remote c = Some s ->
  exists new, write_log (drain c) = writes s ++ new /\ refusal_pauses new (drain c).
Proof.
  intros Hr. unfold drain, write_log.
  destruct (drain_from_facts (payloads (dec c)) c s Hr eq_refl)
    as (_ & _ & _ & _ & _ & s' & Hr' & _ & Hcase).
  rewrite Hr'.
  destruct Hcase as [(_ & _ & _ & _ & Hw) | (_ & Ha & Hp & ps1 & p & ps2 & _ & _ & Hw)].
  - eexists. split; [exact Hw|]. intros p Hin.
    apply in_map_iff in Hin. destruct Hin as (q & Hq & _). discriminate.
  - eexists. split; [exact Hw|]. intros q Hin. apply in_app_or in Hin.
    destruct Hin as [Hin|[Hin|[]]].
    + apply in_map_iff in Hin. destruct Hin as (q' & Hq & _). discriminate.
    + injection Hin as <-. split; [|split; assumption]. eexists. reflexivity.
Qed.

Lemma consume_writes (c : Conn) :
  conn_inv c ->
  (exists new, write_log (consume c) = write_log c ++ new
               /\ refusal_pauses new (consume c))
  /\ (awaiting c = Some AwaitDrain -> consume c = c).
Proof.
  intros [Hst _]. unfold stage_inv in Hst.
  assert (Hquiet : forall c', write_log c' = write_log c ->
            exists new, write_log c' = write_log c ++ new /\ refusal_pauses new c').
  { intros c' H. exists []. rewrite app_nil_r. split; [exact H|apply refusal_pauses_nil]. }
  unfold consume.
  destruct (payloads (dec c)) as [|address queued]; [split; auto|].
  destruct (stage c) eqn:Es; try (split; [apply Hquiet|]; reflexivity).
  - destruct Hst as (Ha & _ & _). split; [|congruence].
    destruct (parse_address address) as [addr port [|b rest]| |f]; apply Hquiet; reflexivity.
  - destruct Hst as (Ha & Hr & _). split; [|congruence].
    destruct (remote c) as [s|] eqn:Er; [|congruence].
    destruct (drain_writes (with_stage WRITING c) s Er) as (new & Hw & Hp).
    exists new. split; [|exact Hp]. unfold write_log at 2. now rewrite Er.
Qed.

Lemma on_message_writes (c : Conn) (data : bytes) :
  conn_inv c ->
  (exists new, write_log (on_message c data) = write_log c ++ new
               /\ refusal_pauses new (on_message c data))
  /\ (awaiting c = Some AwaitDrain ->
      write_log (on_message c data) = write_log c
      /\ awaiting (on_message c data) = Some AwaitDrain
      /\ ws_paused (ws (on_message c data)) = ws_paused (ws c)).
Proof.
  intros Hinv. unfold on_message.
  assert (Hquiet : forall c', write_log c' = write_log c ->
            exists new, write_log c' = write_log c ++ new /\ refusal_pauses new c').
  { intros c' H. exists []. rewrite app_nil_r. split; [exact H|apply refusal_pauses_nil]. }
  destruct (feed (dec c) data) as [[| | |f] d];
    try (split; [apply Hquiet; reflexivity | intros Ha; cbn; auto]).
  destruct (consume_writes (with_dec d c) (with_dec_inv d c Hinv)) as [H1 H2].
  split; [exact H1|]. intros Ha. rewrite (H2 Ha). cbn. auto.
Qed.

Lemma on_ws_close_quiet (c : Conn) : quiet c (on_ws_close c).
Proof.
  unfold quiet, on_ws_close, write_log.
  destruct (remote c) as [s|] eqn:Er; [destruct (destroyed s)|]; cbn;
    rewrite ?Er; auto.
Qed.

Lemma on_remote_quiet (f : Socket -> Socket) (c : Conn) :
  (forall s, writes (f s) = writes s) -> quiet c (on_remote f c).
Proof.
  intros Hf. unfold quiet, on_remote, write_log.
  destruct (remote c) as [s|] eqn:Er; cbn; rewrite ?Er, ?Hf; auto.
Qed.

Lemma ws_terminate_quiet (c : Conn) : quiet c (ws_terminate c).
Proof. repeat split. Qed.

Lemma on_remote_data_quiet (c : Conn) (data : bytes) : quiet c (on_remote_data c data).
Proof.
  unfold on_remote_data.
  destruct (encrypt_chunks (length data) (enc c) data) as [[| | |f] en];
    try (repeat split; fail).
  change (remote (with_enc en c)) with (remote c).
  destruct (remote c) as [s|] eqn:Er; [|unfold quiet, write_log; cbn; now rewrite Er].
  destruct (tx en); unfold quiet, write_log; cbn; now rewrite Er.
Qed.

(** A write that returned [false] is the last of its run and leaves
    ingress paused and the handler parked; while a handler is parked, every
    event other than the drain signal leaves things so, with no write. *)
Lemma refused_write_pauses (es : list Event) (e : Event) :
  let c := run init_conn es in
  let c' := step c e in
  exists new,
    write_log c' = write_log c ++ new
    /\ (forall p, In (p, false) new ->
                  (exists accepted, new = accepted ++ [(p, false)])
                  /\ ws_paused (ws c') = true
                  /\ awaiting c' = Some AwaitDrain)
    /\ (awaiting c = Some AwaitDrain ->
        ws_paused (ws c) = true
        /\ (e <> RemoteDrain ->
            new = [] /\ awaiting c' = Some AwaitDrain /\ ws_paused (ws c') = true)).
Proof.
  intros c c'. pose proof (run_inv init_conn es init_conn_inv) as Hinv. fold c in Hinv.
  assert (Hparked : awaiting c = Some AwaitDrain -> ws_paused (ws c) = true).
  { intros Ha. destruct Hinv as [Hst _]. unfold stage_inv in Hst. rewrite Ha in Hst.
    destruct (stage c); intuition congruence. }
  assert (Hquiet : write_log c' = write_log c -> awaiting c' = awaiting c ->
                   ws_paused (ws c') = ws_paused (ws c) ->
                   exists new,
                     write_log c' = write_log c ++ new
                     /\ refusal_pauses new c'
                     /\ (awaiting c = Some AwaitDrain ->
                         ws_paused (ws c) = true
                         /\ (e <> RemoteDrain ->
                             new = [] /\ awaiting c' = Some AwaitDrain
                             /\ ws_paused (ws c') = true))).
  { intros H1 H2 H3. exists []. rewrite app_nil_r. split; [exact H1|].
    split; [apply refusal_pauses_nil|]. intros Ha. split; [auto|]. intros _.
    rewrite H2, H3. auto. }
  assert (Hother : forall new, write_log c' = write_log c ++ new ->
                   refusal_pauses new c' ->
                   (awaiting c = Some AwaitDrain -> e = RemoteDrain) ->
                   exists new,
                     write_log c' = write_log c ++ new
                     /\ refusal_pauses new c'
                     /\ (awaiting c = Some AwaitDrain ->
                         ws_paused (ws c) = true
                         /\ (e <> RemoteDrain ->
                             new = [] /\ awaiting c' = Some AwaitDrain
                             /\ ws_paused (ws c') = true))).
  { intros new H1 H2 H3. exists new. split; [exact H1|]. split; [exact H2|].
    intros Ha. split; [auto|]. intros Hne. destruct (Hne (H3 Ha)). }
  assert (Hq : quiet c c' ->
               exists new,
                 write_log c' = write_log c ++ new
                 /\ refusal_pauses new c'
                 /\ (awaiting c = Some AwaitDrain ->
                     ws_paused (ws c) = true
                     /\ (e <> RemoteDrain ->
                         new = [] /\ awaiting c' = Some AwaitDrain
                         /\ ws_paused (ws c') = true))).
  { intros (H1 & H2 & H3). now apply Hquiet. }
  assert (Hrefl : quiet c c) by (repeat split).
  clear Hquiet. subst c'. clearbody c. destruct e; cbn [step] in *.
  - destruct (on_message_writes c data Hinv) as [(new & H1 & H2) H3].
    exists new. split; [exact H1|]. split; [exact H2|]. intros Ha.
    split; [auto|]. intros _. destruct (H3 Ha) as (H4 & H5 & H6).
    rewrite H1 in H4. split; [|split; [exact H5|rewrite H6; auto]].
    apply (f_equal (@length _)) in H4. rewrite length_app in H4.
    destruct new; [reflexivity|cbn in H4; lia].
  - apply Hq.
    match goal with |- quiet _ (on_ws_close ?x) => exact (on_ws_close_quiet x) end.
  - apply Hq. destruct (handlers c); [|exact Hrefl]. now apply on_remote_quiet.
  - destruct (awaiting c) as [[port addr|]|] eqn:Ea; try (apply Hq; exact Hrefl).
    assert (Hr : remote c = None).
    { destruct Hinv as [Hst _]. unfold stage_inv in Hst. rewrite Ea in Hst.
      destruct (stage c); intuition congruence. }
    destruct (readyState (ws c)) eqn:Ers.
    + destruct Hinv as [Hst Hout]. unfold stage_inv in Hst. rewrite Ea in Hst.
      assert (Hh : handlers c = false) by (destruct (stage c); intuition congruence).
      destruct (Hout Hh) as [_ Htx].
      pose proof (connect_resolved_open answers salt c [] Ers (Htx Ers)) as Heq.
      match type of Heq with
      | _ = drain ?x =>
        destruct (drain_writes x (new_socket answers) eq_refl) as (new & H1 & H2)
      end.
      apply (Hother new); [|rewrite Heq; exact H2|congruence].
      rewrite Heq. unfold write_log at 2. rewrite Hr. exact H1.
    + apply (Hother []); [|apply refusal_pauses_nil|congruence].
      rewrite connect_resolved_not_open by congruence.
      unfold write_log. rewrite Hr. reflexivity.
    + apply (Hother []); [|apply refusal_pauses_nil|congruence].
      rewrite connect_resolved_not_open by congruence.
      unfold write_log. rewrite Hr. reflexivity.
  - destruct (awaiting c) as [[port addr|]|] eqn:Ea; try (apply Hq; exact Hrefl).
    apply (Hother []); [|apply refusal_pauses_nil|congruence].
    rewrite app_nil_r. reflexivity.
  - apply Hq. destruct (handlers c); [|exact Hrefl]. apply on_remote_data_quiet.
  - destruct (awaiting c) as [[port addr|]|] eqn:Ea; try (apply Hq; exact Hrefl).
    assert (Hr : remote c <> None).
    { destruct Hinv as [Hst _]. unfold stage_inv in Hst. rewrite Ea in Hst.
      destruct (stage c); intuition congruence. }
    destruct (remote c) as [s|] eqn:Er; [|congruence].
    unfold drain_resumed.
    match goal with
    | |- context [drain ?x] => destruct (drain_writes x s Er) as (new & H1 & H2)
    end.
    apply (Hother new); [|exact H2|reflexivity].
    unfold write_log at 2. rewrite Er. exact H1.
  - apply Hq. destruct (handlers c); repeat split.
  - apply Hq. destruct (handlers c); [|exact Hrefl]. now apply on_remote_quiet.
  - apply Hq. destruct (handlers c); [|exact Hrefl]. unfold on_remote_close.
    destruct (readyState (ws c)); [apply ws_terminate_quiet | exact Hrefl ..].
Qed.

(** Lines 227-231: when ['drain'] fires for a parked handler, ingress is
    resumed and the loop goes on with what is queued; either every payload
    is written and accepted, and ingress stays resumed, or a write is
    refused again, and ingress is paused again. *)
Lemma drain_resumed_writes (c : Conn) (s : Socket) :
  remote c = Some s ->
  (write_log (drain_resumed c)
   = write_log c ++ map (fun p => (p, true)) (payloads (dec c))
   /\ payloads (dec (drain_resumed c)) = []
   /\ awaiting (drain_resumed c) = None
   /\ ws_paused (ws (drain_resumed c)) = false
   /\ stage (drain_resumed c) = OPEN)
  \/ (exists ps1 p ps2,
        payloads (dec c) = ps1 ++ p :: ps2
        /\ write_log (drain_resumed c)
           = write_log c ++ map (fun p => (p, true)) ps1 ++ [(p, false)]
        /\ payloads (dec (drain_resumed c)) = ps2
        /\ awaiting (drain_resumed c) = Some AwaitDrain
        /\ ws_paused (ws (drain_resumed c)) = true).
Proof.
  intros Er. unfold drain_resumed, drain, write_log.
  destruct (drain_from_facts (payloads (dec (ws_resume (with_awaiting None c))))
              (ws_resume (with_awaiting None c)) s Er eq_refl)
    as (_ & _ & _ & _ & _ & s' & Hr' & _ & Hcase).
  rewrite Hr', Er.
  destruct Hcase as [(Hs & Ha & Hp & Hq & Hw)
                    | (_ & Ha & Hp & ps1 & p & ps2 & Hps & Hq & Hw)].
  - left. repeat split; assumption.
  - right. exists ps1, p, ps2. repeat split; assumption.
Qed.

(** C8.  For every state [c] a connection reaches and every event [e], let
    [new] be the [remote.write] calls the handler run of [e] makes.  A call
    in [new] that returned [false] ("must wait") is the last call of the
    run, and the run ends with WebSocket ingress paused and the handler
    parked on the ['drain'] signal - so ingress is paused before any
    further message is handled.  While a handler is parked on ['drain'],
    ingress is paused, and every event other than the drain signal leaves
    it paused and the handler parked, with no write made.  The drain signal
    resumes ingress: the parked handler goes on with the queue, and either
    writes all of it, every write accepted, and ends with ingress resumed
    and nothing awaited, or meets a refused write again and ends as
    before, ingress paused and the handler parked. *)
Theorem C8_refused_write_pauses_ingress (es : list Event) (e : Event) :
  let c := run init_conn es in
  let c' := step c e in
  exists new,
    write_log c' = write_log c ++ new
    /\ (forall p, In (p, false) new ->
                  (exists accepted, new = accepted ++ [(p, false)])
                  /\ ws_paused (ws c') = true
                  /\ awaiting c' = Some AwaitDrain)
    /\ (awaiting c = Some AwaitDrain ->
        ws_paused (ws c) = true
        /\ (e <> RemoteDrain ->
            new = [] /\ awaiting c' = Some AwaitDrain /\ ws_paused (ws c') = true)
        /\ (e = RemoteDrain ->
            (new = map (fun p => (p, true)) (payloads (dec c))
             /\ payloads (dec c') = []
             /\ awaiting c' = None
             /\ ws_paused (ws c') = false
             /\ stage c' = OPEN)
            \/ (exists ps1 p ps2,
                  payloads (dec c) = ps1 ++ p :: ps2
                  /\ new = map (fun p => (p, true)) ps1 ++ [(p, false)]
                  /\ payloads (dec c') = ps2
                  /\ awaiting c' = Some AwaitDrain
                  /\ ws_paused (ws c') = true))).
Proof.
  intros c c'.
  destruct (refused_write_pauses es e) as (new & H1 & H2 & H3).
  fold c in H1, H2, H3. fold c' in H1, H2, H3.
  pose proof (run_inv init_conn es init_conn_inv) as [Hst _]. fold c in Hst.
  exists new. split; [exact H1|]. split; [exact H2|].
  intros Ha. destruct (H3 Ha) as [H4 H5]. split; [exact H4|]. split; [exact H5|].
  intros He. subst e.
  assert (Hc' : c' = drain_resumed c).
  { unfold c'. cbn [step]. now rewrite Ha. }
  destruct (remote c) as [s|] eqn:Er.
  2:{ unfold stage_inv in Hst. rewrite Ha, Er in Hst.
      destruct (stage c); intuition congruence. }
  rewrite Hc' in *.
  destruct (drain_resumed_writes c s Er)
    as [(Hw & Hq & Hw' & Hp & Hs) | (ps1 & p & ps2 & Hps & Hw & Hq & Hw' & Hp)].
  - left. rewrite H1 in Hw. apply app_inv_head in Hw. repeat split; assumption.
  - right. exists ps1, p, ps2. rewrite H1 in Hw. apply app_inv_head in Hw.
    repeat split; assumption.
Qed.

(** *** Egress *)

(** One run of the [remote.on('data')] handler sends one message: what was
    waiting in [tx] followed by the frames of the input. *)
Lemma on_remote_data_sent (c : Conn) (t : list bytes) (a : AEAD) (s : Socket) (data : bytes) :
  enc c = mkEnc (Some t) (Some a) ->
  remote c = Some s ->
  sent (ws (on_remote_data c data)) =
    sent (ws c) ++ [concat t ++ concat (fst (spec_frames a (spec_chunks data)))]
  /\ enc (on_remote_data c data) =
     mkEnc (Some []) (Some (snd (spec_frames a (spec_chunks data))))
  /\ remote (on_remote_data c data) = Some (sock_set_paused true s)
  /\ handlers (on_remote_data c data) = handlers c.
Proof.
  intros He Hr. unfold on_remote_data. rewrite He.
  rewrite encrypt_chunks_frames by lia. fold (spec_chunks data).
  change (remote (with_enc ?e c)) with (remote c). rewrite Hr.
  cbn. rewrite concat_app. auto.
Qed.

(** The drain loop and the message handler leave the outbound side alone. *)
Lemma drain_from_keeps (ps : list bytes) (c : Conn) :
  enc (drain_from ps c) = enc c
  /\ handlers (drain_from ps c) = handlers c
  /\ sent (ws (drain_from ps c)) = sent (ws c)
  /\ (remote c <> None -> remote (drain_from ps c) <> None).
Proof.
  revert c. induction ps as [|p ps IH]; intros c; [cbn; auto|].
  cbn [drain_from]. destruct (remote c) as [s|] eqn:Er.
  - unfold sock_write. destruct (hd true (accepts s)).
    + match goal with |- context [drain_from ps ?x] => destruct (IH x) as (H1 & H2 & H3 & H4) end.
      repeat split; try assumption. intros _. apply H4. cbn. discriminate.
    + cbn. repeat split; discriminate.
  - cbn. rewrite Er. auto.
Qed.

Lemma drain_keeps (c : Conn) :
  enc (drain c) = enc c
  /\ handlers (drain c) = handlers c
  /\ sent (ws (drain c)) = sent (ws c)
  /\ (remote c <> None -> remote (drain c) <> None).
Proof. exact (drain_from_keeps (payloads (dec c)) c). Qed.

Lemma on_message_keeps (c : Conn) (data : bytes) :
  enc (on_message c data) = enc c
  /\ handlers (on_message c data) = handlers c
  /\ sent (ws (on_message c data)) = sent (ws c)
  /\ (remote c <> None -> remote (on_message c data) <> None).
Proof.
  unfold on_message. destruct (feed (dec c) data) as [[| | |f] d]; try (cbn; auto; fail).
  unfold consume. change (payloads (dec (with_dec d c))) with (payloads d).
  destruct (payloads d) as [|address queued]; [cbn; auto|].
  change (stage (with_dec d c)) with (stage c).
  destruct (stage c); try (cbn; auto; fail).
  - destruct (parse_address address) as [addr port [|b rest]| |f]; cbn; auto.
  - apply (drain_from_keeps _ (with_stage WRITING (with_dec d c))).
Qed.

Lemma step_keeps (c : Conn) (e : Event) :
  (forall data, e <> RemoteData data) ->
  e <> WsClose ->
  (forall port addr, awaiting c <> Some (AwaitConnect port addr)) ->
  enc (step c e) = enc c
  /\ handlers (step c e) = handlers c
  /\ sent (ws (step c e)) = sent (ws c)
  /\ (remote c <> None -> remote (step c e) <> None).
Proof.
  intros Hd Hc Ha. destruct e; cbn [step].
  - apply on_message_keeps.
  - congruence.
  - destruct (handlers c) eqn:Eh; [|auto]. unfold on_remote.
    destruct (remote c) eqn:Er; cbn; rewrite ?Er; repeat split; congruence.
  - destruct (awaiting c) as [[port addr|]|] eqn:E; auto;
      destruct (Ha port addr eq_refl).
  - destruct (awaiting c) as [[port addr|]|] eqn:E; auto;
      destruct (Ha port addr eq_refl).
  - destruct (Hd data eq_refl).
  - destruct (awaiting c) as [[port addr|]|] eqn:E; auto.
    apply (drain_from_keeps _ (ws_resume (with_awaiting None c))).
  - destruct (handlers c) eqn:Eh; cbn; auto.
  - destruct (handlers c) eqn:Eh; [|auto]. unfold on_remote.
    destruct (remote c) eqn:Er; cbn; rewrite ?Er; repeat split; congruence.
  - destruct (handlers c) eqn:Eh; [|auto]. unfold on_remote_close.
    destruct (readyState (ws c)); cbn; auto.
Qed.

(** Once the handlers are registered, and as long as the WebSocket does not
    close, the messages sent are those the specification asks for the
    inputs of the remote, whatever else happens in between. *)
Lemma run_sent (es : list Event) (c : Conn) (t : list bytes) (a : AEAD) :
  conn_inv c ->
  handlers c = true ->
  enc c = mkEnc (Some t) (Some a) ->
  remote c <> None ->
  ~ In WsClose es ->
  sent (ws (run c es)) = sent (ws c) ++ spec_messages (concat t) a (remote_inputs es).
Proof.
  revert c t a. induction es as [|e es IH]; intros c t a Hinv Hh He Hr Hnc.
  - cbn. now rewrite app_nil_r.
  - assert (Hnc' : ~ In WsClose es) by (intros H; apply Hnc; now right).
    assert (Hne : e <> WsClose) by (intros ->; apply Hnc; now left).
    pose proof (step_inv c e Hinv) as Hinv'.
    change (run c (e :: es)) with (run (step c e) es).
    destruct (remote c) as [s|] eqn:Er; [clear Hr|congruence].
    assert (Hdata : forall d, e = RemoteData d ->
              sent (ws (run (step c e) es))
              = sent (ws c) ++ spec_messages (concat t) a (remote_inputs (e :: es))).
    { intros d ->. cbn [step remote_inputs spec_messages] in *. rewrite Hh in *.
      destruct (on_remote_data_sent c t a s d He Er) as (H1 & H2 & H3 & H4).
      rewrite (IH _ [] _ Hinv' (eq_trans H4 Hh) H2) by (congruence || assumption).
      rewrite H1. destruct (spec_frames a (spec_chunks d)) as [frames a'].
      cbn [fst snd concat]. now rewrite <- app_assoc. }
    assert (Hother : (forall d, e <> RemoteData d) ->
              sent (ws (run (step c e) es))
              = sent (ws c) ++ spec_messages (concat t) a (remote_inputs (e :: es))).
    { intros Hnd.
      assert (Ha : forall port addr, awaiting c <> Some (AwaitConnect port addr)).
      { intros port addr E. destruct Hinv as [Hst _]. unfold stage_inv in Hst.
        rewrite E in Hst. destruct (stage c); intuition congruence. }
      destruct (step_keeps c e Hnd Hne Ha) as (H1 & H2 & H3 & H4).
      rewrite (IH _ t a Hinv') by (congruence || (try assumption); apply H4; congruence).
      rewrite H3. f_equal. f_equal. destruct e; try reflexivity.
      destruct (Hnd data eq_refl). }
    destruct e; try (apply Hother; discriminate). now apply (Hdata data).
Qed.

Lemma remote_inputs_data (ds : list bytes) : remote_inputs (map RemoteData ds) = ds.
Proof. induction ds as [|d ds IH]; [reflexivity|]. cbn. now rewrite IH. Qed.

Lemma no_close_in_data (ds : list bytes) : ~ In WsClose (map RemoteData ds).
Proof. intros H. apply in_map_iff in H. destruct H as (d & Hd & _). discriminate. Qed.

(** The egress of a connection from the moment its connect resolves. *)
Lemma egress_after_connect
  (es : list Event) (port : nat) (addr : string) (answers : list bool)
  (salt : bytes) (es' : list Event) :
  awaiting (run init_conn es) = Some (AwaitConnect port addr) ->
  readyState (ws (run init_conn es)) = WS_OPEN ->
  ~ In WsClose es' ->
  let c1 := step (run init_conn es) (ConnectResolved answers salt) in
  sent (ws c1) = []
  /\ sent (ws (run c1 es')) =
     spec_messages salt (AEAD_new (hkdfSync KEY salt)) (remote_inputs es').
Proof.
  intros Ha Hrs Hnc c1.
  pose proof (run_inv init_conn es init_conn_inv) as Hinv.
  pose proof (step_inv _ (ConnectResolved answers salt) Hinv) as Hinv1. fold c1 in Hinv1.
  destruct Hinv as [Hst Hout].
  set (c := run init_conn es) in *.
  assert (Hh : handlers c = false).
  { unfold stage_inv in Hst. rewrite Ha in Hst. destruct (stage c); intuition congruence. }
  destruct (Hout Hh) as [Hsent Htx]. specialize (Htx Hrs).
  assert (Hc1 : c1 = drain (with_stage WRITING (with_handlers true
            (with_enc (mkEnc (Some ([] ++ [salt])) (Some (AEAD_new (hkdfSync KEY salt))))
               (ws_resume (with_remote (Some (new_socket answers))
                  (with_awaiting None c))))))).
  { subst c1. cbn [step]. rewrite Ha. apply (connect_resolved_open answers salt c [] Hrs Htx). }
  clearbody c1.
  match type of Hc1 with
  | _ = drain ?x => destruct (drain_keeps x) as (He & Hh' & Hs & Hr')
  end.
  rewrite <- Hc1 in He, Hh', Hs, Hr'. cbn in He, Hh', Hs, Hr'.
  assert (Hs1 : sent (ws c1) = []) by congruence.
  split; [exact Hs1|].
  rewrite (run_sent es' c1 [salt] _ Hinv1 Hh' He) by (assumption || (apply Hr'; discriminate)).
  rewrite Hs1. cbn [concat app]. now rewrite app_nil_r.
Qed.

(** C7.  Take a connection whose connect is in flight, the WebSocket open.
    When the connect resolves nothing has been sent yet; and whatever
    events [es'] follow, as long as the WebSocket does not close, the
    messages passed to [ws.send] are the [spec_messages] of the inputs the
    remote delivered: one message per input, holding for each chunk [c] of
    at most [0x3FFF] bytes of the input [encrypt(uint16be(|c|))] followed
    by [encrypt(c)], the salt in front of the first message and nowhere
    else. *)
Theorem C7_salt_once_then_frames
  (es : list Event) (port : nat) (addr : string) (answers : list bool)
  (salt : bytes) (es' : list Event) :
  awaiting (run init_conn es) = Some (AwaitConnect port addr) ->
  readyState (ws (run init_conn es)) = WS_OPEN ->
  ~ In WsClose es' ->
  let c1 := step (run init_conn es) (ConnectResolved answers salt) in
  sent (ws c1) = []
  /\ sent (ws (run c1 es')) =
     spec_messages salt (AEAD_new (hkdfSync KEY salt)) (remote_inputs es').
Proof. exact (egress_after_connect es port addr answers salt es'). Qed.

End Relay.

(** ** The inbound framer *)

Section Inbound.
Context {crypto : Crypto}.

Lemma firstn_app_le {A : Type} (n : nat) (l1 l2 : list A) :
  n <= length l1 -> firstn n (l1 ++ l2) = firstn n l1.
Proof.
  intros H. rewrite firstn_app. replace (n - length l1) with 0 by lia.
  cbn. apply app_nil_r.
Qed.

Lemma skipn_app_le {A : Type} (n : nat) (l1 l2 : list A) :
  n <= length l1 -> skipn n (l1 ++ l2) = skipn n l1 ++ l2.
Proof.
  intros H. rewrite skipn_app. replace (n - length l1) with 0 by lia. reflexivity.
Qed.

Lemma with_rx_same (d : DecCtx) (r : option (list bytes)) :
  rx d = r -> with_rx r d = d.
Proof. destruct d. cbn. now intros ->. Qed.

Lemma decrypt_chunks_nil (fuel : nat) (d : DecCtx) :
  decrypt_chunks fuel d [] = (Proceed, d).
Proof. destruct fuel; reflexivity. Qed.

(** One iteration on a buffer too short for the next chunk (lines 105-109). *)
Lemma decrypt_chunks_short (fuel : nat) (d : DecCtx) (data : bytes) (r : list bytes) :
  data <> [] ->
  length data < cipherTextSize d + TAG_SIZE ->
  rx d = Some r ->
  decrypt_chunks (S fuel) d data = (Proceed, with_rx (Some (r ++ [data])) d).
Proof.
  intros Hne Hlt Hrx. destruct data as [|b data]; [congruence|].
  cbn [decrypt_chunks].
  apply Nat.ltb_lt in Hlt. rewrite Hlt, Hrx. reflexivity.
Qed.

(** One iteration on a buffer that holds the next chunk (lines 111-131). *)
Lemma decrypt_chunks_frame (fuel : nat) (d : DecCtx) (data : bytes) (a : AEAD) :
  data <> [] ->
  cipherTextSize d + TAG_SIZE <= length data ->
  decipher d = Some a ->
  decrypt_chunks (S fuel) d data =
  match AEAD_decrypt a (firstn (cipherTextSize d) data)
                     (firstn TAG_SIZE (skipn (cipherTextSize d) data)) with
  | (None, a') => (AuthFailure, with_decipher (Some a') d)
  | (Some plainText, a') =>
    if Nat.even (chunkIndex d) then
      match readUInt16BE plainText 0 with
      | Some n =>
        decrypt_chunks fuel
          (incr_chunkIndex (with_cipherTextSize n (with_decipher (Some a') d)))
          (skipn (cipherTextSize d + TAG_SIZE) data)
      | None => (Faulted RangeError, with_decipher (Some a') d)
      end
    else
      decrypt_chunks fuel
        (incr_chunkIndex
           (with_payloads (payloads d ++ [plainText])
              (with_cipherTextSize 2 (with_decipher (Some a') d))))
        (skipn (cipherTextSize d + TAG_SIZE) data)
  end.
Proof.
  intros Hne Hle Hd. destruct data as [|b data]; [congruence|].
  cbn [decrypt_chunks].
  set (data0 := b :: data) in *.
  assert (Hlt : (length data0 <? cipherTextSize d + TAG_SIZE) = false)
    by (apply Nat.ltb_ge; exact Hle).
  rewrite Hlt, Hd. rewrite !subarray_0.
  rewrite firstn_firstn.
  replace (Nat.min (cipherTextSize d) (cipherTextSize d + TAG_SIZE))
    with (cipherTextSize d) by lia.
  rewrite <- firstn_skipn_comm.
  reflexivity.
Qed.

Section WithTag.
Hypothesis tag_pos : 0 < TAG_SIZE.

(** With a positive tag size [length data] iterations are enough: more fuel
    changes nothing. *)
Lemma decrypt_chunks_fuel (f1 f2 : nat) (d : DecCtx) (data : bytes) :
  length data <= f1 -> length data <= f2 ->
  decrypt_chunks f1 d data = decrypt_chunks f2 d data.
Proof.
  revert f2 d data. induction f1 as [|f1 IH]; intros f2 d data H1 H2.
  - destruct data; [|cbn in H1; lia]. now rewrite !decrypt_chunks_nil.
  - destruct data as [|b data]; [now rewrite !decrypt_chunks_nil|].
    destruct f2 as [|f2]; [cbn in H2; lia|].
    set (data0 := b :: data) in *.
    assert (Hne : data0 <> []) by discriminate.
    destruct (Nat.lt_ge_cases (length data0) (cipherTextSize d + TAG_SIZE)) as [Hlt|Hge].
    + destruct (rx d) as [r|] eqn:Hrx.
      * now rewrite !(decrypt_chunks_short _ d data0 r Hne Hlt Hrx).
      * subst data0. cbn [decrypt_chunks]. apply Nat.ltb_lt in Hlt.
        now rewrite Hlt, Hrx.
    + destruct (decipher d) as [a|] eqn:Hd.
      * rewrite !(decrypt_chunks_frame _ d data0 a Hne Hge Hd).
        assert (Hlen : length (skipn (cipherTextSize d + TAG_SIZE) data0) <= f1
                       /\ length (skipn (cipherTextSize d + TAG_SIZE) data0) <= f2).
        { rewrite length_skipn. lia. }
        destruct Hlen as [Hl1 Hl2].
        destruct (AEAD_decrypt a _ _) as [[pt|] a']; [|reflexivity].
        destruct (Nat.even (chunkIndex d)); [destruct (readUInt16BE pt 0)|];
          try reflexivity; now apply IH.
      * subst data0. cbn [decrypt_chunks]. apply Nat.ltb_ge in Hge.
        now rewrite Hge, Hd.
Qed.

(** With a positive tag size the loop ends within [length data] iterations. *)
Lemma decrypt_chunks_ends (f : nat) (d : DecCtx) (data : bytes) :
  length data <= f -> fst (decrypt_chunks f d data) <> Faulted Hang.
Proof.
  revert d data. induction f as [|f IH]; intros d data Hlen.
  - destruct data; [|cbn in Hlen; lia]. cbn. discriminate.
  - destruct data as [|b data]; [cbn; discriminate|].
    set (x := b :: data) in *.
    assert (Hne : x <> []) by discriminate.
    destruct (Nat.lt_ge_cases (length x) (cipherTextSize d + TAG_SIZE)) as [Hlt|Hge].
    + destruct (rx d) as [r|] eqn:Hrx.
      * rewrite (decrypt_chunks_short _ d x r Hne Hlt Hrx). cbn. discriminate.
      * subst x. cbn [decrypt_chunks]. apply Nat.ltb_lt in Hlt.
        rewrite Hlt, Hrx. cbn. discriminate.
    + destruct (decipher d) as [a|] eqn:Hd.
      * rewrite (decrypt_chunks_frame _ d x a Hne Hge Hd).
        assert (Hl : length (skipn (cipherTextSize d + TAG_SIZE) x) <= f)
          by (rewrite length_skipn; lia).
        destruct (AEAD_decrypt a _ _) as [[pt|] a']; [|cbn; discriminate].
        destruct (Nat.even (chunkIndex d)); [destruct (readUInt16BE pt 0)|];
          try (now apply IH). cbn. discriminate.
      * subst x. cbn [decrypt_chunks]. apply Nat.ltb_ge in Hge.
        rewrite Hge, Hd. cbn. discriminate.
Qed.

(** Decrypting a buffer followed by more bytes is decrypting the buffer and
    then, unless that stopped the handler, what it left over followed by
    the other bytes. *)
Lemma decrypt_chunks_app (f : nat) (d : DecCtx) (d1 d2 : bytes) (f12 : nat) :
  rx d = Some [] ->
  length d1 <= f ->
  length (d1 ++ d2) <= f12 ->
  decrypt_chunks f12 d (d1 ++ d2) =
  match decrypt_chunks f d d1 with
  | (Proceed, d') =>
    decrypt_chunks (length (pending d' ++ d2)) (with_rx (Some []) d') (pending d' ++ d2)
  | r => r
  end.
Proof.
  revert d d1 f12. induction f as [|f IH]; intros d d1 f12 Hrx H1 H12.
  - destruct d1; [|cbn in H1; lia]. rewrite decrypt_chunks_nil.
    unfold pending. rewrite Hrx, (with_rx_same d _ Hrx). cbn [concat app].
    now apply decrypt_chunks_fuel.
  - destruct d1 as [|b d1].
    { rewrite decrypt_chunks_nil.
      unfold pending. rewrite Hrx, (with_rx_same d _ Hrx). cbn [concat app].
      now apply decrypt_chunks_fuel. }
    set (x := b :: d1) in *.
    assert (Hne : x <> []) by discriminate.
    assert (Hne' : x ++ d2 <> []) by (subst x; discriminate).
    destruct (Nat.lt_ge_cases (length x) (cipherTextSize d + TAG_SIZE)) as [Hlt|Hge].
    + rewrite (decrypt_chunks_short f d x [] Hne Hlt Hrx).
      unfold pending. cbn [rx with_rx concat app]. rewrite app_nil_r.
      change (with_rx (Some []) (with_rx (Some [x]) d)) with (with_rx (Some []) d).
      rewrite (with_rx_same d _ Hrx).
      now apply decrypt_chunks_fuel.
    + destruct f12 as [|f12]; [rewrite length_app in H12; subst x; cbn in H12; lia|].
      destruct (decipher d) as [a|] eqn:Hd.
      * rewrite (decrypt_chunks_frame f d x a Hne Hge Hd).
        rewrite (decrypt_chunks_frame f12 d (x ++ d2) a Hne').
        2:{ rewrite length_app. lia. }
        2:{ exact Hd. }
        rewrite (firstn_app_le (cipherTextSize d)) by lia.
        rewrite (skipn_app_le (cipherTextSize d)) by lia.
        rewrite (firstn_app_le TAG_SIZE) by (rewrite length_skipn; lia).
        rewrite (skipn_app_le (cipherTextSize d + TAG_SIZE)) by lia.
        assert (Hl1 : length (skipn (cipherTextSize d + TAG_SIZE) x) <= f)
          by (rewrite length_skipn; lia).
        assert (Hl2 : length (skipn (cipherTextSize d + TAG_SIZE) x ++ d2) <= f12).
        { rewrite length_app, length_skipn. rewrite length_app in H12. lia. }
        destruct (AEAD_decrypt a _ _) as [[pt|] a']; [|reflexivity].
        destruct (Nat.even (chunkIndex d)); [destruct (readUInt16BE pt 0)|];
          try reflexivity; now apply IH.
      * subst x. cbn [decrypt_chunks app]. cbn [app] in H12.
        assert (Hge' : cipherTextSize d + TAG_SIZE <= length (b :: d1 ++ d2)).
        { cbn [length] in *. rewrite length_app. lia. }
        apply Nat.ltb_ge in Hge, Hge'. now rewrite Hge, Hge', Hd.
Qed.

(** The loop has no [return]; it keeps [decipher] and [rx] set. *)
Lemma decrypt_chunks_shape (f : nat) (d : DecCtx) (data : bytes) :
  decipher d <> None -> rx d <> None ->
  fst (decrypt_chunks f d data) <> Returned
  /\ decipher (snd (decrypt_chunks f d data)) <> None
  /\ rx (snd (decrypt_chunks f d data)) <> None.
Proof.
  revert d data. induction f as [|f IH]; intros d data Hd Hrx.
  - destruct data; cbn; repeat split; congruence.
  - destruct data as [|b data]; [cbn; repeat split; congruence|].
    set (x := b :: data) in *.
    assert (Hne : x <> []) by discriminate.
    destruct (decipher d) as [a|] eqn:Ed; [|congruence].
    destruct (rx d) as [r|] eqn:Er; [|congruence].
    destruct (Nat.lt_ge_cases (length x) (cipherTextSize d + TAG_SIZE)) as [Hlt|Hge].
    + rewrite (decrypt_chunks_short f d x r Hne Hlt Er). cbn.
      rewrite Ed. repeat split; congruence.
    + rewrite (decrypt_chunks_frame f d x a Hne Hge Ed).
      destruct (AEAD_decrypt a _ _) as [[pt|] a'].
      * destruct (Nat.even (chunkIndex d)); [destruct (readUInt16BE pt 0)|];
          try (apply IH; cbn; congruence).
        cbn. rewrite Er. repeat split; congruence.
      * cbn. rewrite Er. repeat split; congruence.
Qed.

Lemma init_and_decrypt_app (d : DecCtx) (x z : bytes) :
  rx d = Some [] ->
  init_and_decrypt d (x ++ z) =
  match init_and_decrypt d x with
  | (Proceed, d') | (Returned, d') =>
    init_and_decrypt (with_rx (Some []) d') (pending d' ++ z)
  | r => r
  end.
Proof.
  intros Hrx. unfold init_and_decrypt at 1 2.
  destruct (decipher d) as [a|] eqn:Ed.
  - rewrite (decrypt_chunks_app (length x) d x z _ Hrx) by lia.
    assert (Hd : decipher d <> None) by congruence.
    assert (Hr : rx d <> None) by congruence.
    destruct (decrypt_chunks_shape (length x) d x Hd Hr) as (H1 & H2 & _).
    destruct (decrypt_chunks (length x) d x) as [[| | |f] d']; cbn [fst snd] in *;
      try reflexivity; [|congruence].
    unfold init_and_decrypt. cbn [decipher with_rx].
    destruct (decipher d'); [reflexivity|congruence].
  - destruct (Nat.lt_ge_cases (length x) SALT_SIZE) as [Hlt|Hge].
    + assert (E : (length x <? SALT_SIZE) = true) by now apply Nat.ltb_lt.
      rewrite E, Hrx. unfold pending. cbn [rx with_rx concat app].
      rewrite app_nil_r.
      change (with_rx (Some []) (with_rx (Some [x]) d)) with (with_rx (Some []) d).
      rewrite (with_rx_same d _ Hrx).
      unfold init_and_decrypt. rewrite Ed, Hrx. reflexivity.
    + assert (E : (length x <? SALT_SIZE) = false) by now apply Nat.ltb_ge.
      assert (E' : (length (x ++ z) <? SALT_SIZE) = false).
      { apply Nat.ltb_ge. rewrite length_app. lia. }
      rewrite E, E'. rewrite !subarray_0.
      rewrite (firstn_app_le SALT_SIZE) by lia.
      rewrite (skipn_app_le SALT_SIZE) by lia.
      set (d0 := with_decipher (Some (AEAD_new (hkdfSync KEY (firstn SALT_SIZE x)))) d).
      rewrite (decrypt_chunks_app (length (skipn SALT_SIZE x)) d0 _ z _ Hrx) by lia.
      assert (Hd : decipher d0 <> None) by (cbn; congruence).
      assert (Hr : rx d0 <> None) by (cbn; congruence).
      destruct (decrypt_chunks_shape (length (skipn SALT_SIZE x)) d0
                  (skipn SALT_SIZE x) Hd Hr) as (H1 & H2 & _).
      destruct (decrypt_chunks (length (skipn SALT_SIZE x)) d0 (skipn SALT_SIZE x))
        as [[| | |f] d']; cbn [fst snd] in *; try reflexivity; [|congruence].
      unfold init_and_decrypt. cbn [decipher with_rx].
      destruct (decipher d'); [reflexivity|congruence].
Qed.

(** [feed] sees [rx] only through the bytes it holds. *)
Lemma feed_norm (d : DecCtx) (r : list bytes) (data : bytes) :
  rx d = Some r ->
  feed d data = init_and_decrypt (with_rx (Some []) d) (pending d ++ data).
Proof.
  intros Hrx. unfold feed, pending. rewrite Hrx.
  destruct r as [|l r].
  - cbn [length Nat.ltb Nat.leb concat app]. now rewrite (with_rx_same d _ Hrx).
  - cbn [length Nat.ltb Nat.leb]. rewrite concat_app. cbn [concat].
    now rewrite app_nil_r.
Qed.

Lemma init_and_decrypt_rx (d : DecCtx) (data : bytes) :
  rx d <> None -> rx (snd (init_and_decrypt d data)) <> None.
Proof.
  intros Hrx. unfold init_and_decrypt.
  destruct (decipher d) as [a|] eqn:Ed.
  - apply decrypt_chunks_shape; congruence.
  - destruct (length data <? SALT_SIZE).
    + destruct (rx d); cbn; congruence.
    + apply decrypt_chunks_shape; cbn; congruence.
Qed.

(** Feeding two messages is feeding their concatenation, unless the first
    already stopped the handler. *)
Lemma feed_app (d : DecCtx) (x z : bytes) :
  rx d <> None ->
  feed d (x ++ z) =
  match feed d x with
  | (Proceed, d') | (Returned, d') => feed d' z
  | r => r
  end.
Proof.
  intros Hrx. destruct (rx d) as [r|] eqn:Er; [|congruence].
  rewrite !(feed_norm d r _ Er), app_assoc.
  rewrite init_and_decrypt_app by reflexivity.
  assert (Hr : rx (with_rx (Some []) d) <> None) by (cbn; congruence).
  pose proof (init_and_decrypt_rx (with_rx (Some []) d) (pending d ++ x) Hr) as Hr'.
  destruct (init_and_decrypt (with_rx (Some []) d) (pending d ++ x))
    as [[| | |f] d']; cbn [snd] in Hr'; try reflexivity;
    destruct (rx d') as [r'|] eqn:Er'; try congruence;
    now rewrite (feed_norm d' r' z Er').
Qed.

Lemma readUInt16BE_bound (b : bytes) (off n : nat) :
  readUInt16BE b off = Some n -> n < N.to_nat 65536.
Proof.
  unfold readUInt16BE.
  destruct (nth_error b off) as [hi|]; [|discriminate].
  destruct (nth_error b (S off)) as [lo|]; [|discriminate].
  intros H. injection H as <-.
  pose proof (Byte.to_nat_bounded hi). pose proof (Byte.to_nat_bounded lo). lia.
Qed.

(** C1 (as amended).  A length frame that verifies is never refused for
    the value it holds: whatever 16-bit value [n] it decodes to (zero and
    values above [0x3FFF] included), the framer goes on, with
    [cipherTextSize] set to [n] and [chunkIndex] advanced; no InvalidFrame
    is reported and the connection is not terminated. *)
Theorem C1_length_frame_sets_size
  (d : DecCtx) (a a' : AEAD) (frame pt : bytes) (n : nat) :
  rx d = Some [] ->
  decipher d = Some a ->
  Nat.even (chunkIndex d) = true ->
  length frame = cipherTextSize d + TAG_SIZE ->
  AEAD_decrypt a (firstn (cipherTextSize d) frame) (skipn (cipherTextSize d) frame)
  = (Some pt, a') ->
  readUInt16BE pt 0 = Some n ->
  feed d frame
  = (Proceed, incr_chunkIndex (with_cipherTextSize n (with_decipher (Some a') d)))
  /\ n < N.to_nat 65536.
Proof.
  intros Hrx Hd Hev Hlen Hdec Hn. split; [|now apply (readUInt16BE_bound pt 0)].
  unfold feed. rewrite Hrx. cbn [length Nat.ltb Nat.leb].
  unfold init_and_decrypt. rewrite Hd.
  assert (Hne : frame <> []) by (destruct frame; [cbn in Hlen; lia|discriminate]).
  destruct (length frame) as [|f] eqn:El; [lia|].
  rewrite (decrypt_chunks_frame f d frame a Hne) by (assumption || lia).
  rewrite (firstn_all2 (n := TAG_SIZE)) by (rewrite length_skipn; lia).
  rewrite Hdec, Hev, Hn.
  rewrite skipn_all2 by lia. apply decrypt_chunks_nil.
Qed.

Section WithLength.
Hypothesis keeps_length : aead_keeps_length.

Lemma readUInt16BE_two (pt : bytes) :
  length pt = 2 -> exists n, readUInt16BE pt 0 = Some n.
Proof.
  destruct pt as [|hi [|lo [|? ?]]]; cbn; try discriminate.
  intros _. eexists. reflexivity.
Qed.

(** Between two messages the loop neither throws nor hangs, and it stops at
    a length chunk only with [cipherTextSize] back at two. *)
Lemma decrypt_chunks_wf (f : nat) (d : DecCtx) (data : bytes) :
  length data <= f ->
  decipher d <> None ->
  framer_wf d ->
  (fst (decrypt_chunks f d data) = Proceed \/ fst (decrypt_chunks f d data) = AuthFailure)
  /\ framer_wf (snd (decrypt_chunks f d data)).
Proof.
  revert d data. induction f as [|f IH]; intros d data Hlen Hd [Hrx Hcts].
  - destruct data; [|cbn in Hlen; lia]. cbn. split; [auto|split; assumption].
  - destruct data as [|b data]; [cbn; split; [auto|split; assumption]|].
    set (x := b :: data) in *.
    assert (Hne : x <> []) by discriminate.
    destruct (decipher d) as [a|] eqn:Ed; [|congruence].
    destruct (rx d) as [r|] eqn:Er; [|congruence].
    destruct (Nat.lt_ge_cases (length x) (cipherTextSize d + TAG_SIZE)) as [Hlt|Hge].
    + rewrite (decrypt_chunks_short f d x r Hne Hlt Er). cbn.
      split; [auto|]. split; [cbn; congruence|exact Hcts].
    + rewrite (decrypt_chunks_frame f d x a Hne Hge Ed).
      assert (Hl : length (skipn (cipherTextSize d + TAG_SIZE) x) <= f)
        by (rewrite length_skipn; lia).
      destruct (AEAD_decrypt a _ _) as [[pt|] a'] eqn:Edec.
      * destruct (Nat.even (chunkIndex d)) eqn:Ev.
        -- apply keeps_length in Edec. rewrite length_firstn in Edec.
           rewrite (Hcts eq_refl) in Edec.
           destruct (readUInt16BE_two pt) as [n Hn]; [lia|]. rewrite Hn.
           apply IH; [exact Hl|cbn; congruence|].
           split; [cbn; congruence|].
           change (chunkIndex (incr_chunkIndex
                     (with_cipherTextSize n (with_decipher (Some a') d))))
             with (S (chunkIndex d)).
           rewrite Nat.even_succ, <- Nat.negb_even, Ev. discriminate.
        -- apply IH; [exact Hl|cbn; congruence|].
           split; [cbn; congruence|]. reflexivity.
      * cbn. split; [auto|]. split; [cbn; congruence|exact Hcts].
Qed.

Lemma feed_wf (d : DecCtx) (x : bytes) :
  framer_wf d ->
  (forall f, fst (feed d x) <> Faulted f) /\ framer_wf (snd (feed d x)).
Proof.
  intros [Hrx Hcts]. destruct (rx d) as [r|] eqn:Er; [|congruence].
  rewrite (feed_norm d r x Er). unfold init_and_decrypt.
  cbn [decipher with_rx rx].
  set (d0 := with_rx (Some []) d).
  assert (Hwf0 : framer_wf d0) by (split; [cbn; congruence|exact Hcts]).
  destruct (decipher d) as [a|] eqn:Ed.
  - destruct (decrypt_chunks_wf (length (pending d ++ x)) d0 (pending d ++ x))
      as [[H|H] Hwf]; try assumption; try lia; try (cbn; congruence);
      (split; [intros f; rewrite H; discriminate|exact Hwf]).
  - destruct (length (pending d ++ x) <? SALT_SIZE).
    + cbn. split; [discriminate|]. split; [cbn; congruence|exact Hcts].
    + match goal with
      | |- context [decrypt_chunks ?n ?dd ?y] =>
        destruct (decrypt_chunks_wf n dd y) as [[H|H] Hwf]
      end; try lia; try (cbn; congruence);
        try (split; [cbn; congruence|exact Hcts]);
        (split; [intros f; rewrite H; discriminate|exact Hwf]).
Qed.

(** Feeding a stream message by message is feeding it in one piece, as
    long as no frame of it fails to verify. *)
Lemma feed_all_merge (xs : list bytes) (d : DecCtx) (x : bytes) :
  framer_wf d ->
  fst (feed d (x ++ concat xs)) <> AuthFailure ->
  feed_all d (x :: xs) = snd (feed d (x ++ concat xs)).
Proof.
  revert d x. induction xs as [|y ys IH]; intros d x Hwf Hok.
  - cbn [concat feed_all]. now rewrite app_nil_r.
  - cbn [concat] in *. change (feed_all d (x :: y :: ys))
      with (feed_all (snd (feed d x)) (y :: ys)).
    rewrite (feed_app d x (y ++ concat ys)) in * by apply Hwf.
    destruct (feed_wf d x Hwf) as [Hnt Hwf'].
    destruct (feed d x) as [[| | |f] d'] eqn:Ef; cbn [fst snd] in *.
    + now apply IH.
    + now apply IH.
    + now elim Hok.
    + destruct (Hnt f eq_refl).
Qed.

Lemma init_dec_wf : framer_wf init_dec.
Proof. split; [discriminate|reflexivity]. Qed.

Lemma feed_init_nil :
  exists e d, feed init_dec [] = (e, d) /\ (e = Proceed \/ e = Returned)
              /\ payloads d = [].
Proof.
  unfold feed. cbn [rx init_dec length Nat.ltb Nat.leb]. unfold init_and_decrypt.
  cbn [decipher init_dec]. destruct (length [] <? SALT_SIZE).
  - cbn. do 2 eexists. split; [reflexivity|]. split; [auto|reflexivity].
  - rewrite skipn_nil, decrypt_chunks_nil.
    do 2 eexists. split; [reflexivity|]. split; [auto|reflexivity].
Qed.

(** The framer is split-agnostic on the streams it accepts: when the
    stream fed in one piece meets no frame that fails to verify, every way
    [chunks] of cutting it into messages puts the same payloads, in the
    same order, into [payloads], and with at least one message ends in the
    same decryption context. *)
Lemma split_agnostic_without_failure (chunks : list bytes) :
  fst (feed init_dec (concat chunks)) <> AuthFailure ->
  payloads (feed_all init_dec chunks)
  = payloads (snd (feed init_dec (concat chunks)))
  /\ (chunks <> [] ->
      feed_all init_dec chunks = snd (feed init_dec (concat chunks))).
Proof.
  intros Hok. destruct chunks as [|x xs].
  - destruct feed_init_nil as (e & d & Hf & He & Hp).
    cbn [feed_all concat]. rewrite Hf. cbn [snd]. rewrite Hp.
    split; [reflexivity|congruence].
  - cbn [concat] in *. rewrite (feed_all_merge xs init_dec x init_dec_wf Hok).
    auto.
Qed.

End WithLength.

End WithTag.

End Inbound.

(** ** Authentication failures *)

Section AuthFailures.
Context {crypto : Crypto} {util : Util}.
Hypothesis tag_pos : 0 < TAG_SIZE.

(** After the ['close'] handler has run, a message makes the handler throw
    at its first line. *)
Lemma on_message_closed (c : Conn) (data : bytes) :
  rx (dec c) = None -> on_message c data = throw TypeError c.
Proof.
  intros Hrx. unfold on_message, feed. rewrite Hrx. now destruct c.
Qed.

Lemma run_messages_closed (ms : list bytes) (c : Conn) :
  rx (dec c) = None ->
  write_log (run c (map WsMessage ms)) = write_log c
  /\ payloads (dec (run c (map WsMessage ms))) = payloads (dec c).
Proof.
  revert c. induction ms as [|m ms IH]; intros c Hrx; [split; reflexivity|].
  cbn [map run fold_left step]. rewrite (on_message_closed c m Hrx).
  fold (run (throw TypeError c) (map WsMessage ms)).
  destruct (IH (throw TypeError c) Hrx) as [H1 H2]. split; assumption.
Qed.

Lemma on_ws_close_dec (c : Conn) :
  rx (dec (on_ws_close c)) = None
  /\ payloads (dec (on_ws_close c)) = payloads (dec c).
Proof.
  unfold on_ws_close.
  destruct (remote c) as [s|]; [destruct (destroyed s)|]; split; reflexivity.
Qed.

(** The framer on a message whose frame [bad] fails to verify after the
    frames of [pre] have been accepted. *)
Lemma feed_auth_failure (d d1 : DecCtx) (pre bad rest : bytes) (a1 a2 : AEAD) :
  feed d pre = (Proceed, d1) ->
  rx d1 = Some [] ->
  decipher d1 = Some a1 ->
  length bad = cipherTextSize d1 + TAG_SIZE ->
  AEAD_decrypt a1 (firstn (cipherTextSize d1) bad) (skipn (cipherTextSize d1) bad)
  = (None, a2) ->
  feed d (pre ++ bad ++ rest) = (AuthFailure, with_decipher (Some a2) d1).
Proof.
  intros Hpre Hrx1 Hd1 Hlen Hdec.
  assert (Hrx : rx d <> None).
  { unfold feed in Hpre. destruct (rx d); [discriminate|]. discriminate. }
  rewrite (feed_app tag_pos d pre (bad ++ rest) Hrx), Hpre.
  unfold feed. rewrite Hrx1. cbn [length Nat.ltb Nat.leb].
  unfold init_and_decrypt. rewrite Hd1.
  assert (Hne : bad ++ rest <> []).
  { destruct bad; [cbn in Hlen; lia|discriminate]. }
  destruct (length (bad ++ rest)) as [|f] eqn:El.
  { rewrite length_app in El. lia. }
  rewrite (decrypt_chunks_frame f d1 (bad ++ rest) a1 Hne).
  2:{ rewrite length_app. lia. }
  2:{ exact Hd1. }
  rewrite (firstn_app_le (cipherTextSize d1)) by lia.
  rewrite (skipn_app_le (cipherTextSize d1)) by lia.
  rewrite (firstn_app_le TAG_SIZE) by (rewrite length_skipn; lia).
  rewrite (firstn_all2 (n := TAG_SIZE)) by (rewrite length_skipn; lia).
  now rewrite Hdec.
Qed.

(** What the failure branch (lines 118-122) does to its own run and to
    the runs after the ['close'] event.  Let a message hold, after frames
    [pre] that all verify (they leave the context [d1] at a frame
    boundary), a frame [bad] whose decrypt returns null, and any bytes
    [rest] after it.  The handler
    terminates the WebSocket at once; it writes nothing to the remote and
    changes neither stage nor remote; [payloads] holds what the frames of
    [pre] gave and nothing of [bad] or [rest], and no byte of [rest] is kept
    for later.  Once the ['close'] event the termination brings has been
    handled, further messages are not decrypted: the log of remote writes
    and [payloads] stay as they are. *)
Lemma auth_failure_ends_the_run
  (c : Conn) (pre bad rest : bytes) (d1 : DecCtx) (a1 a2 : AEAD) :
  feed (dec c) pre = (Proceed, d1) ->
  rx d1 = Some [] ->
  decipher d1 = Some a1 ->
  length bad = cipherTextSize d1 + TAG_SIZE ->
  AEAD_decrypt a1 (firstn (cipherTextSize d1) bad) (skipn (cipherTextSize d1) bad)
  = (None, a2) ->
  let c' := step c (WsMessage (pre ++ bad ++ rest)) in
  terminated (ws c') = true
  /\ dec c' = with_decipher (Some a2) d1
  /\ payloads (dec c') = payloads d1
  /\ rx (dec c') = Some []
  /\ remote c' = remote c /\ stage c' = stage c /\ awaiting c' = awaiting c
  /\ forall ms,
      write_log (run c' (WsClose :: map WsMessage ms)) = write_log c
      /\ payloads (dec (run c' (WsClose :: map WsMessage ms))) = payloads d1.
Proof.
  intros Hpre Hrx1 Hd1 Hlen Hdec c'.
  assert (Hc' : c' = ws_terminate (log Warn "invalid password or cipher"
                       (with_dec (with_decipher (Some a2) d1) c))).
  { subst c'. cbn [step]. unfold on_message.
    now rewrite (feed_auth_failure (dec c) d1 pre bad rest a1 a2 Hpre Hrx1 Hd1 Hlen Hdec). }
  rewrite Hc'. repeat split; try exact Hrx1.
  - cbn [run fold_left step].
    match goal with
    | |- context [fold_left step _ (on_ws_close ?x)] =>
      fold (run (on_ws_close x) (map WsMessage ms));
      destruct (on_ws_close_dec x) as [Hn _];
      destruct (run_messages_closed ms (on_ws_close x) Hn) as [H1 _];
      rewrite H1; destruct (on_ws_close_quiet x) as (H2 & _)
    end.
    rewrite H2. reflexivity.
  - cbn [run fold_left step].
    match goal with
    | |- context [fold_left step _ (on_ws_close ?x)] =>
      fold (run (on_ws_close x) (map WsMessage ms));
      destruct (on_ws_close_dec x) as [Hn Hp];
      destruct (run_messages_closed ms (on_ws_close x) Hn) as [_ H1];
      rewrite H1, Hp
    end.
    reflexivity.
Qed.

End AuthFailures.

(** ** Round trip: outbound framer, then inbound framer *)

Section RoundTrip.
Context {crypto : Crypto} {util : Util}.
Hypothesis opens_sealed : aead_opens_sealed.

Lemma split_every_nil (fuel : nat) : split_every fuel [] = [].
Proof. destruct fuel; reflexivity. Qed.

(** An input of at most [0x3FFF] bytes, not empty, is one chunk. *)
Lemma spec_chunks_single (p : bytes) :
  1 <= length p <= MAX_PAYLOAD -> spec_chunks p = [p].
Proof.
  intros Hp. unfold spec_chunks. destruct p as [|b p]; [cbn in Hp; lia|].
  cbn [length split_every].
  rewrite firstn_all2 by lia. rewrite skipn_all2 by lia.
  now rewrite split_every_nil.
Qed.

Lemma spec_messages_prefix (pre : bytes) (a : AEAD) (ps : list bytes) :
  ps <> [] ->
  concat (spec_messages pre a ps) = pre ++ concat (spec_messages [] a ps).
Proof.
  destruct ps as [|p ps]; [congruence|]. intros _. cbn [spec_messages].
  destruct (spec_frames a (spec_chunks p)) as [frames a'].
  cbn [concat app]. now rewrite app_assoc.
Qed.

(** The inbound loop on the frames the outbound framer makes of [ps]. *)
Lemma decrypt_spec_messages (ps : list bytes) (a : AEAD) (d : DecCtx) (f : nat) :
  decipher d = Some a ->
  cipherTextSize d = 2 ->
  Nat.even (chunkIndex d) = true ->
  Forall (fun p => 1 <= length p <= MAX_PAYLOAD) ps ->
  length (concat (spec_messages [] a ps)) <= f ->
  exists d',
    decrypt_chunks f d (concat (spec_messages [] a ps)) = (Proceed, d')
    /\ payloads d' = payloads d ++ ps
    /\ rx d' = rx d.
Proof.
  revert a d f. induction ps as [|p ps IH]; intros a d f Hd Hcts Hev Hps Hf.
  - cbn. rewrite decrypt_chunks_nil. exists d. now rewrite app_nil_r.
  - inversion Hps as [|p' ps' Hp Hps']; subst.
    cbn [spec_messages] in *. rewrite (spec_chunks_single p Hp) in *.
    cbn [spec_frames] in *.
    assert (Hplen : length p < N.to_nat 65536) by (unfold MAX_PAYLOAD in Hp; lia).
    destruct (opens_sealed a (uint16be (length p))) as [Hl1 Ho1].
    destruct (AEAD_encrypt a (uint16be (length p))) as [f1 a1].
    destruct (opens_sealed a1 p) as [Hl2 Ho2].
    destruct (AEAD_encrypt a1 p) as [f2 a2].
    cbn [fst snd concat app] in *.
    rewrite uint16be_length in Hl1, Ho1 by exact Hplen.
    rewrite app_nil_r in *. rewrite <- app_assoc in *.
    set (tail := concat (spec_messages [] a2 ps)) in *.
    rewrite !length_app in Hf.
    destruct f as [|[|f]]; try lia.
    (* the length frame *)
    rewrite (decrypt_chunks_frame (S f) d (f1 ++ f2 ++ tail) a).
    2:{ destruct f1; [cbn in Hl1; lia|discriminate]. }
    2:{ rewrite !length_app. lia. }
    2:{ exact Hd. }
    rewrite Hcts.
    rewrite (firstn_app_le 2) by lia.
    rewrite (skipn_app_le 2) by lia.
    rewrite (firstn_app_le TAG_SIZE) by (rewrite length_skipn; lia).
    rewrite (firstn_all2 (n := TAG_SIZE)) by (rewrite length_skipn; lia).
    rewrite Ho1, Hev, (readUInt16BE_uint16be _ Hplen).
    rewrite <- Hl1. rewrite skipn_app, skipn_all, Nat.sub_diag. cbn [skipn app].
    (* the payload frame *)
    set (d1 := incr_chunkIndex (with_cipherTextSize (length p) (with_decipher (Some a1) d))).
    rewrite (decrypt_chunks_frame f d1 (f2 ++ tail) a1).
    2:{ destruct f2; [cbn in Hl2; lia|discriminate]. }
    2:{ rewrite !length_app. cbn. lia. }
    2:{ reflexivity. }
    change (cipherTextSize d1) with (length p).
    rewrite (firstn_app_le (length p)) by lia.
    rewrite (skipn_app_le (length p)) by lia.
    rewrite (firstn_app_le TAG_SIZE) by (rewrite length_skipn; lia).
    rewrite (firstn_all2 (n := TAG_SIZE)) by (rewrite length_skipn; lia).
    rewrite Ho2.
    change (chunkIndex d1) with (S (chunkIndex d)).
    rewrite Nat.even_succ, <- Nat.negb_even, Hev. cbn [negb].
    rewrite <- Hl2. rewrite skipn_app, skipn_all, Nat.sub_diag. cbn [skipn app].
    match goal with
    | |- context [decrypt_chunks f ?d2 tail] =>
      destruct (IH a2 d2 f) as (d' & H1 & H2 & H3)
    end.
    + reflexivity.
    + reflexivity.
    + change (Nat.even (S (S (chunkIndex d))) = true). exact Hev.
    + exact Hps'.
    + fold tail. lia.
    + exists d'. split; [exact H1|]. split; [|exact H3].
      rewrite H2. cbn. now rewrite <- app_assoc.
Qed.

(** C6.  Let the outbound framer of a connection, set up with the salt
    [salt], encrypt the plaintexts [ps], each of at most [0x3FFF] bytes and
    not empty, as every buffer is that a socket delivers in a ['data']
    event.  The inbound framer, fed the concatenation
    of the messages sent, takes the salt, derives the same sub-key and ends
    with exactly [ps], in order, in [payloads], having met no failure. *)
Theorem C6_round_trip
  (es : list Event) (port : nat) (addr : string) (answers : list bool)
  (salt : bytes) (ps : list bytes) :
  length salt = SALT_SIZE ->
  awaiting (run init_conn es) = Some (AwaitConnect port addr) ->
  readyState (ws (run init_conn es)) = WS_OPEN ->
  Forall (fun p => 1 <= length p <= MAX_PAYLOAD) ps ->
  let server :=
    run (run init_conn es) (ConnectResolved answers salt :: map RemoteData ps) in
  exists e d,
    feed init_dec (concat (sent (ws server))) = (e, d)
    /\ (e = Proceed \/ e = Returned)
    /\ payloads d = ps.
Proof.
  intros Hsalt Ha Hrs Hps server.
  destruct (egress_after_connect es port addr answers salt (map RemoteData ps)
              Ha Hrs (no_close_in_data ps)) as [_ Hsent].
  cbv zeta in Hsent. rewrite remote_inputs_data in Hsent.
  change server with
    (run (step (run init_conn es) (ConnectResolved answers salt)) (map RemoteData ps)).
  rewrite Hsent. clear Hsent server.
  destruct ps as [|p ps'] eqn:Eps.
  - cbn [spec_messages concat]. exact feed_init_nil.
  - rewrite <- Eps in *. assert (Hne : ps <> []) by congruence.
    rewrite (spec_messages_prefix _ _ _ Hne).
    set (a0 := AEAD_new (hkdfSync KEY salt)).
    set (stream := concat (spec_messages [] a0 ps)).
    unfold feed. cbn [rx init_dec length Nat.ltb Nat.leb].
    unfold init_and_decrypt. cbn [decipher init_dec].
    assert (E : (length (salt ++ stream) <? SALT_SIZE) = false).
    { apply Nat.ltb_ge. rewrite length_app. lia. }
    rewrite E, subarray_0.
    rewrite (firstn_app_le SALT_SIZE) by lia.
    rewrite (skipn_app_le SALT_SIZE) by lia.
    rewrite firstn_all2 by lia. rewrite skipn_all2 by lia. cbn [app].
    fold a0.
    destruct (decrypt_spec_messages ps a0
                (with_decipher (Some a0) (mkDec (Some []) None 2 0 []))
                (length stream))
      as (d' & H1 & H2 & _); try reflexivity; try assumption.
    exists Proceed, d'. split; [exact H1|]. split; [auto|exact H2].
Qed.

End RoundTrip.

(** ** The address header *)

Section AddressHeader.
Context {crypto : Crypto} {util : Util}.

Lemma readUInt16BE_short (b : bytes) (off : nat) :
  length b < off + 2 -> readUInt16BE b off = None.
Proof.
  intros H. unfold readUInt16BE.
  assert (E : nth_error b (S off) = None) by (apply nth_error_None; lia).
  rewrite E. now destruct (nth_error b off).
Qed.

(** An ATYP other than 1, 3 and 4, or no byte at all, is the [default] of
    the switch. *)
Lemma parse_address_invalid_atyp (address : bytes) :
  (forall b, nth_error address 0 = Some b -> b <> x01 /\ b <> x03 /\ b <> x04) ->
  parse_address address = InvalidAtyp.
Proof.
  intros H. unfold parse_address.
  destruct (nth_error address 0) as [b|]; [|reflexivity].
  destruct (H b eq_refl) as (H1 & H3 & H4).
  destruct b; try reflexivity; congruence.
Qed.

(** A header cut short makes [readUInt16BE] throw. *)
Lemma parse_address_short (address : bytes) :
  short_header address -> parse_address address = ParseThrew RangeError.
Proof.
  destruct address as [|b rest]; [contradiction|].
  destruct b; try contradiction; unfold short_header, parse_address; cbn [nth_error].
  - intros H. now rewrite readUInt16BE_short by lia.
  - destruct rest as [|n r]; [reflexivity|]. cbn [nth_error].
    intros H. now rewrite readUInt16BE_short by lia.
  - intros H. now rewrite readUInt16BE_short by lia.
Qed.

(** What the handler does with an invalid ATYP: warn and terminate. *)
Lemma consume_invalid_atyp (c : Conn) (address : bytes) (queued : list bytes) :
  stage c = CLOSED ->
  payloads (dec c) = address :: queued ->
  parse_address address = InvalidAtyp ->
  consume c
  = ws_terminate (log Warn "invalid atyp"
      (with_dec (with_payloads queued (dec c)) (with_stage OPENING c))).
Proof. intros Hs Hp Ha. unfold consume. now rewrite Hp, Hs, Ha. Qed.

(** What it does with a header cut short: the RangeError escapes, the
    WebSocket is left as it is and nothing is logged. *)
Lemma consume_short_header (c : Conn) (address : bytes) (queued : list bytes) :
  stage c = CLOSED ->
  payloads (dec c) = address :: queued ->
  short_header address ->
  consume c
  = throw RangeError (with_dec (with_payloads queued (dec c)) (with_stage OPENING c)).
Proof.
  intros Hs Hp Ha. unfold consume. now rewrite Hp, Hs, (parse_address_short _ Ha).
Qed.

(** The bytes after the header go to the tail of the queue, whatever the
    queue holds. *)
Lemma consume_requeues_trailer_last
  (c : Conn) (address : bytes) (queued : list bytes)
  (addr : string) (port : nat) (b : byte) (rest : bytes) :
  stage c = CLOSED ->
  payloads (dec c) = address :: queued ->
  parse_address address = Address addr port (b :: rest) ->
  payloads (dec (consume c)) = queued ++ [b :: rest]
  /\ awaiting (consume c) = Some (AwaitConnect port addr)
  /\ ws_paused (ws (consume c)) = true.
Proof. intros Hs Hp Ha. unfold consume. rewrite Hp, Hs, Ha. repeat split. Qed.

(** A socket that accepts every write is written the whole queue, in the
    order of the queue. *)
Lemma drain_from_all_accepted (ps : list bytes) (c : Conn) (s : Socket) :
  remote c = Some s ->
  accepts s = [] ->
  write_log (drain_from ps c) = writes s ++ map (fun p => (p, true)) ps.
Proof.
  revert c s. induction ps as [|p ps IH]; intros c s Hr Ha.
  - unfold write_log. cbn. now rewrite Hr, app_nil_r.
  - cbn [drain_from]. rewrite Hr. unfold sock_write. rewrite Ha. cbn [hd tl].
    erewrite IH; [|reflexivity|reflexivity]. cbn. now rewrite <- app_assoc.
Qed.

(** So the trailer is written after every payload that was queued with the
    header. *)
Lemma trailer_is_written_last
  (c : Conn) (address : bytes) (queued : list bytes)
  (addr : string) (port : nat) (b : byte) (rest : bytes) (salt : bytes) :
  stage c = CLOSED ->
  payloads (dec c) = address :: queued ->
  parse_address address = Address addr port (b :: rest) ->
  readyState (ws c) = WS_OPEN ->
  tx (enc c) = Some [] ->
  write_log (step (consume c) (ConnectResolved [] salt))
  = map (fun p => (p, true)) (queued ++ [b :: rest]).
Proof.
  intros Hs Hp Ha Hrs Htx.
  destruct (consume_requeues_trailer_last c address queued addr port b rest Hs Hp Ha)
    as (Hq & Haw & _).
  cbn [step]. rewrite Haw.
  assert (Hrs' : readyState (ws (consume c)) = WS_OPEN).
  { unfold consume. rewrite Hp, Hs, Ha. exact Hrs. }
  assert (Htx' : tx (enc (consume c)) = Some []).
  { unfold consume. rewrite Hp, Hs, Ha. exact Htx. }
  rewrite (connect_resolved_open [] salt (consume c) [] Hrs' Htx').
  unfold drain.
  match goal with
  | |- write_log (drain_from ?ps ?x) = _ =>
    rewrite (drain_from_all_accepted ps x (new_socket []) eq_refl eq_refl)
  end.
  change (payloads (dec (with_stage _ _))) with (payloads (dec (consume c))).
  now rewrite Hq.
Qed.

End AddressHeader.

(** ** The toy instance: laws, and the handlers run on concrete streams *)

Section Toy.
#[local] Existing Instance toy_crypto.
#[local] Existing Instance toy_util.

Lemma bytes_eqb_refl (x : bytes) : bytes_eqb x x = true.
Proof.
  induction x as [|b x IH]; [reflexivity|]. cbn.
  rewrite IH, (Byte.byte_dec_lb eq_refl). reflexivity.
Qed.

Lemma toy_tag_pos : 0 < TAG_SIZE.
Proof. cbn. lia. Qed.

Lemma toy_opens_sealed : aead_opens_sealed.
Proof.
  intros a pt. cbn [AEAD_encrypt AEAD_decrypt toy_crypto toy_encrypt fst snd TAG_SIZE].
  split.
  - rewrite length_app. unfold toy_tag. now rewrite repeat_length.
  - rewrite firstn_app, Nat.sub_diag, firstn_all. cbn [firstn]. rewrite app_nil_r.
    rewrite skipn_app, Nat.sub_diag, skipn_all. cbn [skipn app].
    unfold toy_decrypt. now rewrite bytes_eqb_refl.
Qed.

Lemma toy_keeps_length : aead_keeps_length.
Proof.
  intros a a' ct tag pt. cbn [AEAD_decrypt toy_crypto]. unfold toy_decrypt.
  destruct (bytes_eqb tag (toy_tag a ct)); [|discriminate].
  intros H. injection H as <- _. reflexivity.
Qed.

(** C1, counterexample.  Length frames that decode to [0xFFFF] and to 0
    are accepted: the WebSocket is not terminated, nothing is logged, and
    [cipherTextSize] is set to the decoded value. *)
Lemma C1_out_of_range_length_accepted :
  let c := step init_conn (WsMessage stream_length_ffff) in
  let c0 := step init_conn (WsMessage stream_length_zero) in
  (N.of_nat (cipherTextSize (dec c)) = 0xffff%N
   /\ terminated (ws c) = false /\ readyState (ws c) = WS_OPEN /\ logs c = [])
  /\ (cipherTextSize (dec c0) = 0
      /\ terminated (ws c0) = false /\ readyState (ws c0) = WS_OPEN /\ logs c0 = []).
Proof. vm_compute. repeat split. Qed.

(** The theorem above on a length frame that holds 0. *)
Lemma C1_length_frame_sets_size_witness :
  let d := with_decipher (Some (mkToy toy_salt 0)) init_dec in
  0 < TAG_SIZE
  /\ rx d = Some []
  /\ decipher d = Some (mkToy toy_salt 0)
  /\ Nat.even (chunkIndex d) = true
  /\ length (toy_seal 0 [x00; x00]) = cipherTextSize d + TAG_SIZE
  /\ AEAD_decrypt (mkToy toy_salt 0)
       (firstn (cipherTextSize d) (toy_seal 0 [x00; x00]))
       (skipn (cipherTextSize d) (toy_seal 0 [x00; x00]))
     = (Some [x00; x00], mkToy toy_salt 1)
  /\ readUInt16BE [x00; x00] 0 = Some 0
  /\ feed d (toy_seal 0 [x00; x00])
     = (Proceed,
        incr_chunkIndex (with_cipherTextSize 0
          (with_decipher (Some (mkToy toy_salt 1)) d)))
  /\ 0 < N.to_nat 65536.
Proof.
  cbv zeta.
  assert (H := @C1_length_frame_sets_size toy_crypto toy_tag_pos
                 (with_decipher (Some (mkToy toy_salt 0)) init_dec)
                 (mkToy toy_salt 0) (mkToy toy_salt 1)
                 (toy_seal 0 [x00; x00]) [x00; x00] 0
                 eq_refl eq_refl eq_refl eq_refl eq_refl eq_refl).
  split; [exact toy_tag_pos|]. do 6 (split; [reflexivity|]). exact H.
Defined.

(** C2, on a stream.  The client sends, in one message, a first chunk
    holding the address header followed by "A" and a second chunk "B": the
    tunneled stream is "A" then "B".  The handler puts the trailer "A"
    behind the queued "B", and once the connect resolves the remote is
    written "B" and then "A". *)
Theorem C2_trailer_written_after_queued_payload :
  payloads (dec (step init_conn (WsMessage stream_header_A_then_B)))
  = [["B"%byte]; ["A"%byte]]
  /\ write_log (run init_conn [WsMessage stream_header_A_then_B;
                               ConnectResolved [] toy_salt])
     = [(["B"%byte], true); (["A"%byte], true)].
Proof. vm_compute. split; reflexivity. Qed.

(** C3, on a stream.  The first payload is [01 7f 00 00], an IPv4 header
    of four bytes instead of seven.  The handler neither reports the
    address as invalid nor terminates the WebSocket: [readUInt16BE] throws
    a RangeError nobody catches, nothing is logged, and the connection
    stays in OPENING with the WebSocket open.  A first payload with ATYP 5,
    for comparison, takes the [default] branch of the same switch: a
    warning is logged and the WebSocket terminated. *)
Theorem C3_short_header_throws :
  let c := step init_conn (WsMessage stream_short_header) in
  let c5 := step init_conn (WsMessage stream_bad_atyp) in
  (faults c = [RangeError]
   /\ terminated (ws c) = false
   /\ readyState (ws c) = WS_OPEN
   /\ logs c = []
   /\ stage c = OPENING
   /\ awaiting c = None)
  /\ (faults c5 = []
      /\ terminated (ws c5) = true
      /\ logs c5 = [(Warn, "invalid atyp"%string)]).
Proof. vm_compute. repeat split. Qed.



(** Backpressure on a stream: the remote refuses its first write.  The
    handler stops after that write with ingress paused and the second
    payload still queued; the drain signal resumes ingress and the rest is
    written. *)
Example refused_write_on_a_stream :
  let c := run init_conn [WsMessage stream_header_A_then_B;
                          ConnectResolved [false] toy_salt] in
  let c' := step c RemoteDrain in
  (write_log c = [(["B"%byte], false)]
   /\ ws_paused (ws c) = true
   /\ awaiting c = Some AwaitDrain
   /\ stage c = WRITING
   /\ payloads (dec c) = [["A"%byte]])
  /\ (write_log c' = [(["B"%byte], false); (["A"%byte], true)]
      /\ ws_paused (ws c') = false
      /\ awaiting c' = None
      /\ stage c' = OPEN).
Proof. vm_compute. repeat split. Qed.

(** C9, counterexample.  The WebSocket closes while the connect is in
    flight, then the connect resolves: the handler stores the socket in
    [remote], destroys it and returns, the stage still OPENING. *)
Lemma C9_remote_set_while_opening :
  let c := run init_conn [WsMessage stream_hello; WsClose;
                          ConnectResolved [] toy_salt] in
  stage c = OPENING
  /\ remote c = Some (sock_destroy (new_socket []))
  /\ ~ (remote c <> None <-> (stage c = OPEN \/ stage c = WRITING)).
Proof.
  cbv zeta. split; [vm_compute; reflexivity|]. split; [vm_compute; reflexivity|].
  intros [H _].
  assert (Hs : stage (run init_conn [WsMessage stream_hello; WsClose;
                                     ConnectResolved [] toy_salt]) = OPEN
               \/ stage (run init_conn [WsMessage stream_hello; WsClose;
                                        ConnectResolved [] toy_salt]) = WRITING).
  { apply H. vm_compute. discriminate. }
  vm_compute in Hs. destruct Hs; discriminate.
Qed.

(** Outside the inputs of the round trip: an empty buffer, which no
    ['data'] event of a socket carries and the wire format has no frame
    for.  The outbound framer makes no frame of it, and the inbound framer
    fed the egress (the salt alone) ends with no payload. *)
Example empty_input_makes_no_frame :
  let server := run (run init_conn [WsMessage stream_hello])
                    (ConnectResolved [] toy_salt :: map RemoteData [[]]) in
  Forall (fun p : bytes => length p <= MAX_PAYLOAD) [[]]
  /\ sent (ws server) = [toy_salt]
  /\ payloads (snd (feed init_dec (concat (sent (ws server))))) = []
  /\ payloads (snd (feed init_dec (concat (sent (ws server))))) <> [[]].
Proof.
  cbv zeta.
  split; [apply Forall_cons; [unfold MAX_PAYLOAD; cbn [length]; lia|apply Forall_nil]|].
  split; [vm_compute; reflexivity|].
  split; [vm_compute; reflexivity|].
  vm_compute. discriminate.
Qed.

End Toy.

Section ToyWitnesses.
#[local] Existing Instance toy_crypto.
#[local] Existing Instance toy_util.

(** The failure branch on a stream: the chunk "A" verifies, the next
    length frame comes with its tag zeroed, a sealed chunk "B" follows in
    the same message. *)
Example auth_failure_ends_the_run_on_a_stream :
  let d1 := mkDec (Some []) (Some (mkToy toy_salt 2)) 2 2 [["A"%byte]] in
  let c' := step init_conn
                 (WsMessage (stream_good ++ frame_tampered ++ toy_seal 3 ["B"%byte])) in
  0 < TAG_SIZE
  /\ feed (dec init_conn) stream_good = (Proceed, d1)
  /\ rx d1 = Some []
  /\ decipher d1 = Some (mkToy toy_salt 2)
  /\ length frame_tampered = cipherTextSize d1 + TAG_SIZE
  /\ AEAD_decrypt (mkToy toy_salt 2)
       (firstn (cipherTextSize d1) frame_tampered)
       (skipn (cipherTextSize d1) frame_tampered)
     = (None, mkToy toy_salt 2)
  /\ (terminated (ws c') = true
      /\ dec c' = with_decipher (Some (mkToy toy_salt 2)) d1
      /\ payloads (dec c') = payloads d1
      /\ rx (dec c') = Some []
      /\ remote c' = remote init_conn /\ stage c' = stage init_conn
      /\ awaiting c' = awaiting init_conn
      /\ forall ms,
          write_log (run c' (WsClose :: map WsMessage ms)) = write_log init_conn
          /\ payloads (dec (run c' (WsClose :: map WsMessage ms))) = payloads d1).
Proof.
  cbv zeta.
  split; [exact toy_tag_pos|].
  split; [reflexivity|].
  do 4 (split; [reflexivity|]).
  apply (@auth_failure_ends_the_run toy_crypto toy_util toy_tag_pos init_conn
           stream_good frame_tampered (toy_seal 3 ["B"%byte])
           (@mkDec toy_crypto (Some []) (Some (mkToy toy_salt 2)) 2 2 [["A"%byte]])
           (mkToy toy_salt 2) (mkToy toy_salt 2));
    reflexivity.
Defined.

(** A stream whose frames all verify, cut in three. *)
Example split_agnostic_on_a_stream :
  let chunks := [firstn 20 stream_header_A_then_B;
                 firstn 50 (skipn 20 stream_header_A_then_B);
                 skipn 70 stream_header_A_then_B] in
  fst (feed init_dec (concat chunks)) <> AuthFailure
  /\ payloads (feed_all init_dec chunks) = [header_ipv4 ++ ["A"%byte]; ["B"%byte]]
  /\ feed_all init_dec chunks = snd (feed init_dec (concat chunks)).
Proof.
  cbv zeta.
  assert (Hok : fst (feed init_dec
                       (concat [firstn 20 stream_header_A_then_B;
                                firstn 50 (skipn 20 stream_header_A_then_B);
                                skipn 70 stream_header_A_then_B])) <> AuthFailure).
  { assert (E : fst (feed init_dec
                       (concat [firstn 20 stream_header_A_then_B;
                                firstn 50 (skipn 20 stream_header_A_then_B);
                                skipn 70 stream_header_A_then_B])) = Proceed)
      by reflexivity.
    rewrite E. discriminate. }
  split; [exact Hok|]. split; [reflexivity|].
  apply (@split_agnostic_without_failure toy_crypto toy_tag_pos toy_keeps_length
           _ Hok).
  discriminate.
Qed.

(** The round trip for the toy cipher and the plaintexts "hi" and "!". *)
Lemma C6_round_trip_witness :
  let ps := [["h"%byte; "i"%byte]; ["!"%byte]] in
  let server := run (run init_conn [WsMessage stream_hello])
                    (ConnectResolved [] toy_salt :: map RemoteData ps) in
  aead_opens_sealed
  /\ length toy_salt = SALT_SIZE
  /\ awaiting (run init_conn [WsMessage stream_hello])
     = Some (AwaitConnect 80 (inet_ntoa [x7f; x00; x00; x01]))
  /\ readyState (ws (run init_conn [WsMessage stream_hello])) = WS_OPEN
  /\ Forall (fun p : bytes => 1 <= length p <= MAX_PAYLOAD) ps
  /\ exists e d,
      feed init_dec (concat (sent (ws server))) = (e, d)
      /\ (e = Proceed \/ e = Returned)
      /\ payloads d = ps.
Proof.
  cbv zeta.
  assert (Hps : Forall (fun p : bytes => 1 <= length p <= MAX_PAYLOAD)
                       [["h"%byte; "i"%byte]; ["!"%byte]]).
  { repeat apply Forall_cons; try apply Forall_nil;
      unfold MAX_PAYLOAD; cbn [length]; lia. }
  split; [exact toy_opens_sealed|].
  split; [reflexivity|].
  split; [reflexivity|].
  split; [reflexivity|].
  split; [exact Hps|].
  apply (@C6_round_trip toy_crypto toy_util toy_opens_sealed
           [WsMessage stream_hello] 80 (inet_ntoa [x7f; x00; x00; x01]) [] toy_salt
           [["h"%byte; "i"%byte]; ["!"%byte]]);
    [reflexivity | reflexivity | reflexivity | exact Hps].
Defined.

(** The egress theorem for the toy cipher: two inputs from the remote, a
    message from the client and a send completion in between. *)
Lemma C7_salt_once_then_frames_witness :
  let c1 := step (run init_conn [WsMessage stream_hello]) (ConnectResolved [] toy_salt) in
  let es' := [RemoteData ["h"%byte; "i"%byte]; WsMessage (toy_seal 2 [x00; x01]);
              RemoteData ["!"%byte]; WsSendDone] in
  awaiting (run init_conn [WsMessage stream_hello])
  = Some (AwaitConnect 80 (inet_ntoa [x7f; x00; x00; x01]))
  /\ readyState (ws (run init_conn [WsMessage stream_hello])) = WS_OPEN
  /\ ~ In WsClose es'
  /\ (sent (ws c1) = []
      /\ sent (ws (run c1 es'))
         = spec_messages toy_salt (AEAD_new (hkdfSync KEY toy_salt))
                         (remote_inputs es')).
Proof.
  cbv zeta.
  assert (Hnc : ~ In WsClose [RemoteData ["h"%byte; "i"%byte];
                              WsMessage (toy_seal 2 [x00; x01]);
                              RemoteData ["!"%byte]; WsSendDone]).
  { intros H. repeat (destruct H as [H|H]; [discriminate|]). exact H. }
  split; [reflexivity|].
  split; [reflexivity|].
  split; [exact Hnc|].
  apply (@C7_salt_once_then_frames toy_crypto toy_util
           [WsMessage stream_hello] 80 (inet_ntoa [x7f; x00; x00; x01]) [] toy_salt);
    [reflexivity | reflexivity | exact Hnc].
Defined.

End ToyWitnesses.

(** * Further properties of the handlers *)

(** ** The stage *)

Section StageMoves.
Context {crypto : Crypto} {util : Util}.

Lemma drain_from_stage (ps : list bytes) (c : Conn) :
  (stage (drain_from ps c) = OPEN \/ stage (drain_from ps c) = stage c)
  /\ to (drain_from ps c) = to c.
Proof.
  revert c. induction ps as [|p ps IH]; intros c; [cbn; auto|].
  cbn [drain_from]. destruct (remote c) as [s|]; [|cbn; auto].
  unfold sock_write. destruct (hd true (accepts s)); [|cbn; auto].
  match goal with |- context [drain_from ps ?x] => destruct (IH x) as [H1 H2] end.
  split; [exact H1|exact H2].
Qed.

Lemma on_message_stage (c : Conn) (data : bytes) :
  stage_next (stage c) (stage (on_message c data))
  /\ (stage c <> CLOSED -> to (on_message c data) = to c).
Proof.
  assert (Hrefl : forall s, stage_next s s) by (intros []; exact I).
  unfold on_message. destruct (feed (dec c) data) as [[| | |f] d];
    try (split; [apply Hrefl|reflexivity]).
  unfold consume. change (payloads (dec (with_dec d c))) with (payloads d).
  destruct (payloads d) as [|address queued]; [split; [apply Hrefl|reflexivity]|].
  change (stage (with_dec d c)) with (stage c).
  destruct (stage c) eqn:Es.
  - split; [|congruence].
    destruct (parse_address address) as [addr port [|b rest]| |f]; exact I.
  - split; [cbn; rewrite Es; exact I|reflexivity].
  - destruct (drain_from_stage (payloads (dec (with_stage WRITING (with_dec d c))))
                (with_stage WRITING (with_dec d c))) as [[H|H] Ht];
      unfold drain; rewrite H; (split; [exact I|intros _; exact Ht]).
  - split; [cbn; rewrite Es; exact I|reflexivity].
Qed.

Lemma on_ws_close_stage (c : Conn) :
  stage (on_ws_close c) = stage c /\ to (on_ws_close c) = to c.
Proof.
  unfold on_ws_close.
  destruct (remote c) as [s|]; [destruct (destroyed s)|]; split; reflexivity.
Qed.

Lemma on_remote_stage (f : Socket -> Socket) (c : Conn) :
  stage (on_remote f c) = stage c /\ to (on_remote f c) = to c.
Proof. unfold on_remote. destruct (remote c); split; reflexivity. Qed.

(** X1.  In every state a connection reaches, one handler run moves the
    stage only along CLOSED -> OPENING -> (OPEN <-> WRITING): it never goes
    back to CLOSED and never leaves OPEN or WRITING for OPENING; and once
    the stage has left CLOSED the target [to] is never changed. *)
Theorem stage_moves_forward (es : list Event) (e : Event) :
  let c := run init_conn es in
  stage_next (stage c) (stage (step c e))
  /\ (stage c <> CLOSED -> to (step c e) = to c).
Proof.
  intros c. pose proof (run_inv init_conn es init_conn_inv) as [Hst _].
  fold c in Hst. clearbody c. unfold stage_inv in Hst.
  assert (Hsame : forall c', stage c' = stage c -> to c' = to c ->
            stage_next (stage c) (stage c')
            /\ (stage c <> CLOSED -> to c' = to c)).
  { intros c' H1 H2. rewrite H1. split; [destruct (stage c); exact I|auto]. }
  assert (Hdrain : forall x, stage c <> CLOSED ->
            stage x = WRITING -> to x = to c ->
            stage_next (stage c) (stage (drain x))
            /\ (stage c <> CLOSED -> to (drain x) = to c)).
  { intros x Hc Hx Ht.
    destruct (drain_from_stage (payloads (dec x)) x) as [[H|H] Ht'];
      unfold drain; rewrite H, Ht', ?Hx; (split; [|auto]);
      destruct (stage c); try exact I; congruence. }
  destruct e; cbn [step].
  - apply on_message_stage.
  - match goal with
    | |- context [on_ws_close ?x] => apply Hsame; apply (on_ws_close_stage x)
    end.
  - destruct (handlers c); [|now apply Hsame].
    apply Hsame; apply on_remote_stage.
  - destruct (awaiting c) as [[port addr|]|] eqn:Ea; try (now apply Hsame).
    assert (Es : stage c = OPENING) by (destruct (stage c); intuition congruence).
    unfold connect_resolved.
    change (readyState (ws (ws_resume (with_remote (Some (new_socket answers))
              (with_awaiting None c))))) with (readyState (ws c)).
    change (tx (enc (ws_resume (with_remote (Some (new_socket answers))
              (with_awaiting None c))))) with (tx (enc c)).
    destruct (readyState (ws c)); try (now apply Hsame).
    destruct (tx (enc c)); [|now apply Hsame].
    apply Hdrain; [congruence|reflexivity|reflexivity].
  - destruct (awaiting c) as [[port addr|]|]; now apply Hsame.
  - destruct (handlers c); [|now apply Hsame]. unfold on_remote_data.
    destruct (encrypt_chunks (length data) (enc c) data) as [[| | |f] en];
      try (now apply Hsame).
    change (remote (with_enc en c)) with (remote c).
    destruct (remote c); [destruct (tx en)|]; now apply Hsame.
  - destruct (awaiting c) as [[port addr|]|] eqn:Ea; try (now apply Hsame).
    assert (Es : stage c = WRITING) by (destruct (stage c); intuition congruence).
    unfold drain_resumed. apply Hdrain; [congruence|exact Es|reflexivity].
  - destruct (handlers c); now apply Hsame.
  - destruct (handlers c); [|now apply Hsame].
    apply Hsame; apply on_remote_stage.
  - destruct (handlers c); [|now apply Hsame]. unfold on_remote_close.
    destruct (readyState (ws c)); now apply Hsame.
Qed.

End StageMoves.

(** ** What the decrypt loop keeps *)

Section FramerKeeps.
Context {crypto : Crypto}.

Lemma framed_skip (K : AEAD -> Prop) (n : nat) (body p : bytes) :
  framed K (skipn n body) p -> framed K body p.
Proof.
  intros (a & a' & ct & tag & pre & post & Hs & Hl & Hk & Hd).
  exists a, a', ct, tag, (firstn n body ++ pre), post.
  split; [|auto].
  rewrite <- app_assoc, <- Hs. symmetry. apply firstn_skipn.
Qed.

Lemma framed_app (K : AEAD -> Prop) (l r body p : bytes) :
  framed K body p -> framed K (l ++ body ++ r) p.
Proof.
  intros (a & a' & ct & tag & pre & post & Hs & Hl & Hk & Hd).
  exists a, a', ct, tag, (l ++ pre), (post ++ r).
  split; [|auto]. subst body. now rewrite <- !app_assoc.
Qed.

(** What the loop keeps, whatever it is given: [cipherTextSize] is two at
    every length chunk, [chunkIndex] does not go down, the decipher stays
    one of those [K] holds of, and [payloads] only grows, by plaintexts the
    decipher returned for frames of the buffer. *)
Lemma decrypt_chunks_keeps (K : AEAD -> Prop) (f : nat) (d : DecCtx) (data : bytes) :
  (forall a ct tag, K a -> K (snd (AEAD_decrypt a ct tag))) ->
  (forall a, decipher d = Some a -> K a) ->
  ((Nat.even (chunkIndex d) = true -> cipherTextSize d = 2) ->
   Nat.even (chunkIndex (snd (decrypt_chunks f d data))) = true ->
   cipherTextSize (snd (decrypt_chunks f d data)) = 2)
  /\ chunkIndex d <= chunkIndex (snd (decrypt_chunks f d data))
  /\ (forall a, decipher (snd (decrypt_chunks f d data)) = Some a -> K a)
  /\ exists new,
      payloads (snd (decrypt_chunks f d data)) = payloads d ++ new
      /\ Forall (framed K data) new.
Proof.
  intros HK. revert d data. induction f as [|f IH]; intros d data Hd0.
  - destruct data; cbn; (split; [auto|split; [lia|split; [auto|]]]);
      exists []; rewrite app_nil_r; auto.
  - destruct data as [|b data].
    { cbn. split; [auto|split; [lia|split; [auto|]]].
      exists []. rewrite app_nil_r. auto. }
    set (x := b :: data) in *.
    assert (Hne : x <> []) by discriminate.
    assert (Hstop : forall e d', decrypt_chunks (S f) d x = (e, d') ->
              cipherTextSize d' = cipherTextSize d -> chunkIndex d' = chunkIndex d ->
              payloads d' = payloads d ->
              (forall a, decipher d' = Some a -> K a) ->
              ((Nat.even (chunkIndex d) = true -> cipherTextSize d = 2) ->
               Nat.even (chunkIndex (snd (decrypt_chunks (S f) d x))) = true ->
               cipherTextSize (snd (decrypt_chunks (S f) d x)) = 2)
              /\ chunkIndex d <= chunkIndex (snd (decrypt_chunks (S f) d x))
              /\ (forall a, decipher (snd (decrypt_chunks (S f) d x)) = Some a -> K a)
              /\ exists new,
                  payloads (snd (decrypt_chunks (S f) d x)) = payloads d ++ new
                  /\ Forall (framed K x) new).
    { intros e d' E H1 H2 H3 H4. rewrite E. cbn [snd]. rewrite H1, H2, H3.
      split; [auto|split; [lia|split; [exact H4|]]].
      exists []. rewrite app_nil_r. auto. }
    destruct (Nat.lt_ge_cases (length x) (cipherTextSize d + TAG_SIZE)) as [Hlt|Hge].
    + destruct (rx d) as [r|] eqn:Hrx.
      * eapply Hstop; [apply (decrypt_chunks_short _ d x r Hne Hlt Hrx)|..];
          try reflexivity. exact Hd0.
      * eapply Hstop; [|reflexivity..|exact Hd0].
        subst x. cbn [decrypt_chunks]. apply Nat.ltb_lt in Hlt.
        rewrite Hlt, Hrx. reflexivity.
    + destruct (decipher d) as [a|] eqn:Hd.
      * pose proof (decrypt_chunks_frame f d x a Hne Hge Hd) as E.
        pose proof (Hd0 a eq_refl) as Ka.
        pose proof (HK a (firstn (cipherTextSize d) x)
                      (firstn TAG_SIZE (skipn (cipherTextSize d) x)) Ka) as Ka'.
        destruct (AEAD_decrypt a (firstn (cipherTextSize d) x)
                    (firstn TAG_SIZE (skipn (cipherTextSize d) x)))
          as [[pt|] a'] eqn:Edec; cbn [snd] in Ka'.
        2:{ eapply Hstop; [exact E|reflexivity..|].
            cbn. intros a0 [= <-]. exact Ka'. }
        assert (Hv : framed K x pt).
        { exists a, a', (firstn (cipherTextSize d) x),
            (firstn TAG_SIZE (skipn (cipherTextSize d) x)), [],
            (skipn TAG_SIZE (skipn (cipherTextSize d) x)).
          split; [|split; [|split; [exact Ka|exact Edec]]].
          - cbn [app]. now rewrite !firstn_skipn.
          - rewrite length_firstn, length_skipn. lia. }
        destruct (Nat.even (chunkIndex d)) eqn:Ev.
        -- destruct (readUInt16BE pt 0) as [n|].
           2:{ eapply Hstop; [exact E|reflexivity..|].
               cbn. intros a0 [= <-]. exact Ka'. }
           rewrite E.
           match goal with
           | |- context [decrypt_chunks f ?d2 ?y] =>
             destruct (IH d2 y) as (H1 & H2 & H5 & new & H3 & H4)
           end.
           { cbn. intros a0 [= <-]. exact Ka'. }
           split; [|split; [|split; [exact H5|]]].
           ++ intros _. apply H1. cbn [chunkIndex incr_chunkIndex with_cipherTextSize
                                      with_decipher].
              rewrite Nat.even_succ, <- Nat.negb_even, Ev. discriminate.
           ++ cbn in H2. lia.
           ++ exists new. split; [exact H3|].
              eapply Forall_impl; [|exact H4]. intros p. apply framed_skip.
        -- rewrite E.
           match goal with
           | |- context [decrypt_chunks f ?d2 ?y] =>
             destruct (IH d2 y) as (H1 & H2 & H5 & new & H3 & H4)
           end.
           { cbn. intros a0 [= <-]. exact Ka'. }
           split; [|split; [|split; [exact H5|]]].
           ++ intros _. apply H1. reflexivity.
           ++ cbn in H2. lia.
           ++ exists (pt :: new). split.
              ** rewrite H3. cbn. now rewrite <- app_assoc.
              ** constructor; [exact Hv|].
                 eapply Forall_impl; [|exact H4]. intros p. apply framed_skip.
      * eapply Hstop; [|reflexivity..|intros a0 Ha0; congruence].
        subst x. cbn [decrypt_chunks]. apply Nat.ltb_ge in Hge.
        rewrite Hge, Hd. reflexivity.
Qed.

(** With [rx] empty at its start, the loop leaves in [rx] an end of the
    buffer, and changes [rx] in no other way. *)
Lemma decrypt_chunks_pending (f : nat) (d : DecCtx) (data : bytes) :
  rx d = Some [] ->
  exists pre, data = pre ++ pending (snd (decrypt_chunks f d data)).
Proof.
  revert d data. induction f as [|f IH]; intros d data Hrx.
  - exists data. destruct data; cbn; unfold pending; rewrite Hrx;
      cbn; now rewrite ?app_nil_r.
  - destruct data as [|b data].
    { exists []. cbn. unfold pending. now rewrite Hrx. }
    set (x := b :: data) in *.
    assert (Hne : x <> []) by discriminate.
    assert (Hstop : forall e d', decrypt_chunks (S f) d x = (e, d') ->
              rx d' = rx d ->
              exists pre, x = pre ++ pending (snd (decrypt_chunks (S f) d x))).
    { intros e d' E H1. rewrite E. cbn [snd]. exists x.
      unfold pending. rewrite H1, Hrx. cbn. now rewrite app_nil_r. }
    destruct (Nat.lt_ge_cases (length x) (cipherTextSize d + TAG_SIZE)) as [Hlt|Hge].
    + rewrite (decrypt_chunks_short _ d x [] Hne Hlt Hrx). exists [].
      cbn. now rewrite app_nil_r.
    + destruct (decipher d) as [a|] eqn:Hd.
      * pose proof (decrypt_chunks_frame f d x a Hne Hge Hd) as E.
        destruct (AEAD_decrypt a (firstn (cipherTextSize d) x)
                    (firstn TAG_SIZE (skipn (cipherTextSize d) x)))
          as [[pt|] a'] eqn:Edec.
        2:{ eapply Hstop; [exact E|reflexivity]. }
        destruct (Nat.even (chunkIndex d)) eqn:Ev.
        -- destruct (readUInt16BE pt 0) as [n|].
           2:{ eapply Hstop; [exact E|reflexivity]. }
           rewrite E.
           match goal with
           | |- context [decrypt_chunks f ?d2 ?y] =>
             destruct (IH d2 y Hrx) as (pre & Hpre)
           end.
           exists (firstn (cipherTextSize d + TAG_SIZE) x ++ pre).
           rewrite <- app_assoc, <- Hpre. symmetry. apply firstn_skipn.
        -- rewrite E.
           match goal with
           | |- context [decrypt_chunks f ?d2 ?y] =>
             destruct (IH d2 y Hrx) as (pre & Hpre)
           end.
           exists (firstn (cipherTextSize d + TAG_SIZE) x ++ pre).
           rewrite <- app_assoc, <- Hpre. symmetry. apply firstn_skipn.
      * eapply Hstop; [|reflexivity].
        subst x. cbn [decrypt_chunks]. apply Nat.ltb_ge in Hge.
        rewrite Hge, Hd. reflexivity.
Qed.

End FramerKeeps.

(** ** The framer and the bytes received *)

Section FeedKeeps.
Context {crypto : Crypto}.

Lemma feed_grows (d : DecCtx) (data : bytes) :
  ((Nat.even (chunkIndex d) = true -> cipherTextSize d = 2) ->
   Nat.even (chunkIndex (snd (feed d data))) = true ->
   cipherTextSize (snd (feed d data)) = 2)
  /\ chunkIndex d <= chunkIndex (snd (feed d data))
  /\ exists new, payloads (snd (feed d data)) = payloads d ++ new.
Proof.
  assert (Hnone : forall d', cipherTextSize d' = cipherTextSize d ->
            chunkIndex d' = chunkIndex d -> payloads d' = payloads d ->
            ((Nat.even (chunkIndex d) = true -> cipherTextSize d = 2) ->
             Nat.even (chunkIndex d') = true -> cipherTextSize d' = 2)
            /\ chunkIndex d <= chunkIndex d'
            /\ exists new, payloads d' = payloads d ++ new).
  { intros d' H1 H2 H3. rewrite H1, H2, H3. split; [auto|split; [lia|]].
    exists []. now rewrite app_nil_r. }
  destruct (rx d) as [r|] eqn:Er.
  2:{ unfold feed. rewrite Er. now apply Hnone. }
  rewrite (feed_norm d r data Er). unfold init_and_decrypt.
  cbn [decipher with_rx rx].
  set (d0 := with_rx (Some []) d). set (s := pending d ++ data).
  destruct (decipher d) as [a|] eqn:Ed.
  - destruct (decrypt_chunks_keeps (fun _ => True) (length s) d0 s)
      as (H1 & H2 & _ & new & H3 & _); auto.
    split; [exact H1|split; [exact H2|]]. exists new. exact H3.
  - destruct (length s <? SALT_SIZE); [now apply Hnone|].
    match goal with
    | |- context [decrypt_chunks ?n ?dd ?y] =>
      destruct (decrypt_chunks_keeps (fun _ => True) n dd y)
        as (H1 & H2 & _ & new & H3 & _)
    end; auto.
    split; [exact H1|split; [exact H2|]]. exists new. exact H3.
Qed.

Lemma pending_none (d : DecCtx) : rx d = None -> pending d = [].
Proof. unfold pending. now intros ->. Qed.

(** One message more: the context still follows the bytes received, and
    what the message adds to [payloads] are verified plaintexts of them. *)
Lemma feed_tracks (stream : bytes) (d : DecCtx) (data : bytes) :
  framer_tracks stream d ->
  framer_tracks (stream ++ data) (snd (feed d data))
  /\ exists new,
      payloads (snd (feed d data)) = payloads d ++ new
      /\ Forall (verified_in (stream ++ data)) new.
Proof.
  intros [Hnone Hsome].
  destruct (rx d) as [r|] eqn:Er.
  2:{ unfold feed. rewrite Er. cbn [snd]. split.
      - split; [intros _ H; congruence|].
        intros a Ha. destruct (Hsome a Ha) as (salt & pre & Hs & Hl & Hk).
        exists salt, (pre ++ data). rewrite (pending_none d Er) in *.
        rewrite Hs. now rewrite !app_nil_r, <- !app_assoc.
      - exists []. rewrite app_nil_r. auto. }
  rewrite (feed_norm d r data Er). unfold init_and_decrypt.
  cbn [decipher with_rx rx].
  set (d0 := with_rx (Some []) d). set (s := pending d ++ data).
  assert (Hrx0 : rx d0 = Some []) by reflexivity.
  assert (Hgo : forall salt pre body f d1,
             stream ++ data = salt ++ pre ++ body -> length salt = SALT_SIZE ->
             rx d1 = Some [] -> payloads d1 = payloads d ->
             (exists a, decipher d1 = Some a /\ keyed_by salt a) ->
             framer_tracks (stream ++ data) (snd (decrypt_chunks f d1 body))
             /\ exists new,
                 payloads (snd (decrypt_chunks f d1 body)) = payloads d ++ new
                 /\ Forall (verified_in (stream ++ data)) new).
  { intros salt pre body f d1 Hs Hl Hrx1 Hp1 (a & Ha & Hk).
    destruct (decrypt_chunks_keeps (keyed_by salt) f d1 body)
      as (_ & _ & H5 & new & H3 & H4).
    { intros. now apply keyed_next. }
    { intros a0 Ha0. congruence. }
    destruct (decrypt_chunks_pending f d1 body Hrx1) as (pre' & Hpre').
    destruct (decrypt_chunks_shape f d1 body) as (_ & Hdec & _);
      [congruence|congruence|].
    split; [split|].
    - intros H. contradiction.
    - intros a1 Ha1. exists salt, (pre ++ pre'). split; [|split; [exact Hl|auto]].
      rewrite Hs. rewrite Hpre' at 1. now rewrite <- !app_assoc.
    - exists new. split; [now rewrite H3, Hp1|].
      eapply Forall_impl; [|exact H4]. intros p Hp.
      exists salt, (pre ++ body). split; [exact Hs|split; [exact Hl|]].
      rewrite <- (app_nil_r body). now apply framed_app. }
  destruct (decipher d) as [a|] eqn:Ed.
  - destruct (Hsome a eq_refl) as (salt & pre & Hs & Hl & Hk).
    apply (Hgo salt pre s (length s) d0); auto.
    + rewrite Hs. unfold s. now rewrite <- !app_assoc.
    + exists a. split; [exact Ed|exact Hk].
  - assert (Hst : pending d = stream) by (apply Hnone; congruence).
    destruct (length s <? SALT_SIZE) eqn:El.
    + cbn. split; [split|].
      * intros _ _. unfold pending. cbn. rewrite app_nil_r. unfold s.
        now rewrite Hst.
      * intros a Ha. cbn in Ha. congruence.
      * exists []. rewrite app_nil_r. auto.
    + apply Nat.ltb_ge in El.
      apply (Hgo (subarray s 0 SALT_SIZE) [] (skipn SALT_SIZE s)); auto.
      * cbn [app]. unfold subarray. rewrite Nat.sub_0_r. cbn [skipn].
        rewrite firstn_skipn. unfold s. now rewrite Hst.
      * unfold subarray. rewrite Nat.sub_0_r. cbn [skipn].
        rewrite length_firstn. lia.
      * eexists. split; [reflexivity|]. apply keyed_new.
Qed.

End FeedKeeps.

(** ** The payloads on their way to the remote *)

Section RelayKeeps.
Context {crypto : Crypto} {util : Util}.

Lemma drain_from_relayed (ps : list bytes) (c : Conn) :
  payloads (dec c) = ps ->
  relayed (drain_from ps c) = relayed c
  /\ framer_state (dec (drain_from ps c)) = framer_state (dec c).
Proof.
  revert c. induction ps as [|p ps IH]; intros c Hp.
  - cbn. split; reflexivity.
  - cbn [drain_from]. destruct (remote c) as [s|] eqn:Er.
    2:{ split; reflexivity. }
    unfold sock_write.
    set (c1 := with_remote _ _).
    assert (H1 : relayed c1 = relayed c
                 /\ framer_state (dec c1) = framer_state (dec c)).
    { unfold relayed, write_log, c1. cbn. rewrite Er, Hp, map_app. cbn.
      rewrite <- app_assoc. split; reflexivity. }
    destruct (hd true (accepts s)).
    + destruct (IH c1 eq_refl) as [H2 H3]. destruct H1 as [H1 H4].
      split; congruence.
    + exact H1.
Qed.

Lemma drain_relayed (c : Conn) :
  relayed (drain c) = relayed c
  /\ framer_state (dec (drain c)) = framer_state (dec c).
Proof. apply drain_from_relayed. reflexivity. Qed.

Lemma consume_framer (c : Conn) :
  framer_state (dec (consume c)) = framer_state (dec c).
Proof.
  unfold consume. destruct (payloads (dec c)) as [|address queued]; [reflexivity|].
  destruct (stage c); try reflexivity.
  - destruct (parse_address address) as [addr port rest| |f]; try reflexivity.
    destruct rest; reflexivity.
  - now destruct (drain_relayed (with_stage WRITING c)) as [_ ->].
Qed.

Lemma consume_relayed_open (c : Conn) :
  stage c <> CLOSED -> relayed (consume c) = relayed c.
Proof.
  intros Hs. unfold consume.
  destruct (payloads (dec c)) as [|address queued]; [reflexivity|].
  destruct (stage c); try reflexivity; [contradiction|].
  now destruct (drain_relayed (with_stage WRITING c)) as [-> _].
Qed.

(** In CLOSED, with no remote yet, the run takes the header off the
    queue. *)
Lemma consume_closed (c : Conn) :
  stage c = CLOSED -> remote c = None ->
  relayed (consume c) = after_header (payloads (dec c))
  /\ (payloads (dec c) <> [] -> stage (consume c) = OPENING).
Proof.
  intros Hs Hr. unfold consume, after_header.
  destruct (payloads (dec c)) as [|address queued] eqn:Ep.
  - unfold relayed, write_log. rewrite Hr, Ep. split; [reflexivity|congruence].
  - rewrite Hs.
    destruct (parse_address address) as [addr port [|b rest]| |f];
      unfold relayed, write_log; cbn; rewrite Hr; split; reflexivity.
Qed.

Lemma consume_stage_closed (c : Conn) :
  stage (consume c) = CLOSED -> stage c = CLOSED /\ consume c = c.
Proof.
  unfold consume. destruct (payloads (dec c)) as [|address queued]; [auto|].
  destruct (stage c) eqn:Es.
  - destruct (parse_address address) as [addr port [|b rest]| |f]; discriminate.
  - intros H. congruence.
  - destruct (drain_from_stage (payloads (dec (with_stage WRITING c)))
                (with_stage WRITING c)) as [[H|H] _];
      unfold drain; rewrite H; discriminate.
  - intros H. congruence.
Qed.

Lemma on_message_framer (c : Conn) (data : bytes) :
  framer_state (dec (on_message c data)) = framer_state (snd (feed (dec c) data)).
Proof.
  unfold on_message. destruct (feed (dec c) data) as [[| | |f] d]; cbn [snd];
    try reflexivity.
  apply consume_framer.
Qed.

Lemma on_message_relayed_open (c : Conn) (data : bytes) :
  stage c <> CLOSED ->
  relayed (on_message c data)
  = map fst (write_log c) ++ payloads (snd (feed (dec c) data)).
Proof.
  intros Hs. unfold on_message.
  destruct (feed (dec c) data) as [[| | |f] d]; cbn [snd]; try reflexivity.
  now rewrite consume_relayed_open.
Qed.

(** An event other than a message leaves the payloads where they are and
    the framer's variables as they are, but for the ['close'] of the
    WebSocket, which sets [rx] and [decipher] to null. *)
Lemma step_other (c : Conn) (e : Event) :
  conn_inv c ->
  (forall data, e <> WsMessage data) ->
  relayed (step c e) = relayed c
  /\ cipherTextSize (dec (step c e)) = cipherTextSize (dec c)
  /\ chunkIndex (dec (step c e)) = chunkIndex (dec c)
  /\ (e <> WsClose -> framer_state (dec (step c e)) = framer_state (dec c))
  /\ (e = WsClose -> rx (dec (step c e)) = None /\ decipher (dec (step c e)) = None).
Proof.
  intros [Hst _] Hm.
  assert (Hsame : forall c', relayed c' = relayed c ->
            framer_state (dec c') = framer_state (dec c) ->
            e <> WsClose ->
            relayed c' = relayed c
            /\ cipherTextSize (dec c') = cipherTextSize (dec c)
            /\ chunkIndex (dec c') = chunkIndex (dec c)
            /\ (e <> WsClose -> framer_state (dec c') = framer_state (dec c))
            /\ (e = WsClose -> rx (dec c') = None /\ decipher (dec c') = None)).
  { intros c' H1 H2 H3. unfold framer_state in H2. injection H2 as E1 E2 E3 E4.
    repeat split; try assumption; try contradiction.
    intros _. unfold framer_state. congruence. }
  destruct e; cbn [step].
  - exfalso. now apply (Hm data).
  - unfold on_ws_close, relayed, write_log. cbn.
    destruct (remote c) as [s|] eqn:Er; [destruct (destroyed s)|]; cbn;
      rewrite ?Er; repeat split; try reflexivity; intros H; now elim H.
  - apply Hsame; [| |discriminate];
      destruct (handlers c); try reflexivity; unfold on_remote;
      destruct (remote c) as [s|] eqn:Er; try reflexivity.
    unfold relayed, write_log. cbn. now rewrite Er.
  - destruct (awaiting c) as [[port addr|]|] eqn:Ea;
      try (apply Hsame; [reflexivity|reflexivity|discriminate]).
    assert (Er : remote c = None).
    { unfold stage_inv in Hst. rewrite Ea in Hst.
      destruct (stage c); intuition congruence. }
    assert (Hc1 : forall s, relayed (ws_resume (with_remote (Some s) (with_awaiting None c)))
                            = map fst (writes s) ++ payloads (dec c)) by reflexivity.
    assert (Hrel : relayed c = payloads (dec c)).
    { unfold relayed, write_log. now rewrite Er. }
    destruct (readyState (ws c)) eqn:Ers.
    + destruct (tx (enc c)) as [t|] eqn:Et.
      * rewrite (connect_resolved_open answers salt c t Ers Et).
        match goal with |- context [drain ?x] =>
          destruct (drain_relayed x) as [H1 H2] end.
        apply Hsame; [rewrite H1, Hrel; reflexivity|rewrite H2; reflexivity
                     |discriminate].
      * apply Hsame; [| |discriminate];
          unfold connect_resolved; cbn; rewrite Ers, Et;
          [now rewrite Hrel|reflexivity].
    + rewrite (connect_resolved_not_open answers salt c) by congruence.
      apply Hsame; [now rewrite Hrel|reflexivity|discriminate].
    + rewrite (connect_resolved_not_open answers salt c) by congruence.
      apply Hsame; [now rewrite Hrel|reflexivity|discriminate].
  - destruct (awaiting c) as [[port addr|]|] eqn:Ea;
      apply Hsame; try reflexivity; discriminate.
  - destruct (handlers c); [|apply Hsame; try reflexivity; discriminate].
    apply Hsame; [| |discriminate]; unfold on_remote_data;
      destruct (encrypt_chunks (length data) (enc c) data) as [[| | |f] e1];
      try reflexivity; cbn [remote with_enc];
      destruct (remote c) as [s|] eqn:Er; try reflexivity;
      destruct (tx e1); try reflexivity.
    all: unfold relayed, write_log; cbn; now rewrite ?Er.
  - destruct (awaiting c) as [[port addr|]|] eqn:Ea;
      try (apply Hsame; [reflexivity|reflexivity|discriminate]).
    unfold drain_resumed.
    match goal with |- context [drain ?x] =>
      destruct (drain_relayed x) as [H1 H2] end.
    apply Hsame; [rewrite H1; reflexivity|rewrite H2; reflexivity|discriminate].
  - destruct (handlers c); apply Hsame; try reflexivity; discriminate.
  - apply Hsame; [| |discriminate];
      destruct (handlers c); try reflexivity; unfold on_remote;
      destruct (remote c) as [s|] eqn:Er; try reflexivity.
    unfold relayed, write_log. cbn. now rewrite Er.
  - destruct (handlers c); [|apply Hsame; try reflexivity; discriminate].
    unfold on_remote_close.
    destruct (readyState (ws c)); apply Hsame; try reflexivity; discriminate.
Qed.

(** No handler run takes the stage back to CLOSED. *)
Lemma step_stage_closed (c : Conn) (e : Event) :
  stage (step c e) = CLOSED -> stage c = CLOSED.
Proof.
  assert (Hdrain : forall x, stage x <> CLOSED -> stage (drain x) <> CLOSED).
  { intros x Hx.
    destruct (drain_from_stage (payloads (dec x)) x) as [[H|H] _];
      unfold drain; rewrite H; [discriminate|exact Hx]. }
  destruct e; cbn [step].
  - unfold on_message. destruct (feed (dec c) data) as [[| | |f] d]; auto.
    intros H. now destruct (consume_stage_closed (with_dec d c) H).
  - match goal with
    | |- context [on_ws_close ?x] => now rewrite (proj1 (on_ws_close_stage x))
    end.
  - destruct (handlers c); [|auto].
    now rewrite (proj1 (on_remote_stage (sock_set_paused false) c)).
  - destruct (awaiting c) as [[port addr|]|]; auto.
    unfold connect_resolved.
    change (readyState (ws (ws_resume (with_remote (Some (new_socket answers))
              (with_awaiting None c))))) with (readyState (ws c)).
    change (tx (enc (ws_resume (with_remote (Some (new_socket answers))
              (with_awaiting None c))))) with (tx (enc c)).
    destruct (readyState (ws c)); auto.
    destruct (tx (enc c)); [|auto].
    intros H. exfalso. revert H. apply Hdrain. discriminate.
  - destruct (awaiting c) as [[port addr|]|]; auto.
  - destruct (handlers c); [|auto]. unfold on_remote_data.
    destruct (encrypt_chunks (length data) (enc c) data) as [[| | |f] en]; auto.
    change (remote (with_enc en c)) with (remote c).
    destruct (remote c); [destruct (tx en)|]; auto.
  - destruct (awaiting c) as [[port addr|]|]; auto.
    unfold drain_resumed. intros H.
    destruct (stage c) eqn:Es; [reflexivity|exfalso..];
      revert H; apply Hdrain; cbn; rewrite Es; discriminate.
  - destruct (handlers c); auto.
  - destruct (handlers c); [|auto].
    now rewrite (proj1 (on_remote_stage sock_end c)).
  - destruct (handlers c); [|auto]. unfold on_remote_close.
    destruct (readyState (ws c)); auto.
Qed.

End RelayKeeps.

(** ** Only verified plaintexts are relayed, in order *)

Section Authentic.
Context {crypto : Crypto} {util : Util}.

Lemma framer_tracks_state (stream : bytes) (d d' : DecCtx) :
  framer_state d' = framer_state d ->
  framer_tracks stream d -> framer_tracks stream d'.
Proof.
  unfold framer_state, framer_tracks, pending. intros [= -> -> _ _]. auto.
Qed.

Lemma verified_in_app (stream data p : bytes) :
  verified_in stream p -> verified_in (stream ++ data) p.
Proof.
  intros (salt & body & -> & Hl & Hf).
  exists salt, (body ++ data). rewrite <- app_assoc.
  split; [reflexivity|split; [exact Hl|]].
  now apply (framed_app _ [] data).
Qed.

Lemma header_rest_app (stream data p : bytes) :
  header_rest stream p -> header_rest (stream ++ data) p.
Proof.
  intros (q & addr & port & Hq & Hp). exists q, addr, port.
  split; [now apply verified_in_app|exact Hp].
Qed.

Lemma authentic_stream (stream data : bytes) (l : list bytes) :
  authentic stream l -> authentic (stream ++ data) l.
Proof.
  assert (Hall : forall l', Forall (verified_in stream) l' ->
                            Forall (verified_in (stream ++ data)) l').
  { intros l' H. eapply Forall_impl; [|exact H]. intros p. apply verified_in_app. }
  intros [H|(l1 & r & l2 & -> & H1 & Hr & H2)]; [left; auto|right].
  exists l1, r, l2. split; [reflexivity|].
  split; [auto|]. split; [now apply header_rest_app|auto].
Qed.

Lemma authentic_more (stream : bytes) (l new : list bytes) :
  authentic stream l -> Forall (verified_in stream) new ->
  authentic stream (l ++ new).
Proof.
  intros [H|(l1 & r & l2 & -> & H1 & Hr & H2)] Hnew.
  - left. apply Forall_app. now split.
  - right. exists l1, r, (l2 ++ new). rewrite <- app_assoc.
    split; [reflexivity|]. split; [exact H1|]. split; [exact Hr|].
    apply Forall_app. now split.
Qed.

Lemma after_header_authentic (stream : bytes) (q : list bytes) :
  Forall (verified_in stream) q -> authentic stream (after_header q).
Proof.
  intros Hq. unfold after_header. destruct q as [|address queued]; [now left|].
  apply Forall_cons_iff in Hq. destruct Hq as [Ha Hq].
  destruct (parse_address address) as [addr port [|b rest]| |f] eqn:Ep;
    try (now left).
  right. exists queued, (b :: rest), []. split; [reflexivity|].
  split; [exact Hq|]. split; [|constructor]. now exists address, addr, port.
Qed.

Lemma ingress_app (es1 es2 : list Event) :
  ingress (es1 ++ es2) = ingress es1 ++ ingress es2.
Proof.
  induction es1 as [|e es1 IH]; [reflexivity|].
  destruct e; cbn; rewrite IH; try reflexivity. now rewrite app_assoc.
Qed.

Lemma step_tracks (stream : bytes) (c : Conn) (e : Event) :
  conn_inv c ->
  framer_tracks stream (dec c) ->
  framer_tracks (stream ++ ingress [e]) (dec (step c e)).
Proof.
  intros Hinv Ht.
  assert (Hother : (forall data, e <> WsMessage data) -> ingress [e] = [] ->
            framer_tracks (stream ++ ingress [e]) (dec (step c e))).
  { intros Hm ->. rewrite app_nil_r.
    destruct (step_other c e Hinv Hm) as (_ & _ & _ & H4 & H5).
    destruct e; try (apply (framer_tracks_state _ (dec c)); [apply H4; discriminate|exact Ht]).
    destruct (H5 eq_refl) as [Hrx Hde]. split; intros; congruence. }
  destruct e; try (apply Hother; [discriminate|reflexivity]).
  cbn [step ingress]. rewrite app_nil_r.
  destruct (feed_tracks stream (dec c) data Ht) as (Ht' & _).
  apply (framer_tracks_state _ (snd (feed (dec c) data))); [|exact Ht'].
  apply on_message_framer.
Qed.

Lemma run_snoc (c : Conn) (es : list Event) (e : Event) :
  run c (es ++ [e]) = step (run c es) e.
Proof. now rewrite run_app. Qed.

Lemma run_tracks (es : list Event) :
  framer_tracks (ingress es) (dec (run init_conn es)).
Proof.
  induction es as [|e es IH] using rev_ind.
  - split; [reflexivity|discriminate].
  - rewrite run_snoc, ingress_app.
    apply step_tracks; [apply run_inv, init_conn_inv|exact IH].
Qed.

(** One message more: what is on its way to the remote stays authentic,
    and whole as long as the header has not been taken off. *)
Lemma on_message_authentic (stream : bytes) (c : Conn) (data : bytes) :
  conn_inv c ->
  framer_tracks stream (dec c) ->
  authentic stream (relayed c) ->
  (stage c = CLOSED -> Forall (verified_in stream) (relayed c)) ->
  authentic (stream ++ data) (relayed (on_message c data))
  /\ (stage (on_message c data) = CLOSED ->
      Forall (verified_in (stream ++ data)) (relayed (on_message c data))).
Proof.
  intros [Hst _] Ht Ha Hc.
  destruct (feed_tracks stream (dec c) data Ht) as (_ & new & Hp & Hnew).
  assert (Hrel : forall d, payloads d = payloads (dec c) ++ new ->
            relayed (with_dec d c) = relayed c ++ new).
  { intros d Hd. unfold relayed, write_log. cbn. rewrite Hd. apply app_assoc. }
  assert (Hall : forall l, Forall (verified_in stream) l ->
                           Forall (verified_in (stream ++ data)) l).
  { intros l H. eapply Forall_impl; [|exact H]. intros p. apply verified_in_app. }
  assert (Hsame : forall c', relayed c' = relayed c ++ new -> stage c' = stage c ->
            authentic (stream ++ data) (relayed c')
            /\ (stage c' = CLOSED ->
                Forall (verified_in (stream ++ data)) (relayed c'))).
  { intros c' H1 H2. rewrite H1, H2. split.
    - apply authentic_more; [now apply authentic_stream|exact Hnew].
    - intros Hs. apply Forall_app. split; [apply Hall; now apply Hc|exact Hnew]. }
  unfold on_message.
  destruct (feed (dec c) data) as [[| | |f] d]; cbn [snd] in Hp;
    try (apply Hsame; [apply (Hrel d Hp)|reflexivity]).
  destruct (stage c) eqn:Es.
  - assert (Hr : remote c = None).
    { unfold stage_inv in Hst. rewrite Es in Hst. tauto. }
    assert (Hq : Forall (verified_in (stream ++ data)) (payloads d)).
    { rewrite Hp. apply Forall_app. split; [|exact Hnew].
      apply Hall. specialize (Hc eq_refl). unfold relayed in Hc.
      apply Forall_app in Hc. tauto. }
    destruct (consume_closed (with_dec d c) Es Hr) as [Hrl Hso].
    cbn [dec with_dec] in Hrl, Hso. rewrite Hrl. split.
    + now apply after_header_authentic.
    + intros Hs. destruct (payloads d) as [|address queued] eqn:Ep;
        [constructor|].
      rewrite Hso in Hs; [discriminate|discriminate].
  - rewrite consume_relayed_open by (cbn; congruence).
    split; [|intros H; destruct (consume_stage_closed _ H) as [H' _];
              cbn in H'; congruence].
    rewrite (Hrel d Hp).
    apply authentic_more; [now apply authentic_stream|exact Hnew].
  - rewrite consume_relayed_open by (cbn; congruence).
    split; [|intros H; destruct (consume_stage_closed _ H) as [H' _];
              cbn in H'; congruence].
    rewrite (Hrel d Hp).
    apply authentic_more; [now apply authentic_stream|exact Hnew].
  - rewrite consume_relayed_open by (cbn; congruence).
    split; [|intros H; destruct (consume_stage_closed _ H) as [H' _];
              cbn in H'; congruence].
    rewrite (Hrel d Hp).
    apply authentic_more; [now apply authentic_stream|exact Hnew].
Qed.

Lemma run_authentic (es : list Event) :
  authentic (ingress es) (relayed (run init_conn es))
  /\ (stage (run init_conn es) = CLOSED ->
      Forall (verified_in (ingress es)) (relayed (run init_conn es))).
Proof.
  induction es as [|e es IH] using rev_ind.
  - split; [left|intros _]; constructor.
  - rewrite run_snoc, ingress_app. set (c := run init_conn es) in *.
    assert (Hinv : conn_inv c) by (apply run_inv, init_conn_inv).
    destruct IH as [Ha Hc].
    assert (Hother : (forall data, e <> WsMessage data) -> ingress [e] = [] ->
              authentic (ingress es ++ ingress [e]) (relayed (step c e))
              /\ (stage (step c e) = CLOSED ->
                  Forall (verified_in (ingress es ++ ingress [e]))
                         (relayed (step c e)))).
    { intros Hm ->. rewrite app_nil_r.
      destruct (step_other c e Hinv Hm) as (-> & _).
      split; [exact Ha|]. intros Hs. apply Hc.
      now apply (step_stage_closed c e). }
    destruct e; try (apply Hother; [discriminate|reflexivity]).
    cbn [step ingress]. rewrite app_nil_r.
    apply on_message_authentic; [exact Hinv|apply run_tracks|exact Ha|exact Hc].
Qed.

(** X4.  Nothing reaches the remote socket, or its queue, that the client
    did not seal.  After any events, the chunks passed to [remote.write]
    and those waiting in [payloads] are plaintexts [decipher.decrypt]
    returned for frames of the bytes received behind their salt, the
    decipher being the one made from that salt: each chunk is such a
    plaintext whole, but for one chunk at most, which is what the [switch]
    left of such a plaintext when it took the address header off; and as
    long as the stage is CLOSED every chunk is whole. *)
Theorem relayed_is_authentic (es : list Event) :
  let c := run init_conn es in
  authentic (ingress es) (relayed c)
  /\ (stage c = CLOSED -> Forall (verified_in (ingress es)) (relayed c)).
Proof. exact (run_authentic es). Qed.

Lemma run_sizes (es : list Event) :
  Nat.even (chunkIndex (dec (run init_conn es))) = true ->
  cipherTextSize (dec (run init_conn es)) = 2.
Proof.
  induction es as [|e es IH] using rev_ind; [reflexivity|].
  rewrite run_snoc. set (c := run init_conn es) in *.
  assert (Hinv : conn_inv c) by (apply run_inv, init_conn_inv).
  destruct e;
    try (match goal with |- context [step c ?e] =>
           destruct (step_other c e Hinv) as (_ & -> & -> & _);
             [discriminate|exact IH]
         end).
  cbn [step]. pose proof (on_message_framer c data) as E.
  unfold framer_state in E. injection E as _ _ -> ->.
  apply (proj1 (feed_grows (dec c) data)). exact IH.
Qed.

(** X2.  The framer's two counters on a running connection: whenever the
    next chunk is a length chunk ([chunkIndex] even) [cipherTextSize] is 2,
    so the length field is always read from a two-byte ciphertext; and no
    handler takes [chunkIndex] back. *)
Theorem length_chunks_have_two_bytes (es : list Event) (e : Event) :
  let c := run init_conn es in
  (Nat.even (chunkIndex (dec c)) = true -> cipherTextSize (dec c) = 2)
  /\ chunkIndex (dec c) <= chunkIndex (dec (step c e)).
Proof.
  intros c. split; [apply run_sizes|].
  assert (Hinv : conn_inv c) by (apply run_inv, init_conn_inv).
  destruct e;
    try (match goal with |- context [step c ?e] =>
           destruct (step_other c e Hinv) as (_ & _ & -> & _);
             [discriminate|apply Nat.le_refl]
         end).
  cbn [step]. pose proof (on_message_framer c data) as E.
  unfold framer_state in E. injection E as _ _ _ ->.
  apply (feed_grows (dec c) data).
Qed.

(** X5.  How the sequence of chunks on their way to the remote, those
    written followed by those queued, changes.  Only a message changes it.
    Once the stage has left CLOSED, a message appends the payloads it
    decrypts, in the order of decryption.  In CLOSED nothing has been
    written; a run that ends before line 135 (salt incomplete, null
    plaintext, exception) appends likewise, and a run that gets there
    takes the first payload off as the address header and pushes what
    follows the header in it, if anything, to the end, behind every
    payload queued by then. *)
Theorem relayed_changes_by_messages_only (es : list Event) (e : Event) :
  let c := run init_conn es in
  ((forall data, e <> WsMessage data) -> relayed (step c e) = relayed c)
  /\ (forall data, e = WsMessage data ->
        exists new,
          payloads (snd (feed (dec c) data)) = payloads (dec c) ++ new
          /\ (stage c <> CLOSED -> relayed (step c e) = relayed c ++ new)
          /\ (stage c = CLOSED ->
              relayed c = payloads (dec c)
              /\ relayed (step c e)
                 = match fst (feed (dec c) data) with
                   | Proceed => after_header (relayed c ++ new)
                   | _ => relayed c ++ new
                   end)).
Proof.
  intros c.
  assert (Hinv : conn_inv c) by (apply run_inv, init_conn_inv).
  split.
  - intros Hm. now destruct (step_other c e Hinv Hm) as [H _].
  - intros data ->.
    destruct (feed_grows (dec c) data) as (_ & _ & new & Hnew).
    exists new. split; [exact Hnew|]. split.
    + intros Hs. cbn [step]. rewrite on_message_relayed_open by exact Hs.
      rewrite Hnew. unfold relayed. now rewrite app_assoc.
    + intros Hs.
      assert (Hr : remote c = None).
      { destruct Hinv as [Hst _]. unfold stage_inv in Hst. rewrite Hs in Hst. tauto. }
      assert (Hrel : relayed c = payloads (dec c)).
      { unfold relayed, write_log. now rewrite Hr. }
      split; [exact Hrel|]. rewrite Hrel, <- Hnew. cbn [step]. unfold on_message.
      destruct (feed (dec c) data) as [[| | |f] d]; cbn [fst snd];
        try (unfold relayed, write_log; cbn; now rewrite Hr).
      exact (proj1 (consume_closed (with_dec d c) Hs Hr)).
Qed.

End Authentic.

(** ** What waits in [rx] *)

Section Buffering.
Context {crypto : Crypto} {util : Util}.

Lemma readUInt16BE_fits (b : bytes) (off n : nat) :
  readUInt16BE b off = Some n -> n < N.to_nat 65536.
Proof.
  unfold readUInt16BE.
  destruct (nth_error b off) as [hi|]; [|discriminate].
  destruct (nth_error b (S off)) as [lo|]; [|discriminate].
  intros H. injection H as <-.
  pose proof (Byte.to_nat_bounded hi). pose proof (Byte.to_nat_bounded lo). lia.
Qed.

Lemma two_fits : 2 < N.to_nat 65536.
Proof. apply (readUInt16BE_fits [x00; x02] 0 2). reflexivity. Qed.

Lemma decrypt_chunks_rx_short (f : nat) (d : DecCtx) (data : bytes) :
  rx d = Some [] -> decipher d <> None ->
  cipherTextSize d < N.to_nat 65536 ->
  rx_short (snd (decrypt_chunks f d data)).
Proof.
  revert d data. induction f as [|f IH]; intros d data Hrx Hdec Hc.
  - destruct data; cbn; (split; [exact Hc|left; unfold pending; now rewrite Hrx]).
  - destruct data as [|b data].
    { cbn. split; [exact Hc|left; unfold pending; now rewrite Hrx]. }
    set (x := b :: data) in *.
    assert (Hne : x <> []) by discriminate.
    assert (Hstop : forall e d', decrypt_chunks (S f) d x = (e, d') ->
              rx d' = rx d -> cipherTextSize d' = cipherTextSize d ->
              rx_short (snd (decrypt_chunks (S f) d x))).
    { intros e d' E H1 H2. rewrite E. cbn [snd]. split; [now rewrite H2|].
      left. unfold pending. now rewrite H1, Hrx. }
    destruct (Nat.lt_ge_cases (length x) (cipherTextSize d + TAG_SIZE)) as [Hlt|Hge].
    + rewrite (decrypt_chunks_short _ d x [] Hne Hlt Hrx). cbn [snd].
      split; [exact Hc|]. right. unfold pending. cbn.
      rewrite app_nil_r. destruct (decipher d); [exact Hlt|contradiction].
    + destruct (decipher d) as [a|] eqn:Hd; [|contradiction].
      pose proof (decrypt_chunks_frame f d x a Hne Hge Hd) as E.
      destruct (AEAD_decrypt a (firstn (cipherTextSize d) x)
                  (firstn TAG_SIZE (skipn (cipherTextSize d) x)))
        as [[pt|] a'] eqn:Edec.
      2:{ eapply Hstop; [exact E|reflexivity..]. }
      destruct (Nat.even (chunkIndex d)) eqn:Ev.
      * destruct (readUInt16BE pt 0) as [n|] eqn:En.
        2:{ eapply Hstop; [exact E|reflexivity..]. }
        rewrite E. apply IH; [exact Hrx|discriminate|].
        exact (readUInt16BE_fits pt 0 n En).
      * rewrite E. apply IH; [exact Hrx|discriminate|exact two_fits].
Qed.

Lemma feed_rx_short (d : DecCtx) (data : bytes) :
  cipherTextSize d < N.to_nat 65536 -> rx_short (snd (feed d data)).
Proof.
  intros Hc.
  destruct (rx d) as [r|] eqn:Er.
  2:{ unfold feed. rewrite Er. split; [exact Hc|left]. now apply pending_none. }
  rewrite (feed_norm d r data Er). unfold init_and_decrypt.
  cbn [decipher with_rx rx].
  set (d0 := with_rx (Some []) d). set (s := pending d ++ data).
  destruct (decipher d) as [a|] eqn:Ed.
  - apply decrypt_chunks_rx_short; [reflexivity|cbn; congruence|exact Hc].
  - destruct (length s <? SALT_SIZE) eqn:El.
    + apply Nat.ltb_lt in El. split; [exact Hc|right].
      unfold pending. cbn. rewrite app_nil_r, Ed. exact El.
    + apply decrypt_chunks_rx_short; [reflexivity|discriminate|exact Hc].
Qed.

Lemma rx_short_state (d d' : DecCtx) :
  framer_state d' = framer_state d -> rx_short d -> rx_short d'.
Proof.
  unfold framer_state, rx_short, pending. intros [= -> -> -> _]. auto.
Qed.

Lemma run_rx_short (es : list Event) : rx_short (dec (run init_conn es)).
Proof.
  induction es as [|e es IH] using rev_ind.
  - split; [exact two_fits|now left].
  - rewrite run_snoc. set (c := run init_conn es) in *.
    assert (Hinv : conn_inv c) by (apply run_inv, init_conn_inv).
    destruct e;
      try (match goal with |- context [step c ?e] =>
             destruct (step_other c e Hinv) as (_ & _ & _ & H4 & _);
               [discriminate|];
             apply (rx_short_state (dec c)); [apply H4; discriminate|exact IH]
           end).
    + cbn [step]. apply (rx_short_state (snd (feed (dec c) data)));
        [apply on_message_framer|]. apply feed_rx_short, IH.
    + destruct (step_other c WsClose Hinv) as (_ & H2 & _ & _ & H5);
        [discriminate|].
      destruct (H5 eq_refl) as [Hrx _].
      split; [rewrite H2; apply IH|left; now apply pending_none].
Qed.

(** X6.  Between two events [rx] never holds a chunk the framer could
    already decrypt, so what the connection buffers of the ciphertext is
    bounded: [rx] is empty, or shorter than the salt while there is no
    decipher, or shorter than the next chunk with its tag, whose ciphertext
    has less than 65536 bytes. *)
Theorem rx_holds_less_than_a_chunk (es : list Event) :
  let d := dec (run init_conn es) in
  cipherTextSize d < N.to_nat 65536
  /\ (pending d = []
      \/ (decipher d = None /\ length (pending d) < SALT_SIZE)
      \/ (decipher d <> None /\ length (pending d) < cipherTextSize d + TAG_SIZE)).
Proof.
  intros d. destruct (run_rx_short es) as [H1 [H2|H2]]; fold d in H1, H2.
  - auto.
  - split; [exact H1|]. right.
    destruct (decipher d); [right|left]; split; congruence || exact H2.
  
Qed.

Lemma feed_before_salt (d : DecCtx) (r : list bytes) (data : bytes) :
  rx d = Some r -> decipher d = None ->
  length (concat r ++ data) < SALT_SIZE ->
  exists r', feed d data = (Returned, with_rx (Some r') d)
             /\ concat r' = concat r ++ data.
Proof.
  intros Hrx Hd Hl. rewrite (feed_norm d r data Hrx).
  unfold init_and_decrypt. cbn [decipher with_rx rx]. rewrite Hd.
  unfold pending. rewrite Hrx. apply Nat.ltb_lt in Hl. rewrite Hl.
  eexists. split; [reflexivity|]. cbn. now rewrite app_nil_r.
Qed.

Lemma run_before_salt (chunks : list bytes) (r : list bytes) :
  length (concat r ++ concat chunks) < SALT_SIZE ->
  exists r',
    run (with_dec (with_rx (Some r) init_dec) init_conn) (map WsMessage chunks)
    = with_dec (with_rx (Some r') init_dec) init_conn
    /\ concat r' = concat r ++ concat chunks.
Proof.
  revert r. induction chunks as [|data chunks IH]; intros r Hl.
  - exists r. split; [reflexivity|]. cbn. now rewrite app_nil_r.
  - cbn [map concat] in *. rewrite app_assoc in Hl.
    destruct (feed_before_salt (with_rx (Some r) init_dec) r data eq_refl eq_refl)
      as (r1 & Hf & Hr1).
    { rewrite length_app in Hl. lia. }
    rewrite <- Hr1 in Hl. destruct (IH r1 Hl) as (r' & Hrun & Hr').
    exists r'. split.
    + cbn [run fold_left step]. unfold on_message. cbn [dec with_dec].
      rewrite Hf. exact Hrun.
    + now rewrite Hr', Hr1, app_assoc.
Qed.

(** X3.  Until [SALT_SIZE] bytes have arrived the handler only buffers:
    whatever way fewer bytes are cut into messages, they are all in [rx], in
    order, and nothing else of the connection has changed (no decipher, no
    payload, stage CLOSED, nothing logged, no fault). *)
Theorem short_of_a_salt_only_buffers (chunks : list bytes) :
  length (concat chunks) < SALT_SIZE ->
  exists r,
    run init_conn (map WsMessage chunks) = with_dec (with_rx (Some r) init_dec) init_conn
    /\ concat r = concat chunks.
Proof.
  intros Hl. apply (run_before_salt chunks []). exact Hl.
Qed.

End Buffering.

(** ** After the close, and after giving up *)

Section Teardown.
Context {crypto : Crypto} {util : Util}.

Lemma encrypt_chunks_null (f : nat) (e : EncCtx) (data : bytes) :
  tx e = None -> snd (encrypt_chunks f e data) = e.
Proof.
  intros Ht. destruct data as [|b data]; [now destruct f|].
  destruct f as [|f]; [reflexivity|]. cbn [encrypt_chunks].
  destruct (writeUInt16BE _); [|reflexivity]. now rewrite Ht.
Qed.

Lemma drain_from_released (ps : list bytes) (c : Conn) :
  released c ->
  released (drain_from ps c) /\ sent (ws (drain_from ps c)) = sent (ws c).
Proof.
  revert c. induction ps as [|p ps IH]; intros c Hc; [split; [exact Hc|reflexivity]|].
  cbn [drain_from]. destruct (remote c) as [s|] eqn:Er; [|split; [exact Hc|reflexivity]].
  destruct Hc as (H1 & H2 & H3 & H4 & H5 & H6).
  unfold sock_write. set (c1 := with_remote _ _).
  assert (Hc1 : released c1).
  { unfold released, c1. cbn. repeat split; try assumption.
    intros s' [= <-]. cbn. now apply H6. }
  destruct (hd true (accepts s)).
  - destruct (IH c1 Hc1) as [Hr Hs]. split; [exact Hr|now rewrite Hs].
  - split; [exact Hc1|reflexivity].
Qed.

Lemma on_ws_close_released (c : Conn) :
  readyState (ws c) = WS_CLOSED -> released (on_ws_close c).
Proof.
  intros Hr. unfold on_ws_close, released.
  destruct (remote c) as [s|] eqn:Er; [destruct (destroyed s) eqn:Ed|]; cbn;
    rewrite ?Er; repeat split; try assumption; try discriminate.
  - intros s' [= <-]. exact Ed.
  - intros s' [= <-]. reflexivity.
Qed.

Lemma on_ws_close_sent (c : Conn) : sent (ws (on_ws_close c)) = sent (ws c).
Proof.
  unfold on_ws_close. destruct (remote c) as [s|]; [destruct (destroyed s)|];
    reflexivity.
Qed.

(** Once the ['close'] handler has run, every handler leaves the contexts
    null, the [remote] destroyed and the list of sent messages as it is. *)
Lemma step_released (c : Conn) (e : Event) :
  released c ->
  released (step c e) /\ sent (ws (step c e)) = sent (ws c).
Proof.
  intros Hc. pose proof Hc as (H1 & H2 & H3 & H4 & H5 & H6).
  assert (Hsock : forall f, (forall s, destroyed (f s) = destroyed s) ->
            released (on_remote f c) /\ sent (ws (on_remote f c)) = sent (ws c)).
  { intros f Hf. unfold on_remote. destruct (remote c) as [s|] eqn:Er;
      (split; [|reflexivity]); unfold released; cbn; rewrite ?Er;
      repeat split; try assumption; try discriminate.
    intros s' [= <-]. rewrite Hf. now apply H6. }
  destruct e; cbn [step].
  - unfold on_message, feed. rewrite H2. split; [exact Hc|reflexivity].
  - split; [now apply on_ws_close_released|now rewrite on_ws_close_sent].
  - destruct (handlers c); [|split; [exact Hc|reflexivity]].
    apply Hsock. reflexivity.
  - destruct (awaiting c) as [[port addr|]|]; try (split; [exact Hc|reflexivity]).
    rewrite connect_resolved_not_open by congruence.
    split; [|reflexivity]. unfold released. cbn. repeat split; try assumption.
    intros s' [= <-]. reflexivity.
  - destruct (awaiting c) as [[port addr|]|]; try (split; [exact Hc|reflexivity]).
    split; [|reflexivity]. unfold connect_rejected, ws_terminate, released. cbn.
    rewrite H1. repeat split; assumption.
  - destruct (handlers c); [|split; [exact Hc|reflexivity]].
    unfold on_remote_data.
    pose proof (encrypt_chunks_null (length data) (enc c) data H4) as He.
    destruct (encrypt_chunks (length data) (enc c) data) as [x e1].
    cbn [snd] in He. subst e1.
    assert (Hsame : released (with_enc (enc c) c)
                    /\ sent (ws (with_enc (enc c) c)) = sent (ws c))
      by (split; [exact Hc|reflexivity]).
    destruct x; try exact Hsame.
    cbn [remote with_enc]. destruct (remote c) as [s|] eqn:Er; [|exact Hsame].
    rewrite H4. split; [|reflexivity].
    unfold released. cbn. repeat split; try assumption.
    intros s' [= <-]. cbn. now apply H6.
  - destruct (awaiting c) as [[port addr|]|]; try (split; [exact Hc|reflexivity]).
    unfold drain_resumed, drain.
    exact (drain_from_released _ (ws_resume (with_awaiting None c)) Hc).
  - destruct (handlers c); split; try exact Hc; reflexivity.
  - destruct (handlers c); [|split; [exact Hc|reflexivity]].
    apply Hsock. reflexivity.
  - destruct (handlers c); [|split; [exact Hc|reflexivity]].
    unfold on_remote_close. rewrite H1. split; [exact Hc|reflexivity].
Qed.

Lemma run_released (es : list Event) (c : Conn) :
  released c ->
  released (run c es) /\ sent (ws (run c es)) = sent (ws c).
Proof.
  revert c. induction es as [|e es IH]; intros c Hc; [split; [exact Hc|reflexivity]|].
  destruct (step_released c e Hc) as [H1 H2].
  destruct (IH (step c e) H1) as [H3 H4].
  split; [exact H3|]. change (run c (e :: es)) with (run (step c e) es).
  now rewrite H4.
Qed.

(** X7.  The ['close'] of the WebSocket is final.  Whatever happened
    before, after it and after any later events the contexts are null
    ([rx], [decipher], [tx], [cipher]), the remote socket, if there is one,
    is destroyed, also one a connect resolves to afterwards, and nothing
    more is sent to the client. *)
Theorem close_is_final (es es' : list Event) :
  let c := run init_conn (es ++ [WsClose]) in
  released (run c es') /\ sent (ws (run c es')) = sent (ws c).
Proof.
  intros c. apply run_released. unfold c. rewrite run_snoc.
  cbn [step]. now apply on_ws_close_released.
Qed.

Lemma step_abandoned (c : Conn) (e : Event) :
  conn_inv c -> abandoned c ->
  abandoned (step c e)
  /\ write_log (step c e) = write_log c
  /\ sent (ws (step c e)) = sent (ws c)
  /\ to (step c e) = to c.
Proof.
  intros [Hst _] [Hs Ha].
  assert (Hh : handlers c = false).
  { unfold stage_inv in Hst. rewrite Hs in Hst. tauto. }
  assert (Hc : abandoned c /\ write_log c = write_log c
               /\ sent (ws c) = sent (ws c) /\ to c = to c).
  { repeat split; assumption. }
  destruct e; cbn [step]; rewrite ?Hh, ?Ha; try exact Hc.
  - unfold on_message. destruct (feed (dec c) data) as [[| | |f] d];
      try (repeat split; assumption).
    unfold consume. cbn [dec with_dec stage]. destruct (payloads d);
      [repeat split; assumption|].
    rewrite Hs. repeat split; assumption.
  - unfold on_ws_close, abandoned, write_log. cbn.
    destruct (remote c) as [s|] eqn:Er; [destruct (destroyed s)|]; cbn;
      rewrite ?Er; repeat split; assumption.
Qed.

Lemma run_abandoned (es : list Event) (c : Conn) :
  conn_inv c -> abandoned c ->
  abandoned (run c es)
  /\ write_log (run c es) = write_log c
  /\ sent (ws (run c es)) = sent (ws c)
  /\ to (run c es) = to c.
Proof.
  revert c. induction es as [|e es IH]; intros c Hinv Hc; [repeat split; apply Hc|].
  destruct (step_abandoned c e Hinv Hc) as (H1 & H2 & H3 & H4).
  destruct (IH (step c e) (step_inv c e Hinv) H1) as (H5 & H6 & H7 & H8).
  change (run c (e :: es)) with (run (step c e) es).
  repeat split; try apply H5; congruence.
Qed.

(** X8.  A connection that has left CLOSED without a connect in flight and
    without a remote it can use (the ATYP was invalid, the header too short,
    the connect was rejected, or the WebSocket was no longer open when it
    resolved) never relays: it stays in OPENING whatever arrives, nothing is
    written to a remote, nothing is sent to the client, and [to] keeps its
    value; what the client still sends is decrypted and queued only. *)
Theorem abandoned_connection_never_relays (es es' : list Event) :
  abandoned (run init_conn es) ->
  let c := run init_conn es in
  let c' := run c es' in
  stage c' = OPENING /\ awaiting c' = None
  /\ write_log c' = write_log c
  /\ sent (ws c') = []
  /\ to c' = to c.
Proof.
  intros Hab c c'.
  assert (Hinv : conn_inv c) by (apply run_inv, init_conn_inv).
  destruct (run_abandoned es' c Hinv Hab) as ([H1 H2] & H3 & H4 & H5).
  repeat split; try assumption.
  fold c' in H4. rewrite H4.
  destruct Hinv as [Hst Hout]. destruct Hab as [Hs Ha].
  apply Hout. unfold stage_inv in Hst. fold c in Hs. rewrite Hs in Hst. tauto.
Qed.

End Teardown.

(** ** While the connect is in flight *)

Section Connecting.
Context {crypto : Crypto} {util : Util}.

Lemma drain_from_awaiting (ps : list bytes) (c : Conn) :
  to (drain_from ps c) = to c
  /\ (awaiting (drain_from ps c) = Some AwaitDrain
      \/ (awaiting (drain_from ps c) = awaiting c
          /\ ws_paused (ws (drain_from ps c)) = ws_paused (ws c))).
Proof.
  revert c. induction ps as [|p ps IH]; intros c; [cbn; auto|].
  cbn [drain_from]. destruct (remote c) as [s|]; [|cbn; auto].
  unfold sock_write. destruct (hd true (accepts s)); [|cbn; auto].
  match goal with |- context [drain_from ps ?x] => destruct (IH x) as [H1 H2] end.
  split; [exact H1|exact H2].
Qed.

Lemma step_connecting (c : Conn) (e : Event) :
  conn_inv c -> connecting_inv c -> connecting_inv (step c e).
Proof.
  intros [Hst _] Hc.
  assert (Hsame : forall c', awaiting c' = awaiting c ->
            ws_paused (ws c') = ws_paused (ws c) -> to c' = to c ->
            connecting_inv c').
  { intros c' H1 H2 H3 port addr. rewrite H1, H2, H3. apply Hc. }
  assert (Hnone : forall c', awaiting c' = None -> connecting_inv c').
  { intros c' H port addr. rewrite H. discriminate. }
  assert (Hdrain : forall x, awaiting x = None -> connecting_inv (drain x)).
  { intros x Hx port addr.
    destruct (drain_from_awaiting (payloads (dec x)) x) as [_ [H|[H _]]];
      unfold drain; rewrite H, ?Hx; discriminate. }
  destruct e; cbn [step].
  - unfold on_message. destruct (feed (dec c) data) as [[| | |f] d];
      try (now apply Hsame).
    unfold consume. cbn [dec with_dec stage].
    destruct (payloads d) as [|address queued]; [now apply Hsame|].
    destruct (stage c) eqn:Es; try (now apply Hsame).
    + destruct (parse_address address) as [addr port rest| |f];
        try (now apply Hsame).
      intros port' addr'. cbn. intros [= <- <-]. auto.
    + apply Hdrain. cbn. unfold stage_inv in Hst. rewrite Es in Hst. tauto.
  - apply Hsame; unfold on_ws_close; cbn;
      destruct (remote c) as [s|]; [destruct (destroyed s)| |destruct (destroyed s)|
                                    |destruct (destroyed s)|]; reflexivity.
  - destruct (handlers c); [|now apply Hsame].
    unfold on_remote. destruct (remote c); now apply Hsame.
  - destruct (awaiting c) as [[port addr|]|] eqn:Ea; try (now apply Hsame).
    unfold connect_resolved.
    change (readyState (ws (ws_resume (with_remote (Some (new_socket answers))
              (with_awaiting None c))))) with (readyState (ws c)).
    change (tx (enc (ws_resume (with_remote (Some (new_socket answers))
              (with_awaiting None c))))) with (tx (enc c)).
    destruct (readyState (ws c)); try (now apply Hnone).
    destruct (tx (enc c)); [|now apply Hnone].
    now apply Hdrain.
  - destruct (awaiting c) as [[port addr|]|] eqn:Ea; try (now apply Hsame).
    now apply Hnone.
  - destruct (handlers c); [|now apply Hsame]. unfold on_remote_data.
    destruct (encrypt_chunks (length data) (enc c) data) as [[| | |f] en];
      try (now apply Hsame).
    change (remote (with_enc en c)) with (remote c).
    destruct (remote c); [destruct (tx en)|]; now apply Hsame.
  - destruct (awaiting c) as [[port addr|]|] eqn:Ea; try (now apply Hsame).
    unfold drain_resumed. now apply Hdrain.
  - destruct (handlers c); now apply Hsame.
  - destruct (handlers c); [|now apply Hsame].
    unfold on_remote. destruct (remote c); now apply Hsame.
  - destruct (handlers c); [|now apply Hsame]. unfold on_remote_close.
    destruct (readyState (ws c)); now apply Hsame.
Qed.

Lemma run_connecting (es : list Event) : connecting_inv (run init_conn es).
Proof.
  induction es as [|e es IH] using rev_ind.
  - intros port addr. discriminate.
  - rewrite run_snoc. apply step_connecting; [apply run_inv, init_conn_inv|exact IH].
Qed.

(** X9.  While the connect to the target is in flight the relay is at rest:
    ingress from the client is paused, [to] names the host and port being
    connected to, the stage is OPENING, there is no remote socket yet and
    no remote handler, and nothing has been sent to the client. *)
Theorem connect_in_flight (es : list Event) (port : nat) (addr : string) :
  let c := run init_conn es in
  awaiting c = Some (AwaitConnect port addr) ->
  ws_paused (ws c) = true /\ to c = Some (addr, port)
  /\ stage c = OPENING /\ remote c = None /\ handlers c = false
  /\ sent (ws c) = [].
Proof.
  intros c Ha.
  destruct (run_connecting es port addr Ha) as [H1 H2].
  destruct (run_inv init_conn es init_conn_inv) as [Hst Hout].
  fold c in Hst, Hout. unfold stage_inv in Hst. rewrite Ha in Hst.
  assert (H : stage c = OPENING /\ remote c = None /\ handlers c = false).
  { destruct (stage c); intuition congruence. }
  destruct H as (H3 & H4 & H5).
  repeat split; try assumption. now apply Hout.
Qed.

End Connecting.

(** ** The encryption context, and the exceptions thrown *)

Section NoFaults.
Context {crypto : Crypto} {util : Util}.

Lemma enc_inv_same (c c' : Conn) :
  enc c' = enc c -> handlers c' = handlers c -> sent (ws c') = sent (ws c) ->
  enc_inv c -> enc_inv c'.
Proof. unfold enc_inv. now intros -> -> ->. Qed.

Lemma handlers_remote (c : Conn) :
  stage_inv c -> handlers c = true -> remote c <> None.
Proof.
  unfold stage_inv. intros Hst Hh. destruct (stage c); intuition congruence.
Qed.

Lemma handlers_awaiting (c : Conn) (port : nat) (addr : string) :
  stage_inv c -> awaiting c = Some (AwaitConnect port addr) ->
  handlers c = false /\ remote c = None.
Proof.
  unfold stage_inv. intros Hst Ha. rewrite Ha in Hst.
  destruct (stage c); intuition congruence.
Qed.

Lemma enc_inv_ready (c : Conn) :
  enc_inv c -> handlers c = true ->
  exists t a, enc c = mkEnc (Some t) (Some a).
Proof.
  unfold enc_inv. intros H Hh. rewrite Hh in H.
  destruct H as (a & Hc & Ht). destruct (enc c) as [t0 c0]. cbn in *. subst c0.
  destruct Ht as [->|(_ & salt & -> & _)]; eauto.
Qed.

(** Until the WebSocket closes: [tx] is empty and there is no cipher before
    the remote handlers are registered; afterwards there is a cipher, and
    [tx] is empty or still holds the salt, nothing having been sent. *)
Lemma step_enc_inv (c : Conn) (e : Event) :
  conn_inv c -> e <> WsClose -> enc_inv c -> enc_inv (step c e).
Proof.
  intros [Hst _] Hne Hc.
  assert (Hsame : forall c', enc c' = enc c -> handlers c' = handlers c ->
            sent (ws c') = sent (ws c) -> enc_inv c').
  { intros c' H1 H2 H3. now apply (enc_inv_same c). }
  assert (Hdrain : forall x, enc x = enc c -> handlers x = handlers c ->
            sent (ws x) = sent (ws c) -> enc_inv (drain x)).
  { intros x H1 H2 H3. destruct (drain_keeps x) as (E1 & E2 & E3 & _).
    apply Hsame; congruence. }
  destruct e; cbn [step].
  - destruct (on_message_keeps c data) as (E1 & E2 & E3 & _). now apply Hsame.
  - now elim Hne.
  - destruct (handlers c) eqn:Eh; [|now apply Hsame].
    unfold on_remote. destruct (remote c); now apply Hsame.
  - destruct (awaiting c) as [[port addr|]|] eqn:Ea; try (now apply Hsame).
    destruct (handlers_awaiting c port addr Hst Ea) as [Hh _].
    pose proof Hc as Hc'. unfold enc_inv in Hc'. rewrite Hh in Hc'.
    destruct Hc' as [He Hs].
    destruct (readyState (ws c)) eqn:Ers.
    + assert (Et : tx (enc c) = Some []) by now rewrite He.
      rewrite (connect_resolved_open answers salt c [] Ers Et).
      match goal with |- context [drain ?x] =>
        destruct (drain_keeps x) as (E1 & E2 & E3 & _) end.
      unfold enc_inv. rewrite E1, E2, E3. cbn.
      eexists. split; [reflexivity|]. right. split; [exact Hs|].
      exists salt. split; reflexivity.
    + rewrite connect_resolved_not_open by congruence. now apply Hsame.
    + rewrite connect_resolved_not_open by congruence. now apply Hsame.
  - destruct (awaiting c) as [[port addr|]|] eqn:Ea; now apply Hsame.
  - destruct (handlers c) eqn:Eh; [|now apply Hsame].
    destruct (enc_inv_ready c Hc Eh) as (t & a & He).
    destruct (remote c) as [s|] eqn:Er; [|now elim (handlers_remote c Hst Eh)].
    destruct (on_remote_data_sent c t a s data He Er) as (_ & E2 & _ & E4).
    unfold enc_inv. rewrite E4, Eh, E2. cbn.
    eexists. split; [reflexivity|]. now left.
  - destruct (awaiting c) as [[port addr|]|] eqn:Ea; try (now apply Hsame).
    unfold drain_resumed. now apply Hdrain.
  - destruct (handlers c) eqn:Eh; now apply Hsame.
  - destruct (handlers c) eqn:Eh; [|now apply Hsame].
    unfold on_remote. destruct (remote c); now apply Hsame.
  - destruct (handlers c) eqn:Eh; [|now apply Hsame]. unfold on_remote_close.
    destruct (readyState (ws c)); now apply Hsame.
Qed.

Lemma init_conn_enc_inv : enc_inv init_conn.
Proof. split; reflexivity. Qed.

Lemma run_enc_inv (es : list Event) :
  ~ In WsClose es -> enc_inv (run init_conn es).
Proof.
  induction es as [|e es IH] using rev_ind; intros Hnc.
  - apply init_conn_enc_inv.
  - rewrite run_snoc. apply step_enc_inv.
    + apply run_inv, init_conn_inv.
    + intros ->. apply Hnc, in_or_app. right. now left.
    + apply IH. intros H. apply Hnc, in_or_app. now left.
Qed.

(** X10.  What [tx] holds between two events, up to the close of the
    WebSocket.  Before the remote handlers are registered [tx] is empty,
    there is no cipher and nothing has been sent; from then on there is a
    cipher, and [tx] is empty, but for the time between the connect and the
    first reply, when it holds the salt the cipher was made from and
    nothing has been sent yet. *)
Theorem tx_holds_the_salt_or_nothing (es : list Event) :
  ~ In WsClose es ->
  let c := run init_conn es in
  if handlers c then
    exists a, cipher (enc c) = Some a
      /\ (tx (enc c) = Some []
          \/ (sent (ws c) = []
              /\ exists salt, tx (enc c) = Some [salt]
                              /\ a = AEAD_new (hkdfSync KEY salt)))
  else enc c = init_enc /\ sent (ws c) = [].
Proof. intros Hnc. exact (run_enc_inv es Hnc). Qed.

Lemma drain_from_faults (ps : list bytes) (c : Conn) :
  remote c <> None -> faults (drain_from ps c) = faults c.
Proof.
  revert c. induction ps as [|p ps IH]; intros c Hr; [reflexivity|].
  cbn [drain_from]. destruct (remote c) as [s|]; [|contradiction].
  unfold sock_write. destruct (hd true (accepts s)); [|reflexivity].
  rewrite IH; [reflexivity|discriminate].
Qed.

Lemma on_ws_close_faults (c : Conn) : faults (on_ws_close c) = faults c.
Proof.
  unfold on_ws_close. destruct (remote c) as [s|]; [destruct (destroyed s)|];
    reflexivity.
Qed.

Lemma parse_address_throws (address : bytes) (f : Fault) :
  parse_address address = ParseThrew f -> f = RangeError.
Proof.
  unfold parse_address.
  destruct (nth_error address 0) as [b|]; [|discriminate].
  destruct b; try discriminate.
  - destruct (readUInt16BE address 5); [discriminate|]. now intros [= <-].
  - destruct (nth_error address 1) as [n|]; [|now intros [= <-]].
    destruct (readUInt16BE address (2 + Byte.to_nat n)); [discriminate|].
    now intros [= <-].
  - destruct (readUInt16BE address 17); [discriminate|]. now intros [= <-].
Qed.

Lemma consume_faults (c : Conn) :
  stage_inv c ->
  faults (consume c) = faults c
  \/ (stage c = CLOSED /\ faults (consume c) = faults c ++ [RangeError]
      /\ abandoned (consume c)).
Proof.
  intros Hst. unfold consume.
  destruct (payloads (dec c)) as [|address queued]; [now left|].
  destruct (stage c) eqn:Es; try (now left).
  - destruct (parse_address address) as [addr port rest| |f] eqn:Ep.
    + left. destruct rest; reflexivity.
    + now left.
    + right. rewrite (parse_address_throws address f Ep).
      split; [reflexivity|split; [reflexivity|]].
      split; [reflexivity|]. cbn. unfold stage_inv in Hst. rewrite Es in Hst. tauto.
  - left. unfold drain. rewrite drain_from_faults; [reflexivity|].
    cbn. unfold stage_inv in Hst. rewrite Es in Hst. tauto.
Qed.

Lemma framer_wf_state (d d' : DecCtx) :
  framer_state d' = framer_state d -> framer_wf d -> framer_wf d'.
Proof. unfold framer_state, framer_wf. intros [= -> _ -> ->]. auto. Qed.

Section FaultLaws.
Hypothesis tag_pos : 0 < TAG_SIZE.
Hypothesis keeps_length : aead_keeps_length.

Lemma step_wf (c : Conn) (e : Event) :
  conn_inv c -> e <> WsClose -> framer_wf (dec c) -> framer_wf (dec (step c e)).
Proof.
  intros Hinv Hne Hwf.
  destruct e;
    try (match goal with |- context [step c ?e] =>
           destruct (step_other c e Hinv) as (_ & _ & _ & H4 & _);
             [discriminate|];
           apply (framer_wf_state (dec c)); [apply H4; discriminate|exact Hwf]
         end).
  - cbn [step]. apply (framer_wf_state (snd (feed (dec c) data)));
      [apply on_message_framer|].
    now apply (feed_wf tag_pos keeps_length).
  - now elim Hne.
Qed.

(** One handler run throws nothing, but for the message handler run that
    finds the address header too short. *)
Lemma step_faults (c : Conn) (e : Event) :
  conn_inv c -> framer_wf (dec c) -> enc_inv c ->
  faults (step c e) = faults c
  \/ (stage c = CLOSED /\ faults (step c e) = faults c ++ [RangeError]
      /\ abandoned (step c e)).
Proof.
  intros [Hst _] Hwf Henc.
  destruct e; cbn [step]; try (now left).
  - unfold on_message.
    destruct (feed_wf tag_pos keeps_length (dec c) data Hwf) as [Hnf _].
    destruct (feed (dec c) data) as [[| | |f] d]; try (now left).
    + apply (consume_faults (with_dec d c)). exact Hst.
    + now elim (Hnf f).
  - left. now rewrite on_ws_close_faults.
  - left. destruct (handlers c) eqn:Eh; [|reflexivity].
    unfold on_remote.
    destruct (remote c) eqn:Er; [reflexivity|now elim (handlers_remote c Hst Eh)].
  - left. destruct (awaiting c) as [[port addr|]|] eqn:Ea; try reflexivity.
    destruct (handlers_awaiting c port addr Hst Ea) as [Hh _].
    pose proof Henc as Hc'. unfold enc_inv in Hc'. rewrite Hh in Hc'.
    destruct Hc' as [He Hs].
    destruct (readyState (ws c)) eqn:Ers.
    + assert (Et : tx (enc c) = Some []) by now rewrite He.
      rewrite (connect_resolved_open answers salt c [] Ers Et).
      unfold drain. rewrite drain_from_faults; [reflexivity|discriminate].
    + now rewrite connect_resolved_not_open by congruence.
    + now rewrite connect_resolved_not_open by congruence.
  - left. destruct (awaiting c) as [[port addr|]|]; reflexivity.
  - left. destruct (handlers c) eqn:Eh; [|reflexivity].
    destruct (enc_inv_ready c Henc Eh) as (t & a & He).
    destruct (remote c) as [s|] eqn:Er; [|now elim (handlers_remote c Hst Eh)].
    unfold on_remote_data.
    rewrite He, (encrypt_chunks_frames (length data) data t a (le_n _)).
    cbn [remote with_enc tx]. now rewrite Er.
  - left. destruct (awaiting c) as [[port addr|]|] eqn:Ea; try reflexivity.
    unfold drain_resumed, drain. rewrite drain_from_faults; [reflexivity|].
    cbn. unfold stage_inv in Hst. rewrite Ea in Hst.
    destruct (stage c); intuition congruence.
  - left. now destruct (handlers c).
  - left. destruct (handlers c) eqn:Eh; [|reflexivity].
    unfold on_remote.
    destruct (remote c) eqn:Er; [reflexivity|now elim (handlers_remote c Hst Eh)].
  - left. destruct (handlers c); [|reflexivity]. unfold on_remote_close.
    now destruct (readyState (ws c)).
Qed.

Lemma run_faults (es : list Event) :
  ~ In WsClose es ->
  let c := run init_conn es in
  framer_wf (dec c)
  /\ (faults c = [] \/ (faults c = [RangeError] /\ abandoned c)).
Proof.
  induction es as [|e es IH] using rev_ind; intros Hnc.
  - split; [apply init_dec_wf|now left].
  - assert (Hnc' : ~ In WsClose es).
    { intros H. apply Hnc, in_or_app. now left. }
    assert (Hne : e <> WsClose).
    { intros ->. apply Hnc, in_or_app. right. now left. }
    destruct (IH Hnc') as [Hwf Hf]. cbv zeta. rewrite run_snoc.
    set (c := run init_conn es) in *.
    assert (Hinv : conn_inv c) by (apply run_inv, init_conn_inv).
    split; [now apply step_wf|].
    destruct (step_faults c e Hinv Hwf (run_enc_inv es Hnc'))
      as [E|(Es & E & Hab)].
    + rewrite E. destruct Hf as [Hf|[Hf Hab]]; [now left|right].
      split; [exact Hf|]. now apply step_abandoned.
    + destruct Hf as [Hf|[_ [Hs _]]]; [|congruence].
      right. rewrite E, Hf. split; [reflexivity|exact Hab].
Qed.

(** X11.  Up to the close of the WebSocket no handler dereferences null and
    no loop runs on for ever, whatever the client, the target and the
    network do: with a tag of positive size and a cipher whose plaintexts
    are as long as their ciphertexts, the only exception thrown is the
    RangeError of a first payload too short for its address header, and
    that at most once, leaving the connection abandoned in OPENING. *)
Theorem only_a_short_header_throws (es : list Event) :
  ~ In WsClose es ->
  let c := run init_conn es in
  faults c = []
  \/ (faults c = [RangeError] /\ stage c = OPENING /\ awaiting c = None).
Proof. intros Hnc. exact (proj2 (run_faults es Hnc)). Qed.

End FaultLaws.

End NoFaults.

(** ** The address header, case by case *)

Section Header.
Context {crypto : Crypto} {util : Util}.

Lemma readUInt16BE_none (b : bytes) (off : nat) :
  readUInt16BE b off = None -> length b < off + 2.
Proof.
  unfold readUInt16BE. intros H.
  destruct (nth_error b off) eqn:E0.
  - destruct (nth_error b (S off)) eqn:E1; [discriminate|].
    apply nth_error_None in E1. lia.
  - apply nth_error_None in E0. lia.
Qed.

Lemma readUInt16BE_at (pre : bytes) (hi lo : byte) (rest : bytes) :
  readUInt16BE (pre ++ hi :: lo :: rest) (length pre)
  = Some (Byte.to_nat hi * 256 + Byte.to_nat lo).
Proof.
  unfold readUInt16BE.
  rewrite !nth_error_app2 by lia.
  rewrite Nat.sub_diag. replace (S (length pre) - length pre) with 1 by lia.
  reflexivity.
Qed.

Lemma firstn_exact {A : Type} (l1 l2 : list A) : firstn (length l1) (l1 ++ l2) = l1.
Proof.
  rewrite firstn_app, Nat.sub_diag, firstn_all. cbn. apply app_nil_r.
Qed.

Lemma skipn_exact {A : Type} (l1 l2 : list A) : skipn (length l1) (l1 ++ l2) = l2.
Proof.
  rewrite skipn_app, Nat.sub_diag, skipn_all. reflexivity.
Qed.

Lemma parse_address_threw_short (address : bytes) (f : Fault) :
  parse_address address = ParseThrew f -> short_header address.
Proof.
  unfold parse_address, short_header.
  destruct address as [|b rest]; [discriminate|]. cbn [nth_error].
  destruct b; try discriminate.
  - destruct (readUInt16BE (x01 :: rest) 5) eqn:E; [discriminate|].
    intros _. apply readUInt16BE_none in E. lia.
  - destruct rest as [|n rest]; [trivial|]. cbn [nth_error].
    destruct (readUInt16BE (x03 :: n :: rest) (2 + Byte.to_nat n)) eqn:E;
      [discriminate|].
    intros _. apply readUInt16BE_none in E. lia.
  - destruct (readUInt16BE (x04 :: rest) 17) eqn:E; [discriminate|].
    intros _. apply readUInt16BE_none in E. lia.
Qed.

Lemma parse_address_invalid_atyp_inv (address : bytes) (b : byte) :
  parse_address address = InvalidAtyp ->
  nth_error address 0 = Some b -> b <> x01 /\ b <> x03 /\ b <> x04.
Proof.
  unfold parse_address. intros H Hb. rewrite Hb in H.
  destruct b; try (repeat split; discriminate).
  - destruct (readUInt16BE address 5); discriminate.
  - destruct (nth_error address 1); [|discriminate].
    destruct (readUInt16BE address _); discriminate.
  - destruct (readUInt16BE address 17); discriminate.
Qed.

(** X12.  What the [switch] on the first payload does, for every payload.
    It takes the [default] branch ("invalid atyp") exactly when the payload
    is empty or its first byte is none of 1, 3 and 4; it throws exactly
    when the first byte is one of these and the payload is shorter than the
    layout it announces, and what it throws is a RangeError; in every other
    case it yields an address, a port and the rest of the payload. *)
Theorem address_switch_cases (address : bytes) :
  (parse_address address = InvalidAtyp
   <-> forall b, nth_error address 0 = Some b -> b <> x01 /\ b <> x03 /\ b <> x04)
  /\ (forall f, parse_address address = ParseThrew f
                <-> short_header address /\ f = RangeError)
  /\ ((exists addr port rest, parse_address address = Address addr port rest)
      <-> (exists b, nth_error address 0 = Some b /\ (b = x01 \/ b = x03 \/ b = x04))
          /\ ~ short_header address).
Proof.
  assert (H1 : parse_address address = InvalidAtyp
               <-> forall b, nth_error address 0 = Some b ->
                             b <> x01 /\ b <> x03 /\ b <> x04).
  { split.
    - intros H b. now apply parse_address_invalid_atyp_inv.
    - apply parse_address_invalid_atyp. }
  assert (H2 : forall f, parse_address address = ParseThrew f
                         <-> short_header address /\ f = RangeError).
  { intros f. split.
    - intros H. split; [now apply (parse_address_threw_short address f)|].
      now apply (parse_address_throws address).
    - intros [Hs ->]. now apply parse_address_short. }
  split; [exact H1|split; [exact H2|]].
  split.
  - intros (addr & port & rest & H). split.
    + destruct (nth_error address 0) as [b|] eqn:Eb.
      * exists b. split; [reflexivity|].
        destruct (Byte.eqb b x01) eqn:E1; [apply Byte.byte_dec_bl in E1; auto|].
        destruct (Byte.eqb b x03) eqn:E3; [apply Byte.byte_dec_bl in E3; auto|].
        destruct (Byte.eqb b x04) eqn:E4; [apply Byte.byte_dec_bl in E4; auto|].
        exfalso. assert (Hi : parse_address address = InvalidAtyp).
        { apply H1. intros b' Hb'. injection Hb' as <-.
          repeat split; intros ->; discriminate. }
        congruence.
      * exfalso. assert (Hi : parse_address address = InvalidAtyp).
        { apply H1. intros b' Hb'. discriminate. }
        congruence.
    + intros Hs. rewrite (parse_address_short address Hs) in H. discriminate.
  - intros [(b & Hb & Hor) Hns].
    destruct (parse_address address) as [addr port rest| |f] eqn:E.
    + now exists addr, port, rest.
    + exfalso. destruct (proj1 H1 eq_refl b Hb) as (N1 & N3 & N4).
      destruct Hor as [-> | [-> | ->]]; congruence.
    + exfalso. apply Hns. now apply (H2 f).
Qed.

(** X13.  The three layouts of the address header, decoded: one byte of
    type, the address (4 bytes, 16 bytes, or a length byte and as many
    bytes of host name), two bytes of port with the high byte first, and
    whatever follows left over as payload. *)
Theorem address_header_decoded
  (ip4 ip6 name : bytes) (n hi lo : byte) (rest : bytes) :
  length ip4 = 4 -> length ip6 = 16 -> length name = Byte.to_nat n ->
  let port := Byte.to_nat hi * 256 + Byte.to_nat lo in
  parse_address (x01 :: ip4 ++ hi :: lo :: rest) = Address (inet_ntoa ip4) port rest
  /\ parse_address (x04 :: ip6 ++ hi :: lo :: rest) = Address (inet_ntop ip6) port rest
  /\ parse_address (x03 :: n :: name ++ hi :: lo :: rest)
     = Address (string_of_list_byte name) port rest.
Proof.
  intros H4 H6 Hn port.
  assert (Hgen : forall (pre body : bytes),
            readUInt16BE ((pre ++ body) ++ hi :: lo :: rest) (length pre + length body)
            = Some port
            /\ subarray ((pre ++ body) ++ hi :: lo :: rest) (length pre)
                        (length pre + length body) = body
            /\ skipn (length pre + length body + 2)
                     ((pre ++ body) ++ hi :: lo :: rest) = rest).
  { intros pre body. split; [|split].
    - rewrite <- length_app. apply readUInt16BE_at.
    - unfold subarray. rewrite <- !app_assoc, skipn_exact.
      replace (length pre + length body - length pre) with (length body) by lia.
      apply firstn_exact.
    - replace ((pre ++ body) ++ hi :: lo :: rest)
        with (((pre ++ body) ++ [hi; lo]) ++ rest) by now rewrite <- !app_assoc.
      replace (length pre + length body + 2)
        with (length ((pre ++ body) ++ [hi; lo]))
        by (rewrite !length_app; reflexivity).
      apply skipn_exact. }
  split; [|split].
  - destruct (Hgen [x01] ip4) as (E1 & E2 & E3). rewrite H4 in *.
    unfold parse_address. cbn [nth_error app length Nat.add] in *.
    now rewrite E1, E2, E3.
  - destruct (Hgen [x04] ip6) as (E1 & E2 & E3). rewrite H6 in *.
    unfold parse_address. cbn [nth_error app length Nat.add] in *.
    now rewrite E1, E2, E3.
  - destruct (Hgen [x03; n] name) as (E1 & E2 & E3). rewrite Hn in *.
    unfold parse_address. cbn [nth_error app length] in *.
    replace (4 + Byte.to_nat n) with (2 + Byte.to_nat n + 2) by lia.
    now rewrite E1, E2, E3.
Qed.

End Header.

(** ** The size of a reply on the wire *)

Section EgressSize.
Context {crypto : Crypto} {util : Util}.

Lemma chunk_count_0 : chunk_count 0 = 0.
Proof.
  unfold chunk_count. apply Nat.div_small. pose proof MAX_PAYLOAD_pos. lia.
Qed.

Lemma chunk_count_step (n : nat) :
  0 < n -> chunk_count n = S (chunk_count (n - MAX_PAYLOAD)).
Proof.
  intros Hn. unfold chunk_count. pose proof MAX_PAYLOAD_pos as Hm.
  generalize dependent MAX_PAYLOAD. intros m Hm.
  replace (n + m - 1) with ((n - 1) + 1 * m) by lia.
  rewrite Nat.div_add by lia.
  destruct (Nat.le_gt_cases n m) as [Hle|Hgt].
  - replace (n - m + m - 1) with (m - 1) by lia.
    rewrite !Nat.div_small by lia. reflexivity.
  - replace (n - m + m - 1) with (n - 1) by lia. lia.
Qed.

(** The loop cuts greedily: as many chunks as [0x3fff] goes into the
    length, rounded up, each but the last of [0x3fff] bytes. *)
Lemma split_every_greedy (fuel : nat) (data : bytes) :
  length data <= fuel ->
  length (split_every fuel data) = chunk_count (length data)
  /\ Forall (fun c => length c = MAX_PAYLOAD) (removelast (split_every fuel data)).
Proof.
  revert data. induction fuel as [|fuel IH]; intros data Hlen.
  - destruct data; [|cbn in Hlen; lia]. cbn. rewrite chunk_count_0. auto.
  - destruct data as [|b data]; [cbn; rewrite chunk_count_0; auto|].
    set (x := b :: data) in *.
    assert (Hx : 0 < length x) by (cbn; lia).
    change (split_every (S fuel) x)
      with (firstn MAX_PAYLOAD x :: split_every fuel (skipn MAX_PAYLOAD x)).
    destruct (IH (skipn MAX_PAYLOAD x)) as [H1 H2].
    { rewrite length_skipn. pose proof MAX_PAYLOAD_pos. cbn [length] in *. lia. }
    split.
    + cbn [length]. rewrite H1, length_skipn. symmetry.
      now apply chunk_count_step.
    + destruct (split_every fuel (skipn MAX_PAYLOAD x)) as [|c cs] eqn:E;
        [constructor|].
      change (removelast (firstn MAX_PAYLOAD x :: c :: cs))
        with (firstn MAX_PAYLOAD x :: removelast (c :: cs)).
      constructor; [|exact H2].
      rewrite length_firstn. apply Nat.min_l.
      destruct (Nat.le_gt_cases MAX_PAYLOAD (length x)) as [Hle|Hgt]; [exact Hle|].
      exfalso. rewrite skipn_all2 in E by lia. destruct fuel; discriminate.
Qed.

Lemma spec_frames_count (a : AEAD) (chunks : list bytes) :
  length (fst (spec_frames a chunks)) = 2 * length chunks.
Proof.
  revert a. induction chunks as [|c cs IH]; intros a; [reflexivity|].
  cbn [spec_frames]. destruct (AEAD_encrypt a _) as [f1 a1].
  destruct (AEAD_encrypt a1 c) as [f2 a2]. specialize (IH a2).
  destruct (spec_frames a2 cs) as [fs a']. cbn [fst length] in *. lia.
Qed.

Lemma spec_frames_size (a : AEAD) (chunks : list bytes) :
  aead_adds_tag ->
  Forall (fun c => 1 <= length c <= MAX_PAYLOAD) chunks ->
  length (concat (fst (spec_frames a chunks)))
  = length (concat chunks) + (2 + 2 * TAG_SIZE) * length chunks.
Proof.
  intros Htag. revert a. induction chunks as [|c cs IH]; intros a Hb.
  - cbn. lia.
  - apply Forall_cons_iff in Hb. destruct Hb as [Hc Hcs].
    cbn [spec_frames].
    pose proof (Htag a (uint16be (length c))) as E1.
    destruct (AEAD_encrypt a (uint16be (length c))) as [f1 a1].
    pose proof (Htag a1 c) as E2.
    destruct (AEAD_encrypt a1 c) as [f2 a2]. specialize (IH a2 Hcs).
    destruct (spec_frames a2 cs) as [fs a']. cbn [fst concat length] in *.
    rewrite !length_app, IH, E1, E2, uint16be_length.
    + lia.
    + unfold MAX_PAYLOAD in Hc. lia.
Qed.

(** X14.  How the reply handler cuts its input: it pushes two frames per
    chunk, a length frame and a payload frame, for as many chunks as
    [0x3fff] goes into the length of the input, rounded up; every chunk but
    the last has exactly [0x3fff] bytes. *)
Theorem replies_are_cut_greedily (data : bytes) (t : list bytes) (a : AEAD) :
  exists frames a',
    encrypt_chunks (length data) (mkEnc (Some t) (Some a)) data
    = (Proceed, mkEnc (Some (t ++ frames)) (Some a'))
    /\ frames = fst (spec_frames a (spec_chunks data))
    /\ length frames = 2 * chunk_count (length data)
    /\ length (spec_chunks data) = chunk_count (length data)
    /\ Forall (fun c => length c = MAX_PAYLOAD) (removelast (spec_chunks data)).
Proof.
  destruct (split_every_greedy (length data) data (le_n _)) as [H1 H2].
  eexists. eexists. split; [apply encrypt_chunks_frames; apply le_n|].
  split; [reflexivity|]. unfold spec_chunks.
  split; [now rewrite spec_frames_count, H1|]. split; assumption.
Qed.

Lemma on_remote_data_size (c : Conn) (t : list bytes) (a : AEAD) (s : Socket)
      (data : bytes) :
  aead_adds_tag ->
  enc c = mkEnc (Some t) (Some a) ->
  remote c = Some s ->
  exists msg,
    sent (ws (on_remote_data c data)) = sent (ws c) ++ [msg]
    /\ length msg = length (concat t) + length data
                    + (2 + 2 * TAG_SIZE) * chunk_count (length data).
Proof.
  intros Htag He Hr.
  destruct (on_remote_data_sent c t a s data He Hr) as (Hs & _).
  eexists. split; [exact Hs|].
  rewrite length_app, spec_frames_size;
    [|exact Htag|apply split_every_bounds].
  unfold spec_chunks.
  rewrite split_every_concat by apply le_n.
  destruct (split_every_greedy (length data) data (le_n _)) as [-> _]. lia.
Qed.

(** X15.  The size of what the client is sent.  With a cipher whose frames
    are [TAG_SIZE] bytes longer than their plaintexts, every input from the
    target, also an empty one, makes one WebSocket message, and its length
    is that of the input, plus [2 + 2 * TAG_SIZE] for every chunk of at most
    [0x3fff] bytes, plus what was left in [tx] (the salt, on the first
    reply). *)
Theorem reply_message_size (es : list Event) (data : bytes) :
  aead_adds_tag ->
  ~ In WsClose es ->
  handlers (run init_conn es) = true ->
  let c := run init_conn es in
  exists t msg,
    tx (enc c) = Some t
    /\ sent (ws (step c (RemoteData data))) = sent (ws c) ++ [msg]
    /\ length msg = length (concat t) + length data
                    + (2 + 2 * TAG_SIZE) * chunk_count (length data).
Proof.
  intros Htag Hnc Hh c. fold c in Hh.
  destruct (run_inv init_conn es init_conn_inv) as [Hst _]. fold c in Hst.
  destruct (enc_inv_ready c (run_enc_inv es Hnc) Hh) as (t & a & He).
  destruct (remote c) as [s|] eqn:Er; [|now elim (handlers_remote c Hst Hh)].
  destruct (on_remote_data_size c t a s data Htag He Er) as (msg & H1 & H2).
  exists t, msg. split; [now rewrite He|].
  cbn [step]. rewrite Hh. split; assumption.
Qed.

End EgressSize.

(** ** Log entries and [ws.terminate()] *)

Section Termination.
Context {crypto : Crypto} {util : Util}.

Lemma drain_from_logs (ps : list bytes) (c : Conn) :
  logs (drain_from ps c) = logs c
  /\ terminated (ws (drain_from ps c)) = terminated (ws c).
Proof.
  revert c. induction ps as [|p ps IH]; intros c; [cbn; auto|].
  cbn [drain_from]. destruct (remote c) as [s|]; [|cbn; auto].
  unfold sock_write. destruct (hd true (accepts s)); [|cbn; auto].
  match goal with |- context [drain_from ps ?x] => destruct (IH x) as [H1 H2] end.
  split; [exact H1|exact H2].
Qed.

Lemma on_ws_close_logs (c : Conn) :
  logs (on_ws_close c) = logs c
  /\ terminated (ws (on_ws_close c)) = terminated (ws c).
Proof.
  unfold on_ws_close. destruct (remote c) as [s|]; [destruct (destroyed s)|];
    split; reflexivity.
Qed.

Lemma step_logged (c : Conn) (e : Event) : Logged c (step c e) e.
Proof.
  assert (Hdrain : forall x e', logs x = logs c ->
            terminated (ws x) = terminated (ws c) -> Logged c (drain x) e').
  { intros x e' H1 H2.
    destruct (drain_from_logs (payloads (dec x)) x) as [E1 E2].
    apply logged_nothing; unfold drain; congruence. }
  destruct e; cbn [step].
  - unfold on_message. destruct (feed (dec c) data) as [[| | |f] d];
      try (now apply logged_nothing).
    + unfold consume. cbn [dec with_dec stage].
      destruct (payloads d) as [|address queued]; [now apply logged_nothing|].
      destruct (stage c); try (now apply logged_nothing).
      * destruct (parse_address address) as [addr port rest| |f].
        -- destruct rest; now apply logged_nothing.
        -- eapply logged_warning with (m := "invalid atyp"%string);
             [reflexivity|now right|reflexivity..].
        -- now apply logged_nothing.
      * now apply Hdrain.
    + eapply logged_warning with (m := "invalid password or cipher"%string);
        [reflexivity|now left|reflexivity..].
  - match goal with |- context [on_ws_close ?x] =>
      destruct (on_ws_close_logs x) as [E1 E2] end.
    now apply logged_nothing.
  - destruct (handlers c); [|now apply logged_nothing].
    unfold on_remote. destruct (remote c); now apply logged_nothing.
  - destruct (awaiting c) as [[port addr|]|]; try (now apply logged_nothing).
    unfold connect_resolved.
    change (readyState (ws (ws_resume (with_remote (Some (new_socket answers))
              (with_awaiting None c))))) with (readyState (ws c)).
    change (tx (enc (ws_resume (with_remote (Some (new_socket answers))
              (with_awaiting None c))))) with (tx (enc c)).
    destruct (readyState (ws c)); try (now apply logged_nothing).
    destruct (tx (enc c)); [|now apply logged_nothing].
    now apply Hdrain.
  - destruct (awaiting c) as [[port addr|]|]; try (now apply logged_nothing).
    now eapply logged_rejection with (m := msg).
  - destruct (handlers c); [|now apply logged_nothing]. unfold on_remote_data.
    destruct (encrypt_chunks (length data) (enc c) data) as [[| | |f] en];
      try (now apply logged_nothing).
    change (remote (with_enc en c)) with (remote c).
    destruct (remote c); [destruct (tx en)|]; now apply logged_nothing.
  - destruct (awaiting c) as [[port addr|]|]; try (now apply logged_nothing).
    unfold drain_resumed. now apply Hdrain.
  - destruct (handlers c); [|now apply logged_nothing].
    now eapply logged_remote_error with (m := msg).
  - destruct (handlers c); [|now apply logged_nothing].
    unfold on_remote. destruct (remote c); now apply logged_nothing.
  - destruct (handlers c); [|now apply logged_nothing]. unfold on_remote_close.
    destruct (readyState (ws c)); try (now apply logged_nothing).
    now apply logged_remote_close.
Qed.

Lemma run_logged (es : list Event) :
  let c := run init_conn es in
  (forall m, In (Warn, m) (logs c) ->
     terminated (ws c) = true
     /\ (m = "invalid password or cipher"%string \/ m = "invalid atyp"%string))
  /\ (forall m, In (Error, m) (logs c) ->
        In (ConnectRejected m) es \/ In (RemoteError m) es)
  /\ (terminated (ws c) = true ->
      (exists m, In (Warn, m) (logs c))
      \/ (exists m, In (ConnectRejected m) es)
      \/ In RemoteClose es).
Proof.
  induction es as [|e es IH] using rev_ind.
  - cbn. repeat split; try contradiction; discriminate.
  - cbv zeta in *. rewrite run_snoc. set (c := run init_conn es) in *.
    destruct IH as (IH1 & IH2 & IH3).
    assert (Hold : forall x, In x es -> In x (es ++ [e]))
      by (intros; apply in_or_app; now left).
    assert (Hnew : In e (es ++ [e])) by (apply in_or_app; right; now left).
    assert (Hmono : terminated (ws c) = true -> terminated (ws (step c e)) = true).
    { destruct (step_logged c e); congruence. }
    assert (H3 : terminated (ws c) = true ->
                 (exists m, In (Warn, m) (logs c))
                 \/ (exists m, In (ConnectRejected m) (es ++ [e]))
                 \/ In RemoteClose (es ++ [e])).
    { intros H. destruct (IH3 H) as [H'|[(m & H')|H']]; eauto. }
    destruct (step_logged c e) as [El Et|data m He Hm El Et|m He El Et|m He El Et|He El Et];
      rewrite El, ?Et; try subst e.
    + split; [|split].
      * intros m Hin. destruct (IH1 m Hin) as [H1 H2]. now split.
      * intros m Hin. destruct (IH2 m Hin); auto.
      * exact H3.
    + split; [|split].
      * intros m' Hin. split; [reflexivity|].
        apply in_app_or in Hin. destruct Hin as [Hin|[[= <-]|[]]]; [|exact Hm].
        now apply IH1.
      * intros m' Hin. apply in_app_or in Hin.
        destruct Hin as [Hin|[[=]|[]]]. destruct (IH2 m' Hin); auto.
      * intros _. left. exists m. apply in_or_app. right. now left.
    + split; [|split].
      * intros m' Hin. apply in_app_or in Hin.
        destruct Hin as [Hin|[[=]|[]]]. split; [reflexivity|now apply IH1].
      * intros m' Hin. apply in_app_or in Hin.
        destruct Hin as [Hin|[[= <-]|[]]]; [destruct (IH2 m' Hin); auto|auto].
      * intros _. right. left. now exists m.
    + split; [|split].
      * intros m' Hin. apply in_app_or in Hin.
        destruct Hin as [Hin|[[=]|[]]]. destruct (IH1 m' Hin). now split.
      * intros m' Hin. apply in_app_or in Hin.
        destruct Hin as [Hin|[[= <-]|[]]]; [destruct (IH2 m' Hin); auto|auto].
      * intros H. destruct (H3 H) as [(m' & H')|H']; [left|now right].
        exists m'. apply in_or_app. now left.
    + split; [|split].
      * intros m Hin. split; [reflexivity|now apply IH1].
      * intros m Hin. destruct (IH2 m Hin); auto.
      * intros _. right. right. exact Hnew.
Qed.

(** X16.  Why the server terminates a client, and what it logs.  It calls
    [ws.terminate()] only after a chunk failed authentication or the
    address type was invalid, both with a warning, after the connect was
    rejected, or when the remote closed; a warning is always one of those
    two and always comes with the termination; an error entry is the
    message of a rejected connect or of a remote error. *)
Theorem termination_has_a_reason (es : list Event) :
  let c := run init_conn es in
  (forall m, In (Warn, m) (logs c) ->
     terminated (ws c) = true
     /\ (m = "invalid password or cipher"%string \/ m = "invalid atyp"%string))
  /\ (forall m, In (Error, m) (logs c) ->
        In (ConnectRejected m) es \/ In (RemoteError m) es)
  /\ (terminated (ws c) = true ->
      (exists m, In (Warn, m) (logs c))
      \/ (exists m, In (ConnectRejected m) es)
      \/ In RemoteClose es).
Proof. exact (run_logged es). Qed.

End Termination.

(** ** The queue of an idle relay *)

Section IdleQueue.
Context {crypto : Crypto} {util : Util}.

Lemma decrypt_chunks_not_returned (f : nat) (d : DecCtx) (data : bytes) :
  fst (decrypt_chunks f d data) <> Returned.
Proof.
  revert d data. induction f as [|f IH]; intros d data;
    (destruct data as [|b data]; [cbn; discriminate|]); [cbn; discriminate|].
  cbn [decrypt_chunks].
  destruct (length (b :: data) <? cipherTextSize d + TAG_SIZE).
  - destruct (rx d); cbn; discriminate.
  - destruct (decipher d) as [a|]; [|cbn; discriminate].
    destruct (AEAD_decrypt a _ _) as [[pt|] a']; [|cbn; discriminate].
    destruct (Nat.even _); [|apply IH].
    destruct (readUInt16BE pt 0); [apply IH|cbn; discriminate].
Qed.

Lemma feed_returned (d : DecCtx) (data : bytes) :
  fst (feed d data) = Returned -> payloads (snd (feed d data)) = payloads d.
Proof.
  destruct (rx d) as [r|] eqn:Er; [|unfold feed; rewrite Er; discriminate].
  rewrite (feed_norm d r data Er). unfold init_and_decrypt.
  cbn [decipher with_rx rx].
  destruct (decipher d).
  - intros H. now elim (decrypt_chunks_not_returned _ _ _ H).
  - destruct (_ <? SALT_SIZE); [reflexivity|].
    intros H. now elim (decrypt_chunks_not_returned _ _ _ H).
Qed.

Lemma drain_from_idle (ps : list bytes) (c : Conn) :
  payloads (dec c) = ps -> stage c <> OPEN ->
  stage (drain_from ps c) = OPEN -> payloads (dec (drain_from ps c)) = [].
Proof.
  revert c. induction ps as [|p ps IH]; intros c Hp Hs; [intros _; exact Hp|].
  cbn [drain_from]. destruct (remote c) as [s|]; [|intros H; now elim Hs].
  unfold sock_write. destruct (hd true (accepts s)).
  - apply IH; [reflexivity|exact Hs].
  - intros H. now elim Hs.
Qed.

Lemma on_ws_close_payloads (c : Conn) :
  payloads (dec (on_ws_close c)) = payloads (dec c).
Proof.
  unfold on_ws_close. destruct (remote c) as [s|]; [destruct (destroyed s)|];
    reflexivity.
Qed.

Section QueueLaws.
Hypothesis tag_pos : 0 < TAG_SIZE.
Hypothesis keeps_length : aead_keeps_length.

Lemma step_idle (c : Conn) (e : Event) :
  conn_inv c -> framer_wf (dec c) ->
  (stage c = OPEN -> terminated (ws c) = false -> payloads (dec c) = []) ->
  stage (step c e) = OPEN -> terminated (ws (step c e)) = false ->
  payloads (dec (step c e)) = [].
Proof.
  intros [Hst _] Hwf HQ Hs' Ht'.
  assert (Ht : terminated (ws c) = false).
  { destruct (terminated (ws c)) eqn:E; [|reflexivity].
    destruct (step_logged c e); congruence. }
  revert Hs' Ht'.
  assert (Hsame : forall c', stage c' = stage c ->
            payloads (dec c') = payloads (dec c) ->
            stage c' = OPEN -> terminated (ws c') = false ->
            payloads (dec c') = []).
  { intros c' H1 H2 H3 _. rewrite H2. apply HQ; congruence. }
  assert (Hdrain : forall x, stage x = WRITING ->
            stage (drain x) = OPEN -> terminated (ws (drain x)) = false ->
            payloads (dec (drain x)) = []).
  { intros x Hx H _. apply drain_from_idle; [reflexivity|congruence|exact H]. }
  destruct e; cbn [step].
  - unfold on_message.
    destruct (feed_wf tag_pos keeps_length (dec c) data Hwf) as [Hnf _].
    pose proof (feed_returned (dec c) data) as Hret.
    destruct (feed (dec c) data) as [[| | |f] d]; cbn [fst snd] in *.
    + unfold consume. cbn [dec with_dec stage].
      destruct (payloads d) as [|address queued] eqn:Ep; [intros _ _; exact Ep|].
      destruct (stage c) eqn:Es.
      * destruct (parse_address address) as [addr port rest| |f];
          [destruct rest|..]; cbn; rewrite ?Es; discriminate.
      * cbn. rewrite Es. discriminate.
      * now apply Hdrain.
      * cbn. rewrite Es. discriminate.
    + apply Hsame; [reflexivity|]. now apply Hret.
    + cbn. discriminate.
    + now elim (Hnf f).
  - match goal with
    | |- context [on_ws_close ?x] =>
      apply Hsame; [exact (proj1 (on_ws_close_stage x))
                   |exact (on_ws_close_payloads x)]
    end.
  - destruct (handlers c); [|now apply Hsame].
    unfold on_remote. destruct (remote c); now apply Hsame.
  - destruct (awaiting c) as [[port addr|]|]; try (now apply Hsame).
    unfold connect_resolved.
    change (readyState (ws (ws_resume (with_remote (Some (new_socket answers))
              (with_awaiting None c))))) with (readyState (ws c)).
    change (tx (enc (ws_resume (with_remote (Some (new_socket answers))
              (with_awaiting None c))))) with (tx (enc c)).
    destruct (readyState (ws c)); try (now apply Hsame).
    destruct (tx (enc c)); [|now apply Hsame].
    now apply Hdrain.
  - destruct (awaiting c) as [[port addr|]|]; now apply Hsame.
  - destruct (handlers c); [|now apply Hsame]. unfold on_remote_data.
    destruct (encrypt_chunks (length data) (enc c) data) as [[| | |f] en];
      try (now apply Hsame).
    change (remote (with_enc en c)) with (remote c).
    destruct (remote c); [destruct (tx en)|]; now apply Hsame.
  - destruct (awaiting c) as [[port addr|]|] eqn:Ea; try (now apply Hsame).
    unfold drain_resumed. apply Hdrain. cbn.
    unfold stage_inv in Hst. rewrite Ea in Hst.
    destruct (stage c); intuition congruence.
  - destruct (handlers c); now apply Hsame.
  - destruct (handlers c); [|now apply Hsame].
    unfold on_remote. destruct (remote c); now apply Hsame.
  - destruct (handlers c); [|now apply Hsame]. unfold on_remote_close.
    destruct (readyState (ws c)); now apply Hsame.
Qed.

Lemma run_idle (es : list Event) :
  ~ In WsClose es ->
  let c := run init_conn es in
  framer_wf (dec c)
  /\ (stage c = OPEN -> terminated (ws c) = false -> payloads (dec c) = []).
Proof.
  induction es as [|e es IH] using rev_ind; intros Hnc.
  - split; [apply init_dec_wf|reflexivity].
  - assert (Hnc' : ~ In WsClose es).
    { intros H. apply Hnc, in_or_app. now left. }
    assert (Hne : e <> WsClose).
    { intros ->. apply Hnc, in_or_app. right. now left. }
    destruct (IH Hnc') as [Hwf HQ]. cbv zeta. rewrite run_snoc.
    set (c := run init_conn es) in *.
    assert (Hinv : conn_inv c) by (apply run_inv, init_conn_inv).
    split; [now apply (step_wf tag_pos keeps_length)|].
    now apply step_idle.
Qed.

(** X17.  No payload is left waiting while the relay is idle.  Up to the
    close of the WebSocket, whenever the stage is OPEN between two events
    and the server has not terminated the client, [payloads] is empty:
    every payload decrypted so far has been passed to [remote.write]. *)
Theorem idle_relay_has_an_empty_queue (es : list Event) :
  ~ In WsClose es ->
  let c := run init_conn es in
  stage c = OPEN -> terminated (ws c) = false ->
  payloads (dec c) = [] /\ relayed c = map fst (write_log c).
Proof.
  intros Hnc c Hs Ht.
  pose proof (proj2 (run_idle es Hnc) Hs Ht) as Hp. fold c in Hp.
  split; [exact Hp|]. unfold relayed. rewrite Hp. apply app_nil_r.
Qed.

End QueueLaws.

End IdleQueue.

(** ** The decipher and the salt *)

Section SaltAndKey.
Context {crypto : Crypto} {util : Util}.

Lemma feed_rx (d : DecCtx) (data : bytes) :
  rx d <> None -> rx (snd (feed d data)) <> None.
Proof.
  intros Hrx. destruct (rx d) as [r|] eqn:Er; [|contradiction].
  rewrite (feed_norm d r data Er). apply init_and_decrypt_rx. discriminate.
Qed.

Lemma framer_state_rx (d d' : DecCtx) :
  framer_state d' = framer_state d -> rx d' = rx d.
Proof. unfold framer_state. now intros [= -> _ _ _]. Qed.

Lemma run_rx (es : list Event) :
  ~ In WsClose es -> rx (dec (run init_conn es)) <> None.
Proof.
  induction es as [|e es IH] using rev_ind; intros Hnc; [discriminate|].
  assert (Hnc' : ~ In WsClose es).
  { intros H. apply Hnc, in_or_app. now left. }
  assert (Hne : e <> WsClose).
  { intros ->. apply Hnc, in_or_app. right. now left. }
  specialize (IH Hnc'). rewrite run_snoc. set (c := run init_conn es) in *.
  assert (Hinv : conn_inv c) by (apply run_inv, init_conn_inv).
  destruct e;
    try (match goal with |- context [step c ?e] =>
           destruct (step_other c e Hinv) as (_ & _ & _ & H4 & _);
             [discriminate|];
           rewrite (framer_state_rx _ _ (H4 Hne)); exact IH
         end).
  - cbn [step]. rewrite (framer_state_rx _ _ (on_message_framer c data)).
    now apply feed_rx.
Qed.

(** X18.  The decipher and the salt.  Up to the close of the WebSocket,
    there is no decipher exactly as long as fewer than [SALT_SIZE] bytes
    have arrived, all of them waiting in [rx]; once there is one, it is the
    object made from [hkdfSync] of the key and the first [SALT_SIZE] bytes
    the client sent, in the state its [decrypt] calls have left it in. *)
Theorem decipher_is_keyed_by_the_salt (es : list Event) :
  ~ In WsClose es ->
  let c := run init_conn es in
  (decipher (dec c) = None ->
   pending (dec c) = ingress es
   /\ (ingress es = [] \/ length (ingress es) < SALT_SIZE))
  /\ (forall a, decipher (dec c) = Some a ->
        SALT_SIZE <= length (ingress es)
        /\ keyed_by (firstn SALT_SIZE (ingress es)) a).
Proof.
  intros Hnc c.
  destruct (run_tracks es) as [Hnone Hsome]. fold c in Hnone, Hsome.
  pose proof (run_rx es Hnc) as Hrx. fold c in Hrx.
  destruct (run_rx_short es) as [_ Hshort]. fold c in Hshort.
  split.
  - intros Hd. rewrite Hd in Hshort. rewrite <- (Hnone Hd Hrx).
    split; [reflexivity|exact Hshort].
  - intros a Ha. destruct (Hsome a Ha) as (salt & pre & Hs & Hl & Hk).
    rewrite Hs, <- Hl, firstn_exact, length_app. split; [lia|exact Hk].
Qed.

End SaltAndKey.

(** ** The further properties on the toy instance *)

Section ToyWitnessesMore.
#[local] Existing Instance toy_crypto.
#[local] Existing Instance toy_util.

Lemma toy_adds_tag : aead_adds_tag.
Proof. intros a pt. apply toy_opens_sealed. Qed.

(** Three bytes in two messages, against a salt of thirty-two. *)
Lemma short_of_a_salt_only_buffers_witness :
  let chunks := [[x01]; [x02; x03]] in
  length (concat chunks) < SALT_SIZE
  /\ exists r,
      run init_conn (map WsMessage chunks)
      = with_dec (with_rx (Some r) init_dec) init_conn
      /\ concat r = concat chunks.
Proof.
  cbv zeta.
  assert (H : length (concat [[x01]; [x02; x03]]) < SALT_SIZE) by (cbn; lia).
  split; [exact H|].
  exact (@short_of_a_salt_only_buffers toy_crypto toy_util [[x01]; [x02; x03]] H).
Defined.

(** A header with ATYP 5, then a well-formed stream, a connect that
    resolves all the same, and a reply. *)
Lemma abandoned_connection_never_relays_witness :
  let es := [WsMessage stream_bad_atyp] in
  let es' := [WsMessage stream_hello; ConnectResolved [] toy_salt;
              RemoteData ["h"%byte; "i"%byte]] in
  abandoned (run init_conn es)
  /\ (let c := run init_conn es in
      let c' := run c es' in
      stage c' = OPENING /\ awaiting c' = None
      /\ write_log c' = write_log c
      /\ sent (ws c') = []
      /\ to c' = to c).
Proof.
  cbv zeta.
  assert (H : abandoned (run init_conn [WsMessage stream_bad_atyp]))
    by (split; reflexivity).
  split; [exact H|].
  exact (@abandoned_connection_never_relays toy_crypto toy_util
           [WsMessage stream_bad_atyp]
           [WsMessage stream_hello; ConnectResolved [] toy_salt;
            RemoteData ["h"%byte; "i"%byte]] H).
Defined.

(** The connect to 127.0.0.1:80 in flight. *)
Lemma connect_in_flight_witness :
  let c := run init_conn [WsMessage stream_hello] in
  awaiting c = Some (AwaitConnect 80 (inet_ntoa [x7f; x00; x00; x01]))
  /\ (ws_paused (ws c) = true
      /\ to c = Some (inet_ntoa [x7f; x00; x00; x01], 80)
      /\ stage c = OPENING /\ remote c = None /\ handlers c = false
      /\ sent (ws c) = []).
Proof.
  cbv zeta. split; [reflexivity|].
  apply (@connect_in_flight toy_crypto toy_util [WsMessage stream_hello] 80
           (inet_ntoa [x7f; x00; x00; x01])).
  reflexivity.
Defined.

(** Between the connect and the first reply. *)
Lemma tx_holds_the_salt_or_nothing_witness :
  let es := [WsMessage stream_hello; ConnectResolved [] toy_salt] in
  ~ In WsClose es
  /\ (let c := run init_conn es in
      if handlers c then
        exists a, cipher (enc c) = Some a
          /\ (tx (enc c) = Some []
              \/ (sent (ws c) = []
                  /\ exists salt, tx (enc c) = Some [salt]
                                  /\ a = AEAD_new (hkdfSync KEY salt)))
      else enc c = init_enc /\ sent (ws c) = []).
Proof.
  cbv zeta.
  assert (Hnc : ~ In WsClose [WsMessage stream_hello; ConnectResolved [] toy_salt]).
  { intros H. repeat (destruct H as [H|H]; [discriminate|]). exact H. }
  split; [exact Hnc|].
  exact (@tx_holds_the_salt_or_nothing toy_crypto toy_util
           [WsMessage stream_hello; ConnectResolved [] toy_salt] Hnc).
Defined.

(** A header cut short, then more from the client and a remote error. *)
Lemma only_a_short_header_throws_witness :
  let es := [WsMessage stream_short_header; WsMessage (toy_seal 2 [x00; x01]);
             RemoteError "reset"] in
  0 < TAG_SIZE /\ aead_keeps_length /\ ~ In WsClose es
  /\ (let c := run init_conn es in
      faults c = []
      \/ (faults c = [RangeError] /\ stage c = OPENING /\ awaiting c = None)).
Proof.
  cbv zeta.
  assert (Hnc : ~ In WsClose [WsMessage stream_short_header;
                              WsMessage (toy_seal 2 [x00; x01]);
                              RemoteError "reset"]).
  { intros H. repeat (destruct H as [H|H]; [discriminate|]). exact H. }
  split; [exact toy_tag_pos|]. split; [exact toy_keeps_length|].
  split; [exact Hnc|].
  exact (@only_a_short_header_throws toy_crypto toy_util toy_tag_pos
           toy_keeps_length _ Hnc).
Defined.

(** 127.0.0.1, the IPv6 address of sixteen zero bytes and the host name
    "a.b", each with port 80 and the byte "A" left over. *)
Lemma address_header_decoded_witness :
  let ip4 := [x7f; x00; x00; x01] in
  let ip6 := repeat x00 16 in
  let name := ["a"%byte; "."%byte; "b"%byte] in
  length ip4 = 4 /\ length ip6 = 16 /\ length name = Byte.to_nat x03
  /\ (let port := Byte.to_nat x00 * 256 + Byte.to_nat x50 in
      parse_address (x01 :: ip4 ++ x00 :: x50 :: ["A"%byte])
      = Address (inet_ntoa ip4) port ["A"%byte]
      /\ parse_address (x04 :: ip6 ++ x00 :: x50 :: ["A"%byte])
         = Address (inet_ntop ip6) port ["A"%byte]
      /\ parse_address (x03 :: x03 :: name ++ x00 :: x50 :: ["A"%byte])
         = Address (string_of_list_byte name) port ["A"%byte]).
Proof.
  cbv zeta. do 3 (split; [reflexivity|]).
  apply (@address_header_decoded toy_util [x7f; x00; x00; x01] (repeat x00 16)
           ["a"%byte; "."%byte; "b"%byte] x03 x00 x50 ["A"%byte]);
    reflexivity.
Defined.

(** The first reply, two bytes: the salt, and one chunk with its two tags. *)
Lemma reply_message_size_witness :
  let es := [WsMessage stream_hello; ConnectResolved [] toy_salt] in
  let data := ["h"%byte; "i"%byte] in
  aead_adds_tag /\ ~ In WsClose es /\ handlers (run init_conn es) = true
  /\ (let c := run init_conn es in
      exists t msg,
        tx (enc c) = Some t
        /\ sent (ws (step c (RemoteData data))) = sent (ws c) ++ [msg]
        /\ length msg = length (concat t) + length data
                        + (2 + 2 * TAG_SIZE) * chunk_count (length data)).
Proof.
  cbv zeta.
  assert (Hnc : ~ In WsClose [WsMessage stream_hello; ConnectResolved [] toy_salt]).
  { intros H. repeat (destruct H as [H|H]; [discriminate|]). exact H. }
  split; [exact toy_adds_tag|]. split; [exact Hnc|]. split; [reflexivity|].
  apply (@reply_message_size toy_crypto toy_util
           [WsMessage stream_hello; ConnectResolved [] toy_salt]
           ["h"%byte; "i"%byte] toy_adds_tag Hnc).
  reflexivity.
Defined.

(** The header and two payloads, the connect resolved, every write
    accepted. *)
Lemma idle_relay_has_an_empty_queue_witness :
  let es := [WsMessage stream_header_A_then_B; ConnectResolved [] toy_salt] in
  0 < TAG_SIZE /\ aead_keeps_length /\ ~ In WsClose es
  /\ stage (run init_conn es) = OPEN
  /\ terminated (ws (run init_conn es)) = false
  /\ (let c := run init_conn es in
      payloads (dec c) = [] /\ relayed c = map fst (write_log c)).
Proof.
  cbv zeta.
  assert (Hnc : ~ In WsClose [WsMessage stream_header_A_then_B;
                              ConnectResolved [] toy_salt]).
  { intros H. repeat (destruct H as [H|H]; [discriminate|]). exact H. }
  split; [exact toy_tag_pos|]. split; [exact toy_keeps_length|].
  split; [exact Hnc|]. split; [reflexivity|]. split; [reflexivity|].
  apply (@idle_relay_has_an_empty_queue toy_crypto toy_util toy_tag_pos
           toy_keeps_length
           [WsMessage stream_header_A_then_B; ConnectResolved [] toy_salt] Hnc);
    reflexivity.
Defined.

(** The salt and two frames have arrived. *)
Lemma decipher_is_keyed_by_the_salt_witness :
  let es := [WsMessage stream_hello] in
  ~ In WsClose es
  /\ (let c := run init_conn es in
      (decipher (dec c) = None ->
       pending (dec c) = ingress es
       /\ (ingress es = [] \/ length (ingress es) < SALT_SIZE))
      /\ (forall a, decipher (dec c) = Some a ->
            SALT_SIZE <= length (ingress es)
            /\ keyed_by (firstn SALT_SIZE (ingress es)) a)).
Proof.
  cbv zeta.
  assert (Hnc : ~ In WsClose [WsMessage stream_hello]).
  { intros H. repeat (destruct H as [H|H]; [discriminate|]). exact H. }
  split; [exact Hnc|].
  exact (@decipher_is_keyed_by_the_salt toy_crypto toy_util
           [WsMessage stream_hello] Hnc).
Defined.

End ToyWitnessesMore.
